(** * nih-dbus-tool, property.c: property parsing and stub generation

    A shallow embedding of [property.c] together with a small model of the
    C text it emits.  The parsing side ([property_name_valid],
    [property_new], [property_start_tag], [property_end_tag]) is embedded as
    functions over an explicit allocation state.  The generating side
    ([property_object_get_function] and its three siblings) is embedded as
    functions that build the emitted function body as a list of statements;
    [render] prints such a list back to the C text of the source, and [exec]
    runs it against an oracle that decides what every external call returns,
    so that statements about "every execution path of the emitted code"
    become statements about every oracle. *)

From Stdlib Require Import String Ascii ZArith List Lia Bool DecimalString.
From stdpp Require Import base gmap strings list.

Open Scope Z_scope.

(** ** Characters and C strings *)

(** The value of a C [char].  [char] is signed on the platforms the tool is
    built for, so bytes from 0x80 up are negative; every comparison of the
    source is against an ASCII constant. *)
Definition char_val (c : ascii) : Z :=
  let n := Z.of_N (N_of_ascii c) in
  if 128 <=? n then n - 256 else n.

Definition strlen (s : string) : nat := String.length s.

(** ** property_name_valid *)

(** One iteration of the [for] loop of [property_name_valid], at index [i]
    on character [c]: [Some tt] is [continue] (or falling off the end of
    the body), [None] is [return FALSE]. *)
Definition name_valid_step (i : nat) (c : ascii) : option unit :=
  (* Names may contain digits, but not at the beginning. *)
  if (char_val "0" <=? char_val c) && (char_val c <=? char_val "9") then
    if (i =? 0)%nat then None else Some tt
  (* Valid characters anywhere are [A-Za-z_] *)
  else if ((char_val c <? char_val "A") || (char_val "Z" <? char_val c))
       && ((char_val c <? char_val "a") || (char_val "z" <? char_val c))
       && negb (char_val c =? char_val "_")
  then None
  else Some tt.

(** The loop [for (size_t i = 0; i < strlen (name); i++)], started at index
    [i] on the characters that remain. *)
Fixpoint name_valid_loop (i : nat) (rest : string) : option unit :=
  match rest with
  | EmptyString => Some tt
  | String c rest' =>
      match name_valid_step i c with
      | None => None
      | Some _ => name_valid_loop (S i) rest'
      end
  end.

Definition property_name_valid (name : string) : bool :=
  match name_valid_loop 0 name with
  | None => false
  | Some _ =>
      (* Name must be at least 1 character and no more than 255 characters *)
      if (strlen name <? 1)%nat || (255 <? strlen name)%nat then false
      else true
  end.

(** The specification's reading of a member name: the regular expression
    [[A-Za-z_][A-Za-z0-9_]*] and a length between 1 and 255. *)
Definition is_upper (c : ascii) : bool :=
  (65 <=? Z.of_N (N_of_ascii c)) && (Z.of_N (N_of_ascii c) <=? 90).
Definition is_lower (c : ascii) : bool :=
  (97 <=? Z.of_N (N_of_ascii c)) && (Z.of_N (N_of_ascii c) <=? 122).
Definition is_digit (c : ascii) : bool :=
  (48 <=? Z.of_N (N_of_ascii c)) && (Z.of_N (N_of_ascii c) <=? 57).
Definition is_underscore (c : ascii) : bool :=
  Z.of_N (N_of_ascii c) =? 95.

Definition name_head_char (c : ascii) : bool :=
  is_upper c || is_lower c || is_underscore c.
Definition name_tail_char (c : ascii) : bool :=
  name_head_char c || is_digit c.

Fixpoint all_chars (p : ascii -> bool) (s : string) : bool :=
  match s with
  | EmptyString => true
  | String c s' => p c && all_chars p s'
  end.

Definition matches_member_regex (s : string) : bool :=
  match s with
  | EmptyString => false
  | String c s' => name_head_char c && all_chars name_tail_char s'
  end.

Definition member_name_spec (s : string) : bool :=
  matches_member_regex s
  && (1 <=? String.length s)%nat && (String.length s <=? 255)%nat.

(** ** The hierarchical allocator (nih/alloc.c) *)

(** A block is named by the pointer [nih_alloc] returned for it. *)
Definition ptr := positive.

Inductive NihDBusAccess := NIH_DBUS_READ | NIH_DBUS_WRITE | NIH_DBUS_READWRITE.

(** [NihList]: the node by which a structure is linked into an intrusive
    circular list.  Only whether the node is linked matters here: a node
    that [nih_list_init] made point at itself is [Unlinked], a node that
    [nih_list_add] put into a list is [Linked]. *)
Inductive NihList := Unlinked | Linked.

(** [struct Property] as it lies in memory: strings are pointers to blocks
    of their own, [None] being [NULL]. *)
Record PropertyMem := {
  entry : NihList;
  m_name : option ptr;
  m_symbol : option ptr;
  m_type : option ptr;
  m_access : NihDBusAccess;
  m_deprecated : bool
}.

Inductive payload :=
| VString (s : string)
| VProperty (p : PropertyMem)
| VOpaque.

Inductive NihDestructor := nih_list_destroy.

(** [NihAllocCtx], the header in front of every block, with the block's
    contents next to it. *)
Record NihAllocCtx := {
  ctx_parent : option ptr;
  ctx_children : list ptr;
  ctx_destructor : option NihDestructor;
  ctx_data : payload
}.

(** The allocation state: the live blocks, and what the underlying
    allocator will answer to the coming requests ([false]: it returns
    [NULL]; an exhausted list: it succeeds). *)
Record world := {
  heap : gmap ptr NihAllocCtx;
  answers : list bool
}.

Definition with_heap (w : world) (h : gmap ptr NihAllocCtx) : world :=
  {| heap := h; answers := answers w |}.

Definition add_child (c : ptr) (x : NihAllocCtx) : NihAllocCtx :=
  {| ctx_parent := ctx_parent x; ctx_children := ctx_children x ++ [c];
     ctx_destructor := ctx_destructor x; ctx_data := ctx_data x |}.

Definition set_data (d : payload) (x : NihAllocCtx) : NihAllocCtx :=
  {| ctx_parent := ctx_parent x; ctx_children := ctx_children x;
     ctx_destructor := ctx_destructor x; ctx_data := d |}.

(** [nih_alloc]: ask the allocator; on success the new block has no
    children and no destructor, and is appended to its parent's children.
    [data] is what the block holds before the caller writes to it. *)
Definition nih_alloc (parent : option ptr) (data : payload) (w : world)
  : option ptr * world :=
  match answers w with
  | false :: rest => (None, {| heap := heap w; answers := rest |})
  | _ =>
      let p := fresh (dom (heap w)) in
      let h1 := <[p := {| ctx_parent := parent; ctx_children := [];
                          ctx_destructor := None; ctx_data := data |}]> (heap w) in
      let h2 := match parent with
                | Some q => alter (add_child p) q h1
                | None => h1
                end in
      (Some p, {| heap := h2; answers := tail (answers w) |})
  end.

Definition nih_alloc_set_destructor (p : ptr) (d : option NihDestructor)
    (w : world) : world :=
  with_heap w
    (alter (fun x => {| ctx_parent := ctx_parent x;
                        ctx_children := ctx_children x;
                        ctx_destructor := d; ctx_data := ctx_data x |})
       p (heap w)).

Definition set_node (p : ptr) (e : NihList)
    (h : gmap ptr NihAllocCtx) : gmap ptr NihAllocCtx :=
  alter (fun x =>
           match ctx_data x with
           | VProperty m =>
               set_data (VProperty {| entry := e;
                                      m_name := m_name m;
                                      m_symbol := m_symbol m;
                                      m_type := m_type m;
                                      m_access := m_access m;
                                      m_deprecated := m_deprecated m |}) x
           | _ => x
           end) p h.

(** [nih_list_init]: the node points at itself, i.e. is in no list. *)
Definition nih_list_init (p : ptr) (h : gmap ptr NihAllocCtx) :=
  set_node p Unlinked h.


(** [nih_list_remove], which is all [nih_list_destroy] does: the node is
    taken out of the list it is in and linked to itself. *)
Definition nih_list_remove (p : ptr) (h : gmap ptr NihAllocCtx) :=
  nih_list_init p h.

(** [nih_free]: the children are freed first, then the destructor runs,
    then the block goes back to the allocator.  The recursion of the source
    descends the tree of blocks; [n] bounds its depth. *)
Fixpoint nih_free_depth (n : nat) (p : ptr) (h : gmap ptr NihAllocCtx)
  : gmap ptr NihAllocCtx :=
  match n with
  | O => h
  | S n' =>
      match h !! p with
      | None => h
      | Some x =>
          let h1 := foldl (fun h' q => nih_free_depth n' q h') h
                      (ctx_children x) in
          let h2 := match ctx_destructor x with
                    | Some nih_list_destroy => nih_list_remove p h1
                    | None => h1
                    end in
          delete p h2
      end
  end.

Definition nih_free (p : ptr) (w : world) : world :=
  with_heap w (nih_free_depth (S (size (heap w))) p (heap w)).

(** [nih_strdup] (nih/string.c is not among the sources): a block of
    [parent] that holds a copy of [s]. *)
Definition nih_strdup (parent : option ptr) (s : string) (w : world) :=
  nih_alloc parent (VString s) w.

(** ** property_new *)

Definition set_property (p : ptr) (f : PropertyMem -> PropertyMem)
    (w : world) : world :=
  with_heap w
    (alter (fun x =>
              match ctx_data x with
              | VProperty m => set_data (VProperty (f m)) x
              | _ => x
              end) p (heap w)).

(** What [nih_new] hands back before any member is assigned (the members
    are unspecified in C; they are all written before they are read). *)
Definition unset_property : PropertyMem :=
  {| entry := Linked; m_name := None; m_symbol := None;
     m_type := None; m_access := NIH_DBUS_READ; m_deprecated := false |}.

Definition property_new (parent : option ptr) (name type : string)
    (access : NihDBusAccess) (w : world) : option ptr * world :=
  match nih_alloc parent (VProperty unset_property) w with
  | (None, w) => (None, w)
  | (Some property, w) =>
      let w := with_heap w (nih_list_init property (heap w)) in
      let w := nih_alloc_set_destructor property (Some nih_list_destroy) w in
      match nih_strdup (Some property) name w with
      | (None, w) => (None, nih_free property w)
      | (Some n, w) =>
          let w := set_property property (fun m =>
                     {| entry := entry m; m_name := Some n;
                        m_symbol := None; m_type := m_type m;
                        m_access := m_access m;
                        m_deprecated := m_deprecated m |}) w in
          match nih_strdup (Some property) type w with
          | (None, w) => (None, nih_free property w)
          | (Some t, w) =>
              let w := set_property property (fun m =>
                         {| entry := entry m; m_name := m_name m;
                            m_symbol := m_symbol m; m_type := Some t;
                            m_access := access;
                            m_deprecated := false |}) w in
              (Some property, w)
          end
      end
  end.

(** The [Property] a block stands for, strings read through their
    pointers. *)
Record Property := {
  p_name : string;
  p_symbol : option string;
  p_type : string;
  p_access : NihDBusAccess;
  p_deprecated : bool
}.

Definition load_string (h : gmap ptr NihAllocCtx) (p : ptr) : option string :=
  match h !! p with
  | Some {| ctx_data := VString s |} => Some s
  | _ => None
  end.

Definition load_property (h : gmap ptr NihAllocCtx) (p : ptr)
  : option Property :=
  match h !! p with
  | Some {| ctx_data := VProperty m |} =>
      match m_name m, m_type m with
      | Some n, Some t =>
          match load_string h n, load_string h t with
          | Some name, Some type =>
              match m_symbol m with
              | None =>
                  Some {| p_name := name; p_symbol := None; p_type := type;
                          p_access := m_access m;
                          p_deprecated := m_deprecated m |}
              | Some s =>
                  match load_string h s with
                  | Some symbol =>
                      Some {| p_name := name; p_symbol := Some symbol;
                              p_type := type; p_access := m_access m;
                              p_deprecated := m_deprecated m |}
                  | None => None
                  end
              end
          | _, _ => None
          end
      | _, _ => None
      end
  | _ => None
  end.

Definition empty_world : world := {| heap := ∅; answers := [] |}.

(** The members of a [Property] as [property_new] leaves them, when its
    name and type strings are the blocks [n] and [t]. *)
Definition new_property_mem (n t : ptr) (access : NihDBusAccess)
  : PropertyMem :=
  {| entry := Unlinked; m_name := Some n; m_symbol := None;
     m_type := Some t; m_access := access; m_deprecated := false |}.

(** [h'] is [h] with one more block [p], whose children are blocks without
    children that [h] does not have either; the blocks of [h] are in [h']
    as they are in [h]. *)
Definition grown_by (h h' : gmap ptr NihAllocCtx) (p : ptr) : Prop :=
  h !! p = None
  /\ exists x,
       h' !! p = Some x
       /\ (p ∉ ctx_children x)
       /\ (forall c, c ∈ ctx_children x ->
             h !! c = None
             /\ exists y, h' !! c = Some y /\ ctx_children y = [])
       /\ (forall q, q <> p -> q ∉ ctx_children x -> h' !! q = h !! q).

Section Tool.

(** ** Parsing: the <property> tag *)

(** [dbus_signature_validate_single] belongs to libdbus: whether a string is
    exactly one complete D-Bus type. *)
Variable dbus_signature_validate_single : string -> bool.

(** [symbol_from_name] (symbol.c is not among the sources): the C symbol a
    D-Bus name is turned into, lower case with underscores. *)
Variable symbol_from_name : string -> string.

Inductive ErrorNumber :=
| ENOMEM
| PROPERTY_MISSING_NAME
| PROPERTY_INVALID_NAME
| PROPERTY_MISSING_TYPE
| PROPERTY_INVALID_TYPE
| PROPERTY_MISSING_ACCESS
| PROPERTY_ILLEGAL_ACCESS
| PROPERTY_DUPLICATE_SYMBOL.

(** A raised [NihError]: its number and what was printed into its message
    besides the fixed text of errors.h. *)
Record NihError := {
  number : ErrorNumber;
  message_args : list string
}.

Inductive ParseStackType :=
| PARSE_IGNORED
| PARSE_NODE
| PARSE_INTERFACE
| PARSE_METHOD
| PARSE_SIGNAL
| PARSE_PROPERTY
| PARSE_ARGUMENT
| PARSE_ANNOTATION.

Definition ParseStackType_eqb (a b : ParseStackType) : bool :=
  match a, b with
  | PARSE_IGNORED, PARSE_IGNORED | PARSE_NODE, PARSE_NODE
  | PARSE_INTERFACE, PARSE_INTERFACE | PARSE_METHOD, PARSE_METHOD
  | PARSE_SIGNAL, PARSE_SIGNAL | PARSE_PROPERTY, PARSE_PROPERTY
  | PARSE_ARGUMENT, PARSE_ARGUMENT | PARSE_ANNOTATION, PARSE_ANNOTATION => true
  | _, _ => false
  end.

(** The members of [Interface] that property.c touches: its name and the
    list of its properties, in order. *)
Record Interface := {
  i_name : string;
  i_properties : list ptr
}.

(** The [data] union of a stack entry. *)
Inductive ParseData :=
| DataNull
| DataInterface (interface : Interface)
| DataProperty (property : ptr)
| DataOther.

Record ParseStack := {
  s_type : ParseStackType;
  s_data : ParseData
}.

(** What the parser callbacks work on: the allocator, the stack of the
    [ParseContext] (top first), the error raised last and the warnings
    logged so far. *)
Record ParseState := {
  mem : world;
  stack : list ParseStack;
  raised : option NihError;
  warnings : list string
}.

Definition parse_stack_top (stack : list ParseStack) : option ParseStack :=
  head stack.

(** [parse_stack_push] (parse.c is not among the sources): allocate an
    entry and place it on top of the stack; [None] is its [NULL]. *)
Definition parse_stack_push (parent : option ptr) (type : ParseStackType)
    (data : ParseData) (st : ParseState) : option ParseStack * ParseState :=
  match nih_alloc parent VOpaque (mem st) with
  | (None, w) =>
      (None, {| mem := w; stack := stack st; raised := raised st;
                warnings := warnings st |})
  | (Some _, w) =>
      let e := {| s_type := type; s_data := data |} in
      (Some e, {| mem := w; stack := e :: stack st; raised := raised st;
                  warnings := warnings st |})
  end.

Definition nih_warn (msg : string) (st : ParseState) : ParseState :=
  {| mem := mem st; stack := stack st; raised := raised st;
     warnings := warnings st ++ [msg] |}.

Definition nih_error_raise (n : ErrorNumber) (args : list string)
    (st : ParseState) : ParseState :=
  {| mem := mem st; stack := stack st;
     raised := Some {| number := n; message_args := args |};
     warnings := warnings st |}.

(** [nih_return_error (-1, n, ...)]. *)
Definition nih_return_error (n : ErrorNumber) (st : ParseState)
  : Z * ParseState :=
  (-1, nih_error_raise n [] st).

(** [nih_return_system_error (-1)] after a refused allocation. *)
Definition nih_return_system_error (st : ParseState) : Z * ParseState :=
  (-1, nih_error_raise ENOMEM [] st).

(** The names, types and access found by the loop over the attribute
    pairs; a later pair overrides an earlier one with the same key. *)
Record PropertyAttrs := {
  a_name : option string;
  a_type : option string;
  a_access_str : option string
}.

Fixpoint scan_attr (attr : list (string * string)) (a : PropertyAttrs)
    (st : ParseState) : PropertyAttrs * ParseState :=
  match attr with
  | [] => (a, st)
  | (key, value) :: rest =>
      if String.eqb key "name" then
        scan_attr rest {| a_name := Some value; a_type := a_type a;
                          a_access_str := a_access_str a |} st
      else if String.eqb key "type" then
        scan_attr rest {| a_name := a_name a; a_type := Some value;
                          a_access_str := a_access_str a |} st
      else if String.eqb key "access" then
        scan_attr rest {| a_name := a_name a; a_type := a_type a;
                          a_access_str := Some value |} st
      else
        scan_attr rest a
          (nih_warn ("Ignored unknown <property> attribute: " +:+ key) st)
  end.

Definition access_of_string (s : string) : option NihDBusAccess :=
  if String.eqb s "read" then Some NIH_DBUS_READ
  else if String.eqb s "write" then Some NIH_DBUS_WRITE
  else if String.eqb s "readwrite" then Some NIH_DBUS_READWRITE
  else None.

Definition with_mem (st : ParseState) (w : world) : ParseState :=
  {| mem := w; stack := stack st; raised := raised st;
     warnings := warnings st |}.

Definition inside_interface (st : ParseState) : bool :=
  match parse_stack_top (stack st) with
  | Some parent => ParseStackType_eqb (s_type parent) PARSE_INTERFACE
  | None => false
  end.

Definition property_start_tag (attr : list (string * string))
    (st : ParseState) : Z * ParseState :=
  (* Properties should only appear inside interfaces. *)
  if negb (inside_interface st) then
    let st := nih_warn "Ignored unexpected <property> tag" st in
    match parse_stack_push None PARSE_IGNORED DataNull st with
    | (None, st) => nih_return_system_error st
    | (Some _, st) => (0, st)
    end
  else
    (* Retrieve the name, type and access from the attributes *)
    let '(a, st) :=
      scan_attr attr {| a_name := None; a_type := None;
                        a_access_str := None |} st in
    (* Check we have a name, type and access and that they are valid *)
    match a_name a with
    | None => nih_return_error PROPERTY_MISSING_NAME st
    | Some name =>
    if negb (property_name_valid name)
    then nih_return_error PROPERTY_INVALID_NAME st else
    match a_type a with
    | None => nih_return_error PROPERTY_MISSING_TYPE st
    | Some type =>
    if negb (dbus_signature_validate_single type)
    then nih_return_error PROPERTY_INVALID_TYPE st else
    match a_access_str a with
    | None => nih_return_error PROPERTY_MISSING_ACCESS st
    | Some access_str =>
    match access_of_string access_str with
    | None => nih_return_error PROPERTY_ILLEGAL_ACCESS st
    | Some access =>
        (* Allocate a Property object and push onto the stack *)
        match property_new None name type access (mem st) with
        | (None, w) => nih_return_system_error (with_mem st w)
        | (Some property, w) =>
            match parse_stack_push None PARSE_PROPERTY
                    (DataProperty property) (with_mem st w) with
            | (None, st) =>
                let st := nih_error_raise ENOMEM [] st in
                (-1, with_mem st (nih_free property (mem st)))
            | (Some _, st) => (0, st)
            end
        end
    end end end end.

(** ** Parsing: the </property> tag *)

Definition the_symbol (h : gmap ptr NihAllocCtx) (p : ptr) : option string :=
  match h !! p with
  | Some {| ctx_data := VProperty m |} =>
      match m_symbol m with
      | Some s => load_string h s
      | None => None
      end
  | _ => None
  end.

Definition the_name (h : gmap ptr NihAllocCtx) (p : ptr) : option string :=
  match h !! p with
  | Some {| ctx_data := VProperty m |} =>
      match m_name m with
      | Some s => load_string h s
      | None => None
      end
  | _ => None
  end.

(** [interface_lookup_property] (interface.c is not among the sources): the
    first property of the interface whose symbol is set and equal to
    [symbol], or [NULL]. *)
Definition interface_lookup_property (h : gmap ptr NihAllocCtx)
    (interface : Interface) (symbol : string) : option ptr :=
  find (fun q =>
          match the_symbol h q with
          | Some s => String.eqb s symbol
          | None => false
          end) (i_properties interface).

Definition set_symbol (s : ptr) (m : PropertyMem) : PropertyMem :=
  {| entry := entry m; m_name := m_name m; m_symbol := Some s;
     m_type := m_type m; m_access := m_access m;
     m_deprecated := m_deprecated m |}.

Definition with_stack (st : ParseState) (s : list ParseStack) : ParseState :=
  {| mem := mem st; stack := s; raised := raised st;
     warnings := warnings st |}.

(** How the first step of [property_end_tag] ends: the property has a
    symbol, the allocation of one was refused, or the property has no
    readable name. *)
Inductive symbol_step :=
| SymbolKept (w : world)
| SymbolNoMemory (w : world)
| SymbolAbort.

(** The first step of [property_end_tag]: "Generate a symbol from the
    name" when the property has none. *)
Definition generate_symbol (property : ptr) (m : PropertyMem) (w : world)
  : symbol_step :=
  match m_symbol m with
  | Some _ => SymbolKept w
  | None =>
      match the_name (heap w) property with
      | Some name =>
          match nih_strdup (Some property) (symbol_from_name name) w with
          | (Some s, w) => SymbolKept (set_property property (set_symbol s) w)
          | (None, w) => SymbolNoMemory w
          end
      | None => SymbolAbort
      end
  end.

(** [property_end_tag].  [None] stands for a failed [nih_assert] or a read
    through a pointer that is not what the source takes it for; the
    function aborts there. *)
Definition property_end_tag (st : ParseState) : option (Z * ParseState) :=
  match parse_stack_top (stack st) with
  | Some {| s_type := PARSE_PROPERTY; s_data := DataProperty property |} =>
      match heap (mem st) !! property with
      | Some {| ctx_data := VProperty m |} =>
          match generate_symbol property m (mem st) with
          | SymbolAbort => None
          | SymbolNoMemory w =>
              (* nih_return_no_memory_error (-1) *)
              Some (-1, nih_error_raise ENOMEM [] (with_mem st w))
          | SymbolKept w =>
              let st := with_mem st w in
              (* nih_list_remove (&entry->entry) *)
              let st := with_stack st (tail (stack st)) in
              match parse_stack_top (stack st) with
              | Some {| s_type := PARSE_INTERFACE;
                        s_data := DataInterface interface |} =>
                  match the_symbol (heap (mem st)) property with
                  | None => None
                  | Some symbol =>
                      (* Make sure there's not a conflict before adding
                         the property *)
                      match interface_lookup_property (heap (mem st))
                              interface symbol with
                      | Some conflict =>
                          match the_name (heap (mem st)) conflict with
                          | Some conflict_name =>
                              Some (-1, nih_error_raise
                                          PROPERTY_DUPLICATE_SYMBOL
                                          [symbol; conflict_name] st)
                          | None => None
                          end
                      | None =>
                          (* nih_list_add (&interface->properties,
                                           &property->entry) *)
                          let interface' :=
                            {| i_name := i_name interface;
                               i_properties :=
                                 i_properties interface ++ [property] |} in
                          let w := with_heap (mem st)
                                     (set_node property Linked
                                        (heap (mem st))) in
                          Some (0,
                                {| mem := w;
                                   stack :=
                                     {| s_type := PARSE_INTERFACE;
                                        s_data := DataInterface interface' |}
                                     :: tail (stack st);
                                   raised := raised st;
                                   warnings := warnings st |})
                      end
                  end
              | _ => None
              end
          end
      | _ => None
      end
  | _ => None
  end.


(** The value of attribute [key] in an attribute list, as the
    specification's "the name attribute": the value of the last pair
    carrying that key. *)
Fixpoint attr_value (key : string) (attr : list (string * string))
  : option string :=
  match attr with
  | [] => None
  | (k, v) :: rest =>
      match attr_value key rest with
      | Some x => Some x
      | None => if String.eqb k key then Some v else None
      end
  end.

Definition known_attr (key : string) : bool :=
  String.eqb key "name" || String.eqb key "type" || String.eqb key "access".

Definition unknown_attr_warnings (attr : list (string * string))
  : list string :=
  map (fun kv => "Ignored unknown <property> attribute: " +:+ fst kv)
    (List.filter (fun kv => negb (known_attr (fst kv))) attr).

(** The attribute errors of the specification: a missing or malformed
    name, type or access. *)
Definition attrs_rejected (attr : list (string * string)) : bool :=
  match attr_value "name" attr with
  | None => true
  | Some name => negb (property_name_valid name)
  end
  || match attr_value "type" attr with
     | None => true
     | Some type => negb (dbus_signature_validate_single type)
     end
  || match attr_value "access" attr with
     | None => true
     | Some a =>
         negb (String.eqb a "read" || String.eqb a "write"
               || String.eqb a "readwrite")
     end.

(** No allocation is refused from this state on. *)
Definition never_refused (w : world) : Prop :=
  forall k, answers w !! k <> Some false.

(** The symbol [property_end_tag] gives a property: the one an annotation
    set, or else the one derived from its D-Bus name. *)
Definition symbol_of (p : Property) : string :=
  match p_symbol p with
  | Some s => s
  | None => symbol_from_name (p_name p)
  end.

(** No two properties in the list of an interface share a symbol. *)
Definition unique_symbols (h : gmap ptr NihAllocCtx) (interface : Interface)
  : Prop :=
  forall i j qi qj s,
    i_properties interface !! i = Some qi ->
    i_properties interface !! j = Some qj ->
    the_symbol h qi = Some s -> the_symbol h qj = Some s -> i = j.

(** [v] with its symbol set to [s]. *)
Definition with_symbol (v : Property) (s : string) : Property :=
  {| p_name := p_name v; p_symbol := Some s; p_type := p_type v;
     p_access := p_access v; p_deprecated := p_deprecated v |}.

(** ** property_annotation *)

(** [nih_unref] (the alloc.c among the sources predates it): [parent]
    gives up its reference to [child].  A block has one parent here, so the
    block leaves the children of [parent] and is freed. *)
Definition remove_child (c : ptr) (x : NihAllocCtx) : NihAllocCtx :=
  {| ctx_parent := ctx_parent x;
     ctx_children := List.filter (fun q => negb (Pos.eqb q c)) (ctx_children x);
     ctx_destructor := ctx_destructor x; ctx_data := ctx_data x |}.

Definition nih_unref (child parent : ptr) (w : world) : world :=
  let w := with_heap w (alter (remove_child child) parent (heap w)) in
  nih_free child w.

Definition set_deprecated (d : bool) (m : PropertyMem) : PropertyMem :=
  {| entry := entry m; m_name := m_name m; m_symbol := m_symbol m;
     m_type := m_type m; m_access := m_access m; m_deprecated := d |}.

Definition clear_symbol (m : PropertyMem) : PropertyMem :=
  {| entry := entry m; m_name := m_name m; m_symbol := None;
     m_type := m_type m; m_access := m_access m;
     m_deprecated := m_deprecated m |}.

(** The errors [property_annotation] raises: the system error of a refused
    allocation, and three of errors.h. *)
Inductive AnnotationError :=
| AnnotationSystemError (n : ErrorNumber)
| PROPERTY_ILLEGAL_DEPRECATED
| PROPERTY_INVALID_SYMBOL
| PROPERTY_UNKNOWN_ANNOTATION.

(** What a call of [property_annotation] comes to: the value returned, the
    memory it leaves, and the error it raised, if any, with what was
    printed into its message. *)
Record AnnotationResult := {
  ar_ret : Z;
  ar_mem : world;
  ar_raised : option (AnnotationError * list string)
}.

Section Annotation.

(** [symbol_valid] (symbol.c is not among the sources): whether a string
    may be used as a C symbol. *)
Variable symbol_valid : string -> bool.

(** [property_annotation].  [None] stands for a read through a pointer
    that is not what the source takes it for.  The [nih_debug] lines log
    and are left out. *)
Definition property_annotation (property : ptr) (name value : string)
    (w : world) : option AnnotationResult :=
  match heap w !! property with
  | Some {| ctx_data := VProperty m |} =>
      if String.eqb name "org.freedesktop.DBus.Deprecated" then
        if String.eqb value "true" then
          Some {| ar_ret := 0;
                  ar_mem := set_property property (set_deprecated true) w;
                  ar_raised := None |}
        else if String.eqb value "false" then
          Some {| ar_ret := 0;
                  ar_mem := set_property property (set_deprecated false) w;
                  ar_raised := None |}
        else
          Some {| ar_ret := -1; ar_mem := w;
                  ar_raised := Some (PROPERTY_ILLEGAL_DEPRECATED, []) |}
      else if String.eqb name "com.netsplit.Nih.Symbol" then
        if symbol_valid value then
          let w := match m_symbol m with
                   | Some s => nih_unref s property w
                   | None => w
                   end in
          match nih_strdup (Some property) value w with
          | (Some s, w) =>
              Some {| ar_ret := 0;
                      ar_mem := set_property property (set_symbol s) w;
                      ar_raised := None |}
          | (None, w) =>
              (* property->symbol holds the NULL that came back *)
              Some {| ar_ret := -1;
                      ar_mem := set_property property clear_symbol w;
                      ar_raised := Some (AnnotationSystemError ENOMEM, []) |}
          end
        else
          Some {| ar_ret := -1; ar_mem := w;
                  ar_raised := Some (PROPERTY_INVALID_SYMBOL, []) |}
      else
        match the_name (heap w) property with
        | Some property_name =>
            Some {| ar_ret := -1; ar_mem := w;
                    ar_raised := Some (PROPERTY_UNKNOWN_ANNOTATION,
                                       [property_name; name]) |}
        | None => None
        end
  | _ => None
  end.

End Annotation.

(** [v] with its deprecated flag set to [d]. *)
Definition with_deprecated (v : Property) (d : bool) : Property :=
  {| p_name := p_name v; p_symbol := p_symbol v; p_type := p_type v;
     p_access := p_access v; p_deprecated := d |}.

(** [v] without a symbol. *)
Definition without_symbol (v : Property) : Property :=
  {| p_name := p_name v; p_symbol := None; p_type := p_type v;
     p_access := p_access v; p_deprecated := p_deprecated v |}.

(** The [Property] the members [m] stand for, strings read through their
    pointers: what [load_property] gives for a block holding [m]. *)
Definition property_of (h : gmap ptr NihAllocCtx) (m : PropertyMem)
  : option Property :=
  match m_name m, m_type m with
  | Some n, Some t =>
      match load_string h n, load_string h t with
      | Some name, Some type =>
          match m_symbol m with
          | None =>
              Some {| p_name := name; p_symbol := None; p_type := type;
                      p_access := m_access m;
                      p_deprecated := m_deprecated m |}
          | Some s =>
              match load_string h s with
              | Some symbol =>
                  Some {| p_name := name; p_symbol := Some symbol;
                          p_type := type; p_access := m_access m;
                          p_deprecated := m_deprecated m |}
              | None => None
              end
          end
      | _, _ => None
      end
  | _, _ => None
  end.

(** The symbol of the property in block [p], when it has one, is a block
    of its own: not the block of the name or of the type, and without
    children. *)
Definition symbol_apart (h : gmap ptr NihAllocCtx) (p : ptr) : Prop :=
  forall x m s,
    h !! p = Some x -> ctx_data x = VProperty m -> m_symbol m = Some s ->
    m_name m <> Some s /\ m_type m <> Some s
    /\ exists y, h !! s = Some y /\ ctx_children y = [].

(** The error [property_annotation] has for an annotation it does not
    accept, [None] when it accepts it. *)
Definition annotation_rejection (symbol_valid : string -> bool)
    (v : Property) (name value : string)
  : option (AnnotationError * list string) :=
  if String.eqb name "org.freedesktop.DBus.Deprecated" then
    if String.eqb value "true" || String.eqb value "false" then None
    else Some (PROPERTY_ILLEGAL_DEPRECATED, [])
  else if String.eqb name "com.netsplit.Nih.Symbol" then
    if symbol_valid value then None else Some (PROPERTY_INVALID_SYMBOL, [])
  else Some (PROPERTY_UNKNOWN_ANNOTATION, [p_name v; name]).

(** ** The emitted C code *)

(** The four generators emit C text.  Here that text is a list of
    statements of the following small language, which covers what
    property.c emits itself and what the marshalling fragments may bring;
    [render] below gives the text. *)

(** The argument types of D-Bus (dbus-protocol.h). *)
Inductive dbus_type :=
| DBUS_TYPE_INVALID
| DBUS_TYPE_BYTE
| DBUS_TYPE_BOOLEAN
| DBUS_TYPE_INT16
| DBUS_TYPE_UINT16
| DBUS_TYPE_INT32
| DBUS_TYPE_UINT32
| DBUS_TYPE_INT64
| DBUS_TYPE_UINT64
| DBUS_TYPE_DOUBLE
| DBUS_TYPE_STRING
| DBUS_TYPE_OBJECT_PATH
| DBUS_TYPE_SIGNATURE
| DBUS_TYPE_UNIX_FD
| DBUS_TYPE_ARRAY
| DBUS_TYPE_VARIANT
| DBUS_TYPE_STRUCT
| DBUS_TYPE_DICT_ENTRY.

(** The value of the constant: the ASCII code of the type's letter. *)
Definition dbus_type_code (t : dbus_type) : Z :=
  match t with
  | DBUS_TYPE_INVALID => 0
  | DBUS_TYPE_BYTE => 121
  | DBUS_TYPE_BOOLEAN => 98
  | DBUS_TYPE_INT16 => 110
  | DBUS_TYPE_UINT16 => 113
  | DBUS_TYPE_INT32 => 105
  | DBUS_TYPE_UINT32 => 117
  | DBUS_TYPE_INT64 => 120
  | DBUS_TYPE_UINT64 => 116
  | DBUS_TYPE_DOUBLE => 100
  | DBUS_TYPE_STRING => 115
  | DBUS_TYPE_OBJECT_PATH => 111
  | DBUS_TYPE_SIGNATURE => 103
  | DBUS_TYPE_UNIX_FD => 104
  | DBUS_TYPE_ARRAY => 97
  | DBUS_TYPE_VARIANT => 118
  | DBUS_TYPE_STRUCT => 114
  | DBUS_TYPE_DICT_ENTRY => 101
  end.

Definition dbus_type_name (t : dbus_type) : string :=
  match t with
  | DBUS_TYPE_INVALID => "DBUS_TYPE_INVALID"
  | DBUS_TYPE_BYTE => "DBUS_TYPE_BYTE"
  | DBUS_TYPE_BOOLEAN => "DBUS_TYPE_BOOLEAN"
  | DBUS_TYPE_INT16 => "DBUS_TYPE_INT16"
  | DBUS_TYPE_UINT16 => "DBUS_TYPE_UINT16"
  | DBUS_TYPE_INT32 => "DBUS_TYPE_INT32"
  | DBUS_TYPE_UINT32 => "DBUS_TYPE_UINT32"
  | DBUS_TYPE_INT64 => "DBUS_TYPE_INT64"
  | DBUS_TYPE_UINT64 => "DBUS_TYPE_UINT64"
  | DBUS_TYPE_DOUBLE => "DBUS_TYPE_DOUBLE"
  | DBUS_TYPE_STRING => "DBUS_TYPE_STRING"
  | DBUS_TYPE_OBJECT_PATH => "DBUS_TYPE_OBJECT_PATH"
  | DBUS_TYPE_SIGNATURE => "DBUS_TYPE_SIGNATURE"
  | DBUS_TYPE_UNIX_FD => "DBUS_TYPE_UNIX_FD"
  | DBUS_TYPE_ARRAY => "DBUS_TYPE_ARRAY"
  | DBUS_TYPE_VARIANT => "DBUS_TYPE_VARIANT"
  | DBUS_TYPE_STRUCT => "DBUS_TYPE_STRUCT"
  | DBUS_TYPE_DICT_ENTRY => "DBUS_TYPE_DICT_ENTRY"
  end.

(** Who is called: a function of libdbus or libnih, or the handler the
    user of the generated code supplies. *)
Inductive callkind := Api | Handler.

(** A call [fn (args)].  With [c_wrap] the last argument stands on a line
    of its own, aligned under the first. *)
Record call := {
  c_kind : callkind;
  c_fn : string;
  c_args : list string;
  c_wrap : bool
}.

Inductive expr :=
| ECall (c : call)
| EVar (x : string)                 (* a variable, or [*value] *)
| ENull                             (* NULL *)
| EStr (s : string)                 (* a string literal *)
| ENot (e : expr)                   (* ! e *)
| ELt0 (e : expr)                   (* e < 0 *)
| ENe (e : expr) (t : dbus_type)    (* e != DBUS_TYPE_... *)
| EOpaque (text : string).          (* any other expression *)

Inductive stmt :=
| SComment (text : string)
| SBlank
| SText (line : string)             (* a declaration *)
| SAssert (x : string)              (* nih_assert (x != NULL); *)
| SExpr (e : expr)
| SAssign (x : string) (e : expr)
| SIf (c : expr) (braces : bool) (th : list stmt) (el : option (list stmt))
| SReturn (z : Z)
| SNihReturn (f : string) (z : Z) (args : list string) (wrap : bool)
                                    (* nih_return_error (z, args); *)
| SGoto (l : string)
| SDoWhile (l : string) (body : list stmt) (c : expr)
                                    (* do { __label__ l; body l: ; } while (c); *)
| SWhile (c : expr) (body : list stmt)
| SFor (init : string) (c : expr) (step : string) (body : list stmt).

Definition api (f : string) (args : list string) : expr :=
  ECall {| c_kind := Api; c_fn := f; c_args := args; c_wrap := false |}.

Definition api_wrapped (f : string) (args : list string) : expr :=
  ECall {| c_kind := Api; c_fn := f; c_args := args; c_wrap := true |}.

Definition handler_call (f : string) (args : list string) : expr :=
  ECall {| c_kind := Handler; c_fn := f; c_args := args; c_wrap := false |}.

(** *** The text of a statement *)

Definition dq : string := String (ascii_of_nat 34) EmptyString.
Definition nl : ascii := ascii_of_nat 10.
Definition tab : ascii := ascii_of_nat 9.

Definition quoted (s : string) : string := dq +:+ s +:+ dq.

Fixpoint spaces (n : nat) : string :=
  match n with
  | O => EmptyString
  | S n' => String " " (spaces n')
  end.

Fixpoint tabs (n : nat) : string :=
  match n with
  | O => EmptyString
  | S n' => String tab (tabs n')
  end.

(** [indent] (indent.c is not among the sources; the expected texts of
    test_property.c fix what it does): every line that is not empty is
    moved [level] tab stops to the right. *)
Fixpoint indent_lines (at_start : bool) (level : nat) (s : string) : string :=
  match s with
  | EmptyString => EmptyString
  | String c rest =>
      if Ascii.eqb c nl then String c (indent_lines true level rest)
      else if at_start
           then tabs level +:+ String c (indent_lines false level rest)
           else String c (indent_lines false level rest)
  end.

Definition indent (s : string) (level : nat) : string :=
  indent_lines true level s.

Definition Z_to_string (z : Z) : string :=
  NilZero.string_of_int (Z.to_int z).

Fixpoint join_args (wrap : bool) (pad : nat) (args : list string) : string :=
  match args with
  | [] => EmptyString
  | [a] => a
  | a :: ((_ :: _ :: _) as rest) => a +:+ ", " +:+ join_args wrap pad rest
  | a :: [b] =>
      if wrap then a +:+ "," +:+ String nl (spaces pad) +:+ b
      else a +:+ ", " +:+ b
  end.

Definition render_call_text (f : string) (args : list string) (wrap : bool)
  : string :=
  f +:+ " (" +:+ join_args wrap (String.length f + 2) args +:+ ")".

Definition render_call (c : call) : string :=
  render_call_text (c_fn c) (c_args c) (c_wrap c).

Fixpoint render_expr (e : expr) : string :=
  match e with
  | ECall c => render_call c
  | EVar x => x
  | ENull => "NULL"
  | EStr s => quoted s
  | ENot e => "! " +:+ render_expr e
  | ELt0 e => render_expr e +:+ " < 0"
  | ENe e t => render_expr e +:+ " != " +:+ dbus_type_name t
  | EOpaque text => text
  end.

Definition line (s : string) : string := s +:+ String nl EmptyString.

Fixpoint render_stmt (s : stmt) : string :=
  let render_block :=
    fix render_block (b : list stmt) : string :=
      match b with
      | [] => EmptyString
      | s' :: b' => render_stmt s' +:+ render_block b'
      end in
  match s with
  | SComment text => line ("/* " +:+ text +:+ " */")
  | SBlank => line EmptyString
  | SText l => line l
  | SAssert x => line ("nih_assert (" +:+ x +:+ " != NULL);")
  | SExpr e => line (render_expr e +:+ ";")
  | SAssign x e => line (x +:+ " = " +:+ render_expr e +:+ ";")
  | SIf c false th None =>
      line ("if (" +:+ render_expr c +:+ ")") +:+ indent (render_block th) 1
  | SIf c true th None =>
      line ("if (" +:+ render_expr c +:+ ") {")
      +:+ indent (render_block th) 1 +:+ line "}"
  | SIf c _ th (Some el) =>
      line ("if (" +:+ render_expr c +:+ ") {")
      +:+ indent (render_block th) 1
      +:+ line "} else {"
      +:+ indent (render_block el) 1 +:+ line "}"
  | SReturn z => line ("return " +:+ Z_to_string z +:+ ";")
  | SNihReturn f z args wrap =>
      line (render_call_text f (Z_to_string z :: args) wrap +:+ ";")
  | SGoto l => line ("goto " +:+ l +:+ ";")
  | SDoWhile l body c =>
      line "do {"
      +:+ indent (line ("__label__ " +:+ l +:+ ";") +:+ line EmptyString
                  +:+ render_block body) 1
      +:+ line (l +:+ ": __attribute__ ((unused));")
      +:+ line ("} while (" +:+ render_expr c +:+ ");")
  | SWhile c body =>
      line ("while (" +:+ render_expr c +:+ ") {")
      +:+ indent (render_block body) 1 +:+ line "}"
  | SFor init c step body =>
      line ("for (" +:+ init +:+ "; " +:+ render_expr c +:+ "; " +:+ step
            +:+ ") {")
      +:+ indent (render_block body) 1 +:+ line "}"
  end.

Fixpoint render (b : list stmt) : string :=
  match b with
  | [] => EmptyString
  | s :: b' => render_stmt s +:+ render b'
  end.

(** *** Running a statement *)

(** What the emitted code does to the outside is the sequence of calls it
    makes, each with the value it got back. *)
Record event := {
  ev_kind : callkind;
  ev_fn : string;
  ev_args : list string;
  ev_result : Z
}.

(** The state of a run: how many answers have been taken from the oracle,
    the variables assigned so far, and the calls made so far. *)
Record state := {
  pos : nat;
  store : gmap string Z;
  log : list event
}.

Definition initial : state := {| pos := 0; store := ∅; log := [] |}.

Definition read (st : state) (x : string) : Z := default 0 (store st !! x).

Definition write (x : string) (v : Z) (st : state) : state :=
  {| pos := pos st; store := <[x := v]> (store st); log := log st |}.

Definition record (e : event) (st : state) : state :=
  {| pos := pos st; store := store st; log := log st ++ [e] |}.

(** An oracle answers the [n]-th question put to it: the value a call
    returns, or the value of an expression the model does not look into. *)
Definition oracle := nat -> Z.

Definition ask (w : oracle) (st : state) : Z * state :=
  (w (pos st), {| pos := S (pos st); store := store st; log := log st |}).

Definition truth (b : bool) : Z := if b then 1 else 0.

Fixpoint eval (w : oracle) (e : expr) (st : state) : Z * state :=
  match e with
  | ECall c =>
      let '(r, st) := ask w st in
      (r, record {| ev_kind := c_kind c; ev_fn := c_fn c;
                    ev_args := c_args c; ev_result := r |} st)
  | EVar x => (read st x, st)
  | ENull => (0, st)
  | EStr _ => (1, st)
  | ENot e => let '(v, st) := eval w e st in (truth (v =? 0), st)
  | ELt0 e => let '(v, st) := eval w e st in (truth (v <? 0), st)
  | ENe e t =>
      let '(v, st) := eval w e st in
      (truth (negb (v =? dbus_type_code t)), st)
  | EOpaque _ => ask w st
  end.

(** How a statement ends: control goes on to the next statement, the
    function returns, a [goto] is under way, or the bound on the number of
    loop iterations was reached. *)
Inductive outcome :=
| Fall
| Ret (z : Z)
| Jump (l : string)
| OutOfFuel.

Section Exec.

Variable w : oracle.
Variable fuel : nat.

Fixpoint exec (s : stmt) (st : state) {struct s} : outcome * state :=
  let block :=
    fix block (b : list stmt) (st : state) {struct b} : outcome * state :=
      match b with
      | [] => (Fall, st)
      | s' :: b' =>
          match exec s' st with
          | (Fall, st') => block b' st'
          | r => r
          end
      end in
  match s with
  | SComment _ | SBlank | SText _ | SAssert _ => (Fall, st)
  | SExpr e => (Fall, snd (eval w e st))
  | SAssign x e => let '(v, st) := eval w e st in (Fall, write x v st)
  | SIf c _ th el =>
      let '(v, st) := eval w c st in
      if v =? 0
      then match el with
           | Some el => block el st
           | None => (Fall, st)
           end
      else block th st
  | SReturn z => (Ret z, st)
  | SNihReturn f z args _ =>
      (Ret z, record {| ev_kind := Api; ev_fn := f;
                        ev_args := Z_to_string z :: args;
                        ev_result := 0 |} st)
  | SGoto l => (Jump l, st)
  | SDoWhile l body c =>
      (fix loop (n : nat) (st : state) : outcome * state :=
         match n with
         | O => (OutOfFuel, st)
         | S n' =>
             let r := block body st in
             let again st :=
               let '(v, st) := eval w c st in
               if v =? 0 then (Fall, st) else loop n' st in
             match r with
             | (Fall, st) => again st
             | (Jump l', st) =>
                 if String.eqb l' l then again st else (Jump l', st)
             | r => r
             end
         end) fuel st
  | SWhile c body | SFor _ c _ body =>
      (fix loop (n : nat) (st : state) : outcome * state :=
         match n with
         | O => (OutOfFuel, st)
         | S n' =>
             let '(v, st) := eval w c st in
             if v =? 0 then (Fall, st)
             else match block body st with
                  | (Fall, st) => loop n' st
                  | r => r
                  end
         end) fuel st
  end.

Fixpoint exec_block (b : list stmt) (st : state) : outcome * state :=
  match b with
  | [] => (Fall, st)
  | s :: b' =>
      match exec s st with
      | (Fall, st') => exec_block b' st'
      | r => r
      end
  end.

End Exec.

(** ** The generators *)

(** [TypeVar] and [TypeFunc] of type.h: a typed variable, and the prototype
    of a function with its arguments and attributes in order. *)
Record TypeVar := {
  tv_type : string;
  tv_name : string
}.

Record TypeFunc := {
  tf_type : string;
  tf_name : string;
  tf_args : list TypeVar;
  tf_attribs : list string
}.

Definition type_var_new (type name : string) : TypeVar :=
  {| tv_type := type; tv_name := name |}.

Definition type_func_new (type name : string) : TypeFunc :=
  {| tf_type := type; tf_name := name; tf_args := []; tf_attribs := [] |}.

(** [nih_list_add (&func->args, &arg->entry)]: append. *)
Definition add_arg (arg : TypeVar) (func : TypeFunc) : TypeFunc :=
  {| tf_type := tf_type func; tf_name := tf_name func;
     tf_args := tf_args func ++ [arg]; tf_attribs := tf_attribs func |}.

(** [nih_list_add (&func->attribs, &attrib->entry)]: append. *)
Definition add_attrib (attrib : string) (func : TypeFunc) : TypeFunc :=
  {| tf_type := tf_type func; tf_name := tf_name func;
     tf_args := tf_args func; tf_attribs := tf_attribs func ++ [attrib] |}.

(** What [marshal] and [demarshal] hand back: the code, and the variables
    they appended to the lists they were given. *)
Record marshalled := {
  ma_block : list stmt;
  ma_inputs : list TypeVar;
  ma_locals : list TypeVar
}.

Record demarshalled := {
  de_block : list stmt;
  de_outputs : list TypeVar;
  de_locals : list TypeVar
}.

(** [marshal] (marshal.c is not among the sources): for a type signature,
    the name of the iterator to append to, the name of the value and the
    code to run when memory runs out, the code that appends the value. *)
Variable marshal : string -> string -> string -> list stmt -> marshalled.

(** [demarshal] (demarshal.c is not among the sources): for a type
    signature, the name of the parent of what is allocated, the name of the
    iterator to read from, the name of the value, the code to run when
    memory runs out and the code to run when the message has another type,
    the code that reads the value. *)
Variable demarshal :
  string -> string -> string -> string -> list stmt -> list stmt ->
  demarshalled.

(** [type_to_pointer], [type_to_const], [type_var_layout] and
    [type_func_to_string] of type.c, which is not among the sources. *)
Variable type_to_pointer : string -> string.
Variable type_to_const : string -> string.
Variable type_var_layout : list TypeVar -> string.
Variable type_func_to_string : TypeFunc -> string.

(** What a generator returns: the code of the function, and the lists of
    prototypes and of handlers it appended to. *)
Record generated := {
  g_code : string;
  g_prototypes : list TypeFunc;
  g_handlers : list TypeFunc
}.

Definition DBUS_INTERFACE_PROPERTIES : string :=
  "org.freedesktop.DBus.Properties".

Fixpoint strchr (s : string) (c : ascii) : bool :=
  match s with
  | EmptyString => false
  | String c' s' => Ascii.eqb c' c || strchr s' c
  end.

Fixpoint skip (n : nat) (s : string) : string :=
  match n, s with
  | O, _ => s
  | S n', String _ s' => skip n' s'
  | S _, EmptyString => EmptyString
  end.

(** The function text around a body: the header, then the variables and
    the statements, indented, between braces. *)
Definition function_text (func : TypeFunc) (locals : list TypeVar)
    (leading : list stmt) (rest : list stmt) : string :=
  type_func_to_string func
  +:+ line "{"
  +:+ indent (type_var_layout locals +:+ line EmptyString
              +:+ render leading +:+ line EmptyString +:+ render rest) 1
  +:+ line "}".

(** *** property_object_get_function *)

(** "In case of out of memory, simply return and let the caller decide
    what to do." *)
Definition object_get_oom_error_code : list stmt :=
  [ SExpr (api "dbus_message_iter_close_container" ["iter"; "&variter"]);
    SReturn (-1) ].

Definition object_get_marshalled (property : Property) : marshalled :=
  marshal (p_type property) "variter" "value" object_get_oom_error_code.

Definition object_get_code_block (property : Property)
    (handler_name : string) : list stmt :=
  let m := object_get_marshalled property in
  [ SComment "Call the handler function";
    SIf (ELt0 (handler_call handler_name
                 (["object->data"; "message"]
                  ++ map (fun var => "&" +:+ tv_name var) (ma_inputs m))))
      false [SReturn (-1)] None;
    SBlank;
    SComment
      "Append a variant onto the message to contain the property value.";
    SIf (ENot (api "dbus_message_iter_open_container"
                 ["iter"; "DBUS_TYPE_VARIANT"; quoted (p_type property);
                  "&variter"]))
      false [SReturn (-1)] None;
    SBlank ]
  ++ ma_block m
  ++ [ SBlank;
       SComment "Finish the variant";
       SIf (ENot (api "dbus_message_iter_close_container"
                    ["iter"; "&variter"]))
         false [SReturn (-1)] None ].

Definition object_asserts : list stmt :=
  [ SAssert "object"; SAssert "message"; SAssert "iter" ].

(** The statements of the generated function, after its variables. *)
Definition object_get_body (property : Property) (handler_name : string)
  : list stmt :=
  object_asserts ++ [SBlank]
  ++ object_get_code_block property handler_name
  ++ [SBlank; SReturn 0].

Definition property_object_get_function (property : Property)
    (name handler_name : string) (prototypes handlers : list TypeFunc)
  : generated :=
  (* The function returns an integer, and accepts an arguments for the
     D-Bus object, message and a message iterator. *)
  let func := type_func_new "int" name in
  let func := add_arg (type_var_new "NihDBusObject *" "object") func in
  let func := add_arg (type_var_new "NihDBusMessage *" "message") func in
  let func := add_arg (type_var_new "DBusMessageIter *" "iter") func in
  (* The function requires a local iterator for the variant. *)
  let locals := [type_var_new "DBusMessageIter" "variter"] in
  let m := object_get_marshalled property in
  let locals := locals ++ ma_locals m in
  let handler_func := type_func_new "int" handler_name in
  let handler_func := add_attrib "warn_unused_result" handler_func in
  let handler_func := add_arg (type_var_new "void *" "data") handler_func in
  let handler_func :=
    add_arg (type_var_new "NihDBusMessage *" "message") handler_func in
  (* Each of the inputs to the marshalling code becomes a local variable
     to our function that we pass the address of to the implementation
     function. *)
  let locals := locals ++ ma_inputs m in
  let handler_func :=
    fold_left (fun f var =>
                 add_arg (type_var_new (type_to_pointer (tv_type var))
                            (tv_name var)) f)
      (ma_inputs m) handler_func in
  {| g_code :=
       function_text func locals object_asserts
         (object_get_code_block property handler_name
          ++ [SBlank; SReturn 0]);
     g_prototypes := prototypes ++ [func];
     g_handlers := handlers ++ [handler_func] |}.

(** *** property_object_set_function *)

Definition invalid_arguments_text (property : Property) : string :=
  "_(" +:+ quoted ("Invalid arguments to " +:+ p_name property
                   +:+ " property") +:+ ")".

(** "In case of out of memory, or type error, return a raised error to the
    caller." *)
Definition object_set_oom_error_code : list stmt :=
  [ SExpr (api "nih_error_raise_no_memory" []);
    SReturn (-1) ].

Definition object_set_type_error_code (property : Property) : list stmt :=
  [ SExpr (api_wrapped "nih_dbus_error_raise_printf"
             ["DBUS_ERROR_INVALID_ARGS"; invalid_arguments_text property]);
    SReturn (-1) ].

Definition object_set_demarshalled (property : Property) : demarshalled :=
  demarshal (p_type property) "message" "variter" "value"
    object_set_oom_error_code (object_set_type_error_code property).

(** "Make sure that the iterator points to a variant, then open the
    variant." *)
Definition object_set_demarshal_block (property : Property) : list stmt :=
  [ SComment "Recurse into the variant";
    SIf (ENe (api "dbus_message_iter_get_arg_type" ["iter"])
           DBUS_TYPE_VARIANT)
      true (object_set_type_error_code property) None;
    SBlank;
    SExpr (api "dbus_message_iter_recurse" ["iter"; "&variter"]);
    SBlank ].

(** "Complete the demarshalling block, checking for any unexpected
    arguments which we also want to error on and begin the handler calling
    block." *)
Definition object_set_call_block (property : Property)
    (handler_name : string) : list stmt :=
  let d := object_set_demarshalled property in
  [ SExpr (api "dbus_message_iter_next" ["iter"]);
    SBlank;
    SIf (ENe (api "dbus_message_iter_get_arg_type" ["iter"])
           DBUS_TYPE_INVALID)
      true (object_set_type_error_code property) None;
    SBlank;
    SComment "Call the handler function";
    SIf (ELt0 (handler_call handler_name
                 (["object->data"; "message"]
                  ++ map tv_name (de_outputs d))))
      false [SReturn (-1)] None ].

Definition object_set_body (property : Property) (handler_name : string)
  : list stmt :=
  object_asserts ++ [SBlank]
  ++ object_set_demarshal_block property
  ++ de_block (object_set_demarshalled property)
  ++ [SBlank]
  ++ object_set_call_block property handler_name
  ++ [SBlank; SReturn 0].

Definition property_object_set_function (property : Property)
    (name handler_name : string) (prototypes handlers : list TypeFunc)
  : generated :=
  (* The function returns an integer, which means success when zero or a
     raised error when non-zero and accepts arguments for the D-Bus
     object, message and a message iterator. *)
  let func := type_func_new "int" name in
  let func := add_arg (type_var_new "NihDBusObject *" "object") func in
  let func := add_arg (type_var_new "NihDBusMessage *" "message") func in
  let func := add_arg (type_var_new "DBusMessageIter *" "iter") func in
  let locals := [type_var_new "DBusMessageIter" "variter"] in
  let d := object_set_demarshalled property in
  let locals := locals ++ de_locals d in
  let handler_func := type_func_new "int" handler_name in
  let handler_func := add_attrib "warn_unused_result" handler_func in
  let handler_func := add_arg (type_var_new "void *" "data") handler_func in
  let handler_func :=
    add_arg (type_var_new "NihDBusMessage *" "message") handler_func in
  (* Each of the outputs from the demarshalling code becomes a local
     variable to our function that we pass to the implementation
     function. *)
  let locals := locals ++ de_outputs d in
  let handler_func :=
    fold_left (fun f var =>
                 add_arg (type_var_new (type_to_const (tv_type var))
                            (tv_name var)) f)
      (de_outputs d) handler_func in
  {| g_code :=
       function_text func locals object_asserts
         (object_set_demarshal_block property ++ de_block d ++ [SBlank]
          ++ object_set_call_block property handler_name
          ++ [SBlank; SReturn 0]);
     g_prototypes := prototypes ++ [func];
     g_handlers := handlers ++ [handler_func] |}.

(** *** The client side: what both proxy functions share *)

(** "Create the method call ..., the property interface gets specified as
    an argument - the method call interface is the D-Bus properties one." *)
Definition proxy_construct_block (method interface_name : string)
    (property : Property) : list stmt :=
  [ SComment "Construct the method call message.";
    SAssign "method_call"
      (api "dbus_message_new_method_call"
         ["proxy->name"; "proxy->path"; quoted DBUS_INTERFACE_PROPERTIES;
          quoted method]);
    SIf (ENot (EVar "method_call")) false
      [SNihReturn "nih_return_no_memory_error" (-1) [] false] None;
    SBlank;
    SExpr (api "dbus_message_iter_init_append" ["method_call"; "&iter"]);
    SBlank;
    SAssign "interface" (EStr interface_name);
    SIf (ENot (api "dbus_message_iter_append_basic"
                 ["&iter"; "DBUS_TYPE_STRING"; "&interface"]))
      false [SNihReturn "nih_return_no_memory_error" (-1) [] false] None;
    SBlank;
    SAssign "property" (EStr (p_name property));
    SIf (ENot (api "dbus_message_iter_append_basic"
                 ["&iter"; "DBUS_TYPE_STRING"; "&property"]))
      false [SNihReturn "nih_return_no_memory_error" (-1) [] false] None;
    SBlank ].

(** What is run when no reply came back. *)
Definition proxy_reply_error_code : list stmt :=
  [ SExpr (api "dbus_message_unref" ["method_call"]);
    SBlank;
    SIf (api "dbus_error_has_name" ["&error"; "DBUS_ERROR_NO_MEMORY"])
      true
      [SExpr (api "nih_error_raise_no_memory" [])]
      (Some [SExpr (api "nih_dbus_error_raise"
                      ["error.name"; "error.message"])]);
    SBlank;
    SExpr (api "dbus_error_free" ["&error"]);
    SReturn (-1) ].

(** "Complete the marshalling block by sending the message and checking for
    error replies." *)
Definition proxy_send_block : list stmt :=
  [ SComment "Send the message, and wait for the reply.";
    SExpr (api "dbus_error_init" ["&error"]);
    SBlank;
    SAssign "reply"
      (api "dbus_connection_send_with_reply_and_block"
         ["proxy->conn"; "method_call"; "-1"; "&error"]);
    SIf (ENot (EVar "reply")) true proxy_reply_error_code None;
    SBlank ].

(** What is run when the reply does not have the expected arguments. *)
Definition proxy_type_error_code : list stmt :=
  [ SExpr (api "dbus_message_unref" ["reply"]);
    SNihReturn "nih_return_error" (-1)
      ["NIH_DBUS_INVALID_ARGS"; "_(NIH_DBUS_INVALID_ARGS_STR)"] true ].

Definition proxy_locals : list TypeVar :=
  [ type_var_new "DBusMessage *" "method_call";
    type_var_new "DBusMessageIter" "iter";
    type_var_new "DBusMessageIter" "variter";
    type_var_new "DBusError" "error";
    type_var_new "DBusMessage *" "reply";
    type_var_new "const char *" "interface";
    type_var_new "const char *" "property" ].

(** The function "returns an integer ..., so we want warning if the result
    isn't used.  Since this is used by the client, we also add a deprecated
    attribute if the property is deprecated." *)
Definition proxy_func (property : Property) (name : string) : TypeFunc :=
  let func := type_func_new "int" name in
  let func := add_attrib "warn_unused_result" func in
  if p_deprecated property then add_attrib "deprecated" func else func.

(** *** property_proxy_get_sync_function *)

Definition proxy_get_call_block (interface_name : string)
    (property : Property) : list stmt :=
  proxy_construct_block "Get" interface_name property ++ proxy_send_block.

(** "In case of out of memory, we can't just return because we've already
    made the method call so we loop over the code instead." *)
Definition proxy_get_oom_error_code : list stmt :=
  [ SAssign "*value" ENull;
    SGoto "enomem" ].

Definition proxy_get_demarshalled (property : Property) : demarshalled :=
  demarshal (p_type property) "parent" "variter" "local"
    proxy_get_oom_error_code proxy_type_error_code.

(** The name of the argument an output is stored through: [value] in place
    of the leading [local] of the output's name. *)
Definition proxy_get_arg_name (var : TypeVar) : string :=
  "value" +:+ skip 5 (tv_name var).

(** The body of the loop: the demarshalling code, then "Copy from local
    variable to output". *)
Definition proxy_get_block (property : Property) : list stmt :=
  let d := proxy_get_demarshalled property in
  de_block d ++ [SBlank]
  ++ map (fun var => SAssign ("*" +:+ proxy_get_arg_name var)
                       (EVar (tv_name var)))
       (de_outputs d).

(** "Loop over the demarshalling code for out-of-memory situations". *)
Definition proxy_get_loop (property : Property) : stmt :=
  SDoWhile "enomem" (proxy_get_block property) (ENot (EVar "*value")).

(** "Begin the demarshalling block, making sure the first argument is a
    variant and recursing into it and also making sure that there are no
    subsequent arguments before we allocate the return value." *)
Definition proxy_get_demarshal_block (property : Property) : list stmt :=
  [ SExpr (api "dbus_message_unref" ["method_call"]);
    SBlank;
    SComment "Iterate the method arguments, recursing into the variant";
    SExpr (api "dbus_message_iter_init" ["reply"; "&iter"]);
    SBlank;
    SIf (ENe (api "dbus_message_iter_get_arg_type" ["&iter"])
           DBUS_TYPE_VARIANT)
      true proxy_type_error_code None;
    SBlank;
    SExpr (api "dbus_message_iter_recurse" ["&iter"; "&variter"]);
    SBlank;
    SExpr (api "dbus_message_iter_next" ["&iter"]);
    SBlank;
    SIf (ENe (api "dbus_message_iter_get_arg_type" ["&iter"])
           DBUS_TYPE_INVALID)
      true proxy_type_error_code None;
    SBlank;
    proxy_get_loop property;
    SBlank;
    SExpr (api "dbus_message_unref" ["reply"]) ].

Definition proxy_get_assert_block (property : Property) : list stmt :=
  SAssert "proxy"
  :: map (fun var => SAssert (proxy_get_arg_name var))
       (de_outputs (proxy_get_demarshalled property)).

Definition proxy_get_body (interface_name : string) (property : Property)
  : list stmt :=
  proxy_get_assert_block property ++ [SBlank]
  ++ proxy_get_call_block interface_name property
  ++ proxy_get_demarshal_block property
  ++ [SBlank; SReturn 0].

Definition property_proxy_get_sync_function (interface_name : string)
    (property : Property) (name : string) (prototypes : list TypeFunc)
  : generated :=
  let func := proxy_func property name in
  let func := add_arg (type_var_new "const void *" "parent") func in
  let func := add_arg (type_var_new "NihDBusProxy *" "proxy") func in
  let d := proxy_get_demarshalled property in
  let locals := proxy_locals ++ de_locals d in
  (* Each of the outputs from the demarshalling code becomes a local
     variable to our function that we store the value in, and an argument
     to the function that we set when done. *)
  let func :=
    fold_left (fun f var =>
                 add_arg (type_var_new (type_to_pointer (tv_type var))
                            (proxy_get_arg_name var)) f)
      (de_outputs d) func in
  let locals := locals ++ de_outputs d in
  {| g_code :=
       function_text func locals (proxy_get_assert_block property)
         (proxy_get_call_block interface_name property
          ++ proxy_get_demarshal_block property
          ++ [SBlank; SReturn 0]);
     g_prototypes := prototypes ++ [func];
     g_handlers := [] |}.

(** *** property_proxy_set_sync_function *)

(** "In case of out of memory, we just return the error to the caller
    since we haven't made the method call yet." *)
Definition proxy_set_oom_error_code : list stmt :=
  [ SExpr (api "dbus_message_iter_close_container" ["&iter"; "&variter"]);
    SExpr (api "dbus_message_unref" ["method_call"]);
    SNihReturn "nih_return_no_memory_error" (-1) [] false ].

Definition proxy_set_marshalled (property : Property) : marshalled :=
  marshal (p_type property) "variter" "value" proxy_set_oom_error_code.

(** "Append a variant which is where we put the new value", the
    marshalling code, and "Complete the marshalling block by closing the
    container." *)
Definition proxy_set_marshal_block (interface_name : string)
    (property : Property) : list stmt :=
  proxy_construct_block "Set" interface_name property
  ++ [ SIf (ENot (api "dbus_message_iter_open_container"
                    ["&iter"; "DBUS_TYPE_VARIANT"; quoted (p_type property);
                     "&variter"]))
         false [SNihReturn "nih_return_no_memory_error" (-1) [] false] None;
       SBlank ]
  ++ ma_block (proxy_set_marshalled property)
  ++ [ SBlank;
       SIf (ENot (api "dbus_message_iter_close_container"
                    ["&iter"; "&variter"]))
         true
         [ SExpr (api "dbus_message_unref" ["method_call"]);
           SNihReturn "nih_return_no_memory_error" (-1) [] false ]
         None;
       SBlank ].

(** "Send the message and check for error replies, or arguments in the
    reply (which is an error)." *)
Definition proxy_set_call_block : list stmt :=
  proxy_send_block
  ++ [ SComment "Check the reply has no arguments";
       SExpr (api "dbus_message_unref" ["method_call"]);
       SExpr (api "dbus_message_iter_init" ["reply"; "&iter"]);
       SBlank;
       SIf (ENe (api "dbus_message_iter_get_arg_type" ["&iter"])
              DBUS_TYPE_INVALID)
         true proxy_type_error_code None;
       SBlank;
       SExpr (api "dbus_message_unref" ["reply"]) ].

(** The inputs of the marshalling code, made [const]. *)
Definition proxy_set_inputs (property : Property) : list TypeVar :=
  map (fun var => type_var_new (type_to_const (tv_type var)) (tv_name var))
    (ma_inputs (proxy_set_marshalled property)).

Definition proxy_set_assert_block (property : Property) : list stmt :=
  SAssert "proxy"
  :: map (fun var => SAssert (tv_name var))
       (List.filter (fun var => strchr (tv_type var) "*")
          (proxy_set_inputs property)).

Definition proxy_set_body (interface_name : string) (property : Property)
  : list stmt :=
  proxy_set_assert_block property ++ [SBlank]
  ++ proxy_set_marshal_block interface_name property
  ++ proxy_set_call_block
  ++ [SBlank; SReturn 0].

Definition property_proxy_set_sync_function (interface_name : string)
    (property : Property) (name : string) (prototypes : list TypeFunc)
  : generated :=
  let func := proxy_func property name in
  let func := add_arg (type_var_new "NihDBusProxy *" "proxy") func in
  let m := proxy_set_marshalled property in
  let locals := proxy_locals ++ ma_locals m in
  (* Each of the inputs of the marshalling code becomes a const argument
     to our function that we obtain the value from. *)
  let func :=
    fold_left (fun f var => add_arg var f) (proxy_set_inputs property)
      func in
  {| g_code :=
       function_text func locals (proxy_set_assert_block property)
         (proxy_set_marshal_block interface_name property
          ++ proxy_set_call_block
          ++ [SBlank; SReturn 0]);
     g_prototypes := prototypes ++ [func];
     g_handlers := [] |}.

(** ** Containers along a run *)

(** The container a call opens or closes: the iterator it is opened on and
    the iterator that stands for it. *)
Definition opens (e : event) : option (string * string) :=
  match ev_kind e with
  | Api =>
      if String.eqb (ev_fn e) "dbus_message_iter_open_container" then
        match ev_args e with
        | [parent; _; _; sub] => Some (parent, sub)
        | _ => None
        end
      else None
  | Handler => None
  end.

Definition closes (e : event) : option (string * string) :=
  match ev_kind e with
  | Api =>
      if String.eqb (ev_fn e) "dbus_message_iter_close_container" then
        match ev_args e with
        | [parent; sub] => Some (parent, sub)
        | _ => None
        end
      else None
  | Handler => None
  end.

Definition same_container (a b : string * string) : bool :=
  String.eqb (fst a) (fst b) && String.eqb (snd a) (snd b).

(** Follow a run with the stack of the containers that are open.  An open
    call that returns FALSE opens nothing; a close call must be for the
    container opened last and not yet closed. *)
Fixpoint track (open : list (string * string)) (tr : list event)
  : option (list (string * string)) :=
  match tr with
  | [] => Some open
  | e :: tr' =>
      match opens e with
      | Some c =>
          if ev_result e =? 0 then track open tr' else track (c :: open) tr'
      | None =>
          match closes e with
          | Some c =>
              match open with
              | top :: rest =>
                  if same_container top c then track rest tr' else None
              | [] => None
              end
          | None => track open tr'
          end
      end
  end.

(** A stretch of a run that leaves the open containers as it found them. *)
Definition balanced (tr : list event) : Prop :=
  forall open, track open tr = Some open.

Definition opens_container (c : string * string) (e : event) : bool :=
  match opens e with
  | Some c' => same_container c' c
  | None => false
  end.

Definition closes_container (c : string * string) (e : event) : bool :=
  match closes e with
  | Some c' => same_container c' c
  | None => false
  end.

(** The number of calls, whatever they returned, that open container [c];
    the number of those that did open it; and the number of calls that
    close it. *)
Definition open_calls (c : string * string) (tr : list event) : nat :=
  List.length (List.filter (opens_container c) tr).

Definition opened (c : string * string) (tr : list event) : nat :=
  List.length
    (List.filter (fun e => opens_container c e && negb (ev_result e =? 0))
       tr).

Definition close_calls (c : string * string) (tr : list event) : nat :=
  List.length (List.filter (closes_container c) tr).

(** How often container [c] is on the stack of open containers. *)
Definition held (c : string * string) (open : list (string * string)) : nat :=
  List.length (List.filter (fun c' => same_container c' c) open).

(** The calls a marshalling fragment makes on its own: calls of library
    functions only, leaving no container open. *)
Definition fragment_trace (tr : list event) : Prop :=
  Forall (fun e => ev_kind e = Api) tr /\ balanced tr.

(** Error code that never runs to its end: it returns or jumps away. *)
Definition leaves (code : list stmt) : Prop :=
  forall w fuel st, fst (exec_block w fuel code st) <> Fall.

(** The contract of [marshal] (specification, 4.3): given out-of-memory
    code that returns or jumps away, the code runs to its end, or gives up
    by running the out-of-memory code; either way the calls made up to
    there leave no container open.  (The third case is that of a run cut
    short by the bound on loop iterations.) *)
Definition marshal_contract
    (marshal : string -> string -> string -> list stmt -> marshalled)
  : Prop :=
  forall signature iter_name name oom_error_code w fuel st,
  leaves oom_error_code ->
  exists tr st1,
    log st1 = log st ++ tr /\ fragment_trace tr
    /\ let r := exec_block w fuel
                  (ma_block (marshal signature iter_name name oom_error_code))
                  st in
       (r = (Fall, st1)
        \/ r = exec_block w fuel oom_error_code st1
        \/ fst r = OutOfFuel).

(** The contract of [demarshal] (specification, 4.4): given out-of-memory
    code and type-error code that return or jump away, the code runs to its
    end, or gives up by running one of the two; it calls library functions
    only and leaves no container open. *)
Definition demarshal_contract
    (demarshal : string -> string -> string -> string -> list stmt ->
                 list stmt -> demarshalled)
  : Prop :=
  forall signature parent_name iter_name name oom_error_code type_error_code
         w fuel st,
  leaves oom_error_code -> leaves type_error_code ->
  exists tr st1,
    log st1 = log st ++ tr /\ fragment_trace tr
    /\ let r := exec_block w fuel
                  (de_block (demarshal signature parent_name iter_name name
                               oom_error_code type_error_code))
                  st in
       (r = (Fall, st1)
        \/ r = exec_block w fuel oom_error_code st1
        \/ r = exec_block w fuel type_error_code st1
        \/ fst r = OutOfFuel).

(** The loop of a [do { ... l: ; } while (c)] statement, with [n] turns
    left. *)
Fixpoint do_while (w : oracle) (fuel : nat) (l : string) (body : list stmt)
    (c : expr) (n : nat) (st : state) : outcome * state :=
  match n with
  | O => (OutOfFuel, st)
  | S n' =>
      let again st :=
        let '(v, st) := eval w c st in
        if v =? 0 then (Fall, st) else do_while w fuel l body c n' st in
      match exec_block w fuel body st with
      | (Fall, st) => again st
      | (Jump l', st) =>
          if String.eqb l' l then again st else (Jump l', st)
      | r => r
      end
  end.

(** ** What the claims speak of *)

(** The claim about containers as it is worded, on calls: along every run
    of [body] that returns, each container has as many open calls as close
    calls. *)
Definition every_open_call_closed (body : list stmt) : Prop :=
  forall w fuel z st',
    exec_block w fuel body initial = (Ret z, st') ->
    forall c, open_calls c (log st') = close_calls c (log st').

(** A call of a library function, and a call of the handler. *)
Definition called (f : string) (args : list string) (r : Z) : event :=
  {| ev_kind := Api; ev_fn := f; ev_args := args; ev_result := r |}.

Definition handler_called (f : string) (args : list string) (r : Z) : event :=
  {| ev_kind := Handler; ev_fn := f; ev_args := args; ev_result := r |}.

(** The handler is not among these calls. *)
Definition no_handler (tr : list event) : Prop :=
  Forall (fun e => ev_kind e = Api) tr.

(** The state a run is in after [n] more answers and the calls [tr]. *)
Definition after (st : state) (n : nat) (tr : list event) : state :=
  {| pos := (n + pos st)%nat; store := store st; log := log st ++ tr |}.

(** The run [r], started in [st], ended by raising the D-Bus error
    "invalid arguments" with the text that names the property, and
    returning -1, without a call of the handler. *)
Definition fails_with_invalid_args (property : Property) (st : state)
    (r : outcome * state) : Prop :=
  fst r = Ret (-1)
  /\ exists tr x,
       log (snd r)
       = log st ++ tr
         ++ [called "nih_dbus_error_raise_printf"
               ["DBUS_ERROR_INVALID_ARGS"; invalid_arguments_text property]
               x]
       /\ no_handler tr.

(** The state of the setter once it has seen that its argument is a
    variant and has recursed into it. *)
Definition object_set_recursed (w : oracle) (st : state) : state :=
  after st 2
    [ called "dbus_message_iter_get_arg_type" ["iter"] (w (pos st));
      called "dbus_message_iter_recurse" ["iter"; "&variter"]
        (w (S (pos st))) ].

(** The run [r], started in [st], ended with the one call of the handler,
    on the outputs of the demarshalling code, and returned -1 if the
    handler returned a negative value, 0 otherwise. *)
Definition calls_handler (property : Property) (handler_name : string)
    (st : state) (r : outcome * state) : Prop :=
  exists tr x,
    log (snd r)
    = log st ++ tr
      ++ [handler_called handler_name
            (["object->data"; "message"]
             ++ map tv_name (de_outputs (object_set_demarshalled property)))
            x]
    /\ no_handler tr
    /\ fst r = Ret (if x <? 0 then -1 else 0).

(** What [nih_return_error (-1, NIH_DBUS_INVALID_ARGS, ...)] is logged
    as. *)
Definition returned_invalid_args : event :=
  called "nih_return_error"
    [Z_to_string (-1); "NIH_DBUS_INVALID_ARGS"; "_(NIH_DBUS_INVALID_ARGS_STR)"]
    0.

(** The run [r] of a client function, started in [st], ended by releasing
    the reply, raising the error of the invalid-arguments domain and
    returning -1; no variable was assigned. *)
Definition rejects_reply (st : state) (r : outcome * state) : Prop :=
  fst r = Ret (-1)
  /\ store (snd r) = store st
  /\ exists tr x,
       log (snd r)
       = log st ++ tr
         ++ [called "dbus_message_unref" ["reply"] x; returned_invalid_args].

(** What a client function does before it sends the method call, and after
    a reply has come back. *)
Definition proxy_get_before_send (interface_name : string)
    (property : Property) : list stmt :=
  proxy_get_assert_block property ++ [SBlank]
  ++ proxy_construct_block "Get" interface_name property.

Definition proxy_get_after_send (property : Property) : list stmt :=
  proxy_get_demarshal_block property ++ [SBlank; SReturn 0].

Definition proxy_set_before_send (interface_name : string)
    (property : Property) : list stmt :=
  proxy_set_assert_block property ++ [SBlank]
  ++ proxy_set_marshal_block interface_name property.

Definition proxy_set_after_send : list stmt :=
  skipn (List.length proxy_send_block) proxy_set_call_block
  ++ [SBlank; SReturn 0].

(** The calls of a client function from the send on when no reply came
    back, the send being the second call made from [st]: the method call
    is released, the error is asked whether its name is that of the
    no-memory error and raised accordingly, and then it is freed. *)
Definition reply_error_calls (w : oracle) (st : state) : list event :=
  let p := pos st in
  [ called "dbus_error_init" ["&error"] (w p);
    called "dbus_connection_send_with_reply_and_block"
      ["proxy->conn"; "method_call"; "-1"; "&error"] (w (1 + p)%nat);
    called "dbus_message_unref" ["method_call"] (w (2 + p)%nat);
    called "dbus_error_has_name" ["&error"; "DBUS_ERROR_NO_MEMORY"]
      (w (3 + p)%nat);
    (if w (3 + p)%nat =? 0
     then called "nih_dbus_error_raise" ["error.name"; "error.message"]
            (w (4 + p)%nat)
     else called "nih_error_raise_no_memory" [] (w (4 + p)%nat));
    called "dbus_error_free" ["&error"] (w (5 + p)%nat) ].

(** The end of a client function that got no reply: it returns -1. *)
Definition reply_error (w : oracle) (st : state) : outcome * state :=
  (Ret (-1),
   write "reply" 0 (after st 6 (reply_error_calls w st))).

(** A prototype carries an attribute. *)
Definition carries (attrib : string) (func : TypeFunc) : Prop :=
  In attrib (tf_attribs func).

(** The calls of the getter of a proxy from the reply to the loop, when the
    reply has the shape expected. *)
Definition proxy_get_reply_calls (w : oracle) (st : state) : list event :=
  let p := pos st in
  [ called "dbus_message_unref" ["method_call"] (w p);
    called "dbus_message_iter_init" ["reply"; "&iter"] (w (1 + p)%nat);
    called "dbus_message_iter_get_arg_type" ["&iter"] (w (2 + p)%nat);
    called "dbus_message_iter_recurse" ["&iter"; "&variter"] (w (3 + p)%nat);
    called "dbus_message_iter_next" ["&iter"] (w (4 + p)%nat);
    called "dbus_message_iter_get_arg_type" ["&iter"] (w (5 + p)%nat) ].

(** The copies from the local variables to the outputs, as assignments to
    the store. *)
Definition store_outputs (outputs : list TypeVar) (st : state) : state :=
  fold_left
    (fun st var =>
       write ("*" +:+ proxy_get_arg_name var) (read st (tv_name var)) st)
    outputs st.

(** The end of a client function that found a reply of the wrong type,
    [st] being the state in which that was found. *)
Definition reply_rejected (w : oracle) (st : state) : outcome * state :=
  (Ret (-1),
   after st 1
     [called "dbus_message_unref" ["reply"] (w (pos st));
      returned_invalid_args]).

(** The call of the handler the getter of an object makes, and its call to
    open the variant. *)
Definition object_get_handled (property : Property) (handler_name : string)
    (x : Z) : event :=
  handler_called handler_name
    (["object->data"; "message"]
     ++ map (fun var => "&" +:+ tv_name var)
          (ma_inputs (object_get_marshalled property)))
    x.

Definition object_get_opened (property : Property) (x : Z) : event :=
  called "dbus_message_iter_open_container"
    ["iter"; "DBUS_TYPE_VARIANT"; quoted (p_type property); "&variter"] x.

(** The calls of the setter of a proxy once a reply has come back, [a]
    being the type of the first argument of the reply. *)
Definition proxy_set_reply_calls (w : oracle) (st : state) : list event :=
  let p := pos st in
  [ called "dbus_message_unref" ["method_call"] (w p);
    called "dbus_message_iter_init" ["reply"; "&iter"] (w (1 + p)%nat);
    called "dbus_message_iter_get_arg_type" ["&iter"] (w (2 + p)%nat);
    called "dbus_message_unref" ["reply"] (w (3 + p)%nat) ].

(** The calls by which a client function builds its method call, and what
    is logged when an allocation is refused. *)
Definition proxy_construct_calls (method : string) (w : oracle) (st : state)
  : list event :=
  let p := pos st in
  [ called "dbus_message_new_method_call"
      ["proxy->name"; "proxy->path"; quoted DBUS_INTERFACE_PROPERTIES;
       quoted method] (w p);
    called "dbus_message_iter_init_append" ["method_call"; "&iter"]
      (w (1 + p)%nat);
    called "dbus_message_iter_append_basic"
      ["&iter"; "DBUS_TYPE_STRING"; "&interface"] (w (2 + p)%nat);
    called "dbus_message_iter_append_basic"
      ["&iter"; "DBUS_TYPE_STRING"; "&property"] (w (3 + p)%nat) ].

Definition returned_no_memory : event :=
  called "nih_return_no_memory_error" [Z_to_string (-1)] 0.

(** The state of a client function that has made the first [n] calls of
    its method call and assigned the variables [vars] on the way. *)
Definition constructing (method : string) (w : oracle) (st : state)
    (n : nat) (vars : list (string * Z)) (last : list event) : state :=
  {| pos := (n + pos st)%nat;
     store := fold_left (fun s kv => <[fst kv := snd kv]> s) vars (store st);
     log := log st ++ firstn n (proxy_construct_calls method w st) ++ last |}.

(** ** The inputs of the examples *)

(** The oracle that gives the answers [l] in order, and 1 ever after. *)
Definition answering (l : list Z) : oracle := fun n => nth n l 1.

(** The interface the tests generate code for. *)
Definition test_interface : string := "com.netsplit.Nih.Test".

(** Instances, for the examples, of the three functions taken as given:
    the strings accepted as symbols are those accepted as member names,
    the symbol derived from a name is the name, and the one signature of a
    single complete type is that of a string. *)
Definition plain_symbol (s : string) : bool := property_name_valid s.
Definition symbol_as_name (name : string) : string := name.

(** The property the tests of [property_annotation] make, in the block it
    is given when nothing else is allocated, and the same property once
    annotated with a symbol. *)
Definition test_property : ptr := 1%positive.

Definition test_world : world :=
  snd (property_new None "TestProperty" "s" NIH_DBUS_READ empty_world).

Definition test_world_with_symbol : world :=
  match property_annotation plain_symbol test_property
          "com.netsplit.Nih.Symbol" "test_arg" test_world with
  | Some r => ar_mem r
  | None => test_world
  end.

(** *** The marshalling code of a string *)

(** The code test_property.c expects [marshal] and [demarshal] to produce
    for a property of type "s".  They serve as the instance at which the
    statements about every marshalling fragment are tried. *)
Definition marshal_string (signature iter_name name : string)
    (oom_error_code : list stmt) : marshalled :=
  {| ma_block :=
       [ SComment "Marshal a char * onto the message";
         SIf (ENot (api "dbus_message_iter_append_basic"
                      ["&" +:+ iter_name; "DBUS_TYPE_STRING"; "&" +:+ name]))
           true oom_error_code None ];
     ma_inputs := [type_var_new "char *" name];
     ma_locals := [] |}.

Definition demarshal_string (signature parent_name iter_name name : string)
    (oom_error_code type_error_code : list stmt) : demarshalled :=
  {| de_block :=
       [ SComment "Demarshal a char * from the message";
         SIf (ENe (api "dbus_message_iter_get_arg_type" ["&" +:+ iter_name])
                DBUS_TYPE_STRING)
           true type_error_code None;
         SBlank;
         SExpr (api "dbus_message_iter_get_basic"
                  ["&" +:+ iter_name; "&" +:+ name +:+ "_dbus"]);
         SBlank;
         SAssign name (api "nih_strdup" [parent_name; name +:+ "_dbus"]);
         SIf (ENot (EVar name)) true oom_error_code None;
         SBlank;
         SExpr (api "dbus_message_iter_next" ["&" +:+ iter_name]) ];
     de_outputs := [type_var_new "char *" name];
     de_locals := [type_var_new "const char *" (name +:+ "_dbus")] |}.

(** What [type_to_const] and [type_to_pointer] make of [char *]. *)
Definition const_of_pointer (type : string) : string := "const " +:+ type.
Definition pointer_to_pointer (type : string) : string := type +:+ "*".

(** The text of a list of lines. *)
Fixpoint unlines (l : list string) : string :=
  match l with
  | [] => EmptyString
  | a :: l' => line a +:+ unlines l'
  end.

(** The property the tests generate code for. *)
Definition my_property : Property :=
  {| p_name := "my_property"; p_symbol := Some "my_property"; p_type := "s";
     p_access := NIH_DBUS_READWRITE; p_deprecated := false |}.

Definition my_deprecated_property : Property :=
  {| p_name := "my_property"; p_symbol := Some "my_property"; p_type := "s";
     p_access := NIH_DBUS_READWRITE; p_deprecated := true |}.

(** The bodies test_property.c expects for that property, from the first
    assertion to the final return, one tab stop to the left. *)
Definition expected_object_get_body : string :=
  unlines
    [ "nih_assert (object != NULL);";
      "nih_assert (message != NULL);";
      "nih_assert (iter != NULL);";
      EmptyString;
      "/* Call the handler function */";
      "if (my_property_get (object->data, message, &value) < 0)";
      "	return -1;";
      EmptyString;
      "/* Append a variant onto the message to contain the property value. */";
      "if (! dbus_message_iter_open_container (iter, DBUS_TYPE_VARIANT, " +:+ dq +:+ "s" +:+ dq +:+ ", &variter))";
      "	return -1;";
      EmptyString;
      "/* Marshal a char * onto the message */";
      "if (! dbus_message_iter_append_basic (&variter, DBUS_TYPE_STRING, &value)) {";
      "	dbus_message_iter_close_container (iter, &variter);";
      "	return -1;";
      "}";
      EmptyString;
      "/* Finish the variant */";
      "if (! dbus_message_iter_close_container (iter, &variter))";
      "	return -1;";
      EmptyString;
      "return 0;" ].

Definition expected_object_set_body : string :=
  unlines
    [ "nih_assert (object != NULL);";
      "nih_assert (message != NULL);";
      "nih_assert (iter != NULL);";
      EmptyString;
      "/* Recurse into the variant */";
      "if (dbus_message_iter_get_arg_type (iter) != DBUS_TYPE_VARIANT) {";
      "	nih_dbus_error_raise_printf (DBUS_ERROR_INVALID_ARGS,";
      "	                             _(" +:+ dq +:+ "Invalid arguments to my_property property" +:+ dq +:+ "));";
      "	return -1;";
      "}";
      EmptyString;
      "dbus_message_iter_recurse (iter, &variter);";
      EmptyString;
      "/* Demarshal a char * from the message */";
      "if (dbus_message_iter_get_arg_type (&variter) != DBUS_TYPE_STRING) {";
      "	nih_dbus_error_raise_printf (DBUS_ERROR_INVALID_ARGS,";
      "	                             _(" +:+ dq +:+ "Invalid arguments to my_property property" +:+ dq +:+ "));";
      "	return -1;";
      "}";
      EmptyString;
      "dbus_message_iter_get_basic (&variter, &value_dbus);";
      EmptyString;
      "value = nih_strdup (message, value_dbus);";
      "if (! value) {";
      "	nih_error_raise_no_memory ();";
      "	return -1;";
      "}";
      EmptyString;
      "dbus_message_iter_next (&variter);";
      EmptyString;
      "dbus_message_iter_next (iter);";
      EmptyString;
      "if (dbus_message_iter_get_arg_type (iter) != DBUS_TYPE_INVALID) {";
      "	nih_dbus_error_raise_printf (DBUS_ERROR_INVALID_ARGS,";
      "	                             _(" +:+ dq +:+ "Invalid arguments to my_property property" +:+ dq +:+ "));";
      "	return -1;";
      "}";
      EmptyString;
      "/* Call the handler function */";
      "if (my_property_set (object->data, message, value) < 0)";
      "	return -1;";
      EmptyString;
      "return 0;" ].

Definition expected_proxy_get_body : string :=
  unlines
    [ "nih_assert (proxy != NULL);";
      "nih_assert (value != NULL);";
      EmptyString;
      "/* Construct the method call message. */";
      "method_call = dbus_message_new_method_call (proxy->name, proxy->path, " +:+ dq +:+ "org.freedesktop.DBus.Properties" +:+ dq +:+ ", " +:+ dq +:+ "Get" +:+ dq +:+ ");";
      "if (! method_call)";
      "	nih_return_no_memory_error (-1);";
      EmptyString;
      "dbus_message_iter_init_append (method_call, &iter);";
      EmptyString;
      "interface = " +:+ dq +:+ "com.netsplit.Nih.Test" +:+ dq +:+ ";";
      "if (! dbus_message_iter_append_basic (&iter, DBUS_TYPE_STRING, &interface))";
      "	nih_return_no_memory_error (-1);";
      EmptyString;
      "property = " +:+ dq +:+ "my_property" +:+ dq +:+ ";";
      "if (! dbus_message_iter_append_basic (&iter, DBUS_TYPE_STRING, &property))";
      "	nih_return_no_memory_error (-1);";
      EmptyString;
      "/* Send the message, and wait for the reply. */";
      "dbus_error_init (&error);";
      EmptyString;
      "reply = dbus_connection_send_with_reply_and_block (proxy->conn, method_call, -1, &error);";
      "if (! reply) {";
      "	dbus_message_unref (method_call);";
      EmptyString;
      "	if (dbus_error_has_name (&error, DBUS_ERROR_NO_MEMORY)) {";
      "		nih_error_raise_no_memory ();";
      "	} else {";
      "		nih_dbus_error_raise (error.name, error.message);";
      "	}";
      EmptyString;
      "	dbus_error_free (&error);";
      "	return -1;";
      "}";
      EmptyString;
      "dbus_message_unref (method_call);";
      EmptyString;
      "/* Iterate the method arguments, recursing into the variant */";
      "dbus_message_iter_init (reply, &iter);";
      EmptyString;
      "if (dbus_message_iter_get_arg_type (&iter) != DBUS_TYPE_VARIANT) {";
      "	dbus_message_unref (reply);";
      "	nih_return_error (-1, NIH_DBUS_INVALID_ARGS,";
      "	                  _(NIH_DBUS_INVALID_ARGS_STR));";
      "}";
      EmptyString;
      "dbus_message_iter_recurse (&iter, &variter);";
      EmptyString;
      "dbus_message_iter_next (&iter);";
      EmptyString;
      "if (dbus_message_iter_get_arg_type (&iter) != DBUS_TYPE_INVALID) {";
      "	dbus_message_unref (reply);";
      "	nih_return_error (-1, NIH_DBUS_INVALID_ARGS,";
      "	                  _(NIH_DBUS_INVALID_ARGS_STR));";
      "}";
      EmptyString;
      "do {";
      "	__label__ enomem;";
      EmptyString;
      "	/* Demarshal a char * from the message */";
      "	if (dbus_message_iter_get_arg_type (&variter) != DBUS_TYPE_STRING) {";
      "		dbus_message_unref (reply);";
      "		nih_return_error (-1, NIH_DBUS_INVALID_ARGS,";
      "		                  _(NIH_DBUS_INVALID_ARGS_STR));";
      "	}";
      EmptyString;
      "	dbus_message_iter_get_basic (&variter, &local_dbus);";
      EmptyString;
      "	local = nih_strdup (parent, local_dbus);";
      "	if (! local) {";
      "		*value = NULL;";
      "		goto enomem;";
      "	}";
      EmptyString;
      "	dbus_message_iter_next (&variter);";
      EmptyString;
      "	*value = local;";
      "enomem: __attribute__ ((unused));";
      "} while (! *value);";
      EmptyString;
      "dbus_message_unref (reply);";
      EmptyString;
      "return 0;" ].

Definition expected_proxy_set_body : string :=
  unlines
    [ "nih_assert (proxy != NULL);";
      "nih_assert (value != NULL);";
      EmptyString;
      "/* Construct the method call message. */";
      "method_call = dbus_message_new_method_call (proxy->name, proxy->path, " +:+ dq +:+ "org.freedesktop.DBus.Properties" +:+ dq +:+ ", " +:+ dq +:+ "Set" +:+ dq +:+ ");";
      "if (! method_call)";
      "	nih_return_no_memory_error (-1);";
      EmptyString;
      "dbus_message_iter_init_append (method_call, &iter);";
      EmptyString;
      "interface = " +:+ dq +:+ "com.netsplit.Nih.Test" +:+ dq +:+ ";";
      "if (! dbus_message_iter_append_basic (&iter, DBUS_TYPE_STRING, &interface))";
      "	nih_return_no_memory_error (-1);";
      EmptyString;
      "property = " +:+ dq +:+ "my_property" +:+ dq +:+ ";";
      "if (! dbus_message_iter_append_basic (&iter, DBUS_TYPE_STRING, &property))";
      "	nih_return_no_memory_error (-1);";
      EmptyString;
      "if (! dbus_message_iter_open_container (&iter, DBUS_TYPE_VARIANT, " +:+ dq +:+ "s" +:+ dq +:+ ", &variter))";
      "	nih_return_no_memory_error (-1);";
      EmptyString;
      "/* Marshal a char * onto the message */";
      "if (! dbus_message_iter_append_basic (&variter, DBUS_TYPE_STRING, &value)) {";
      "	dbus_message_iter_close_container (&iter, &variter);";
      "	dbus_message_unref (method_call);";
      "	nih_return_no_memory_error (-1);";
      "}";
      EmptyString;
      "if (! dbus_message_iter_close_container (&iter, &variter)) {";
      "	dbus_message_unref (method_call);";
      "	nih_return_no_memory_error (-1);";
      "}";
      EmptyString;
      "/* Send the message, and wait for the reply. */";
      "dbus_error_init (&error);";
      EmptyString;
      "reply = dbus_connection_send_with_reply_and_block (proxy->conn, method_call, -1, &error);";
      "if (! reply) {";
      "	dbus_message_unref (method_call);";
      EmptyString;
      "	if (dbus_error_has_name (&error, DBUS_ERROR_NO_MEMORY)) {";
      "		nih_error_raise_no_memory ();";
      "	} else {";
      "		nih_dbus_error_raise (error.name, error.message);";
      "	}";
      EmptyString;
      "	dbus_error_free (&error);";
      "	return -1;";
      "}";
      EmptyString;
      "/* Check the reply has no arguments */";
      "dbus_message_unref (method_call);";
      "dbus_message_iter_init (reply, &iter);";
      EmptyString;
      "if (dbus_message_iter_get_arg_type (&iter) != DBUS_TYPE_INVALID) {";
      "	dbus_message_unref (reply);";
      "	nih_return_error (-1, NIH_DBUS_INVALID_ARGS,";
      "	                  _(NIH_DBUS_INVALID_ARGS_STR));";
      "}";
      EmptyString;
      "dbus_message_unref (reply);";
      EmptyString;
      "return 0;" ].

(** * Properties *)

Set Default Proof Using "Type".

(** ** Name validation *)

Example name_valid_typical : property_name_valid "Wibble" = true.
Proof. reflexivity. Qed.
Example name_valid_period : property_name_valid "Wib.ble" = false.
Proof. reflexivity. Qed.
Example name_valid_leading_digits : property_name_valid "43Wibble" = false.
Proof. reflexivity. Qed.
Example name_valid_numbers : property_name_valid "Wib43ble" = true.
Proof. reflexivity. Qed.
Example name_valid_empty : property_name_valid EmptyString = false.
Proof. reflexivity. Qed.

Lemma char_val_range (c : ascii) :
  0 <= Z.of_N (N_of_ascii c) < 256.
Proof.
  pose proof (N_ascii_bounded c) as H. lia.
Qed.

Ltac decide_comparisons :=
  repeat match goal with
    | |- context [?a <=? ?b] =>
        first [ rewrite (proj2 (Z.leb_le a b)) by lia
              | rewrite (proj2 (Z.leb_gt a b)) by lia ]
    | |- context [?a <? ?b] =>
        first [ rewrite (proj2 (Z.ltb_lt a b)) by lia
              | rewrite (proj2 (Z.ltb_ge a b)) by lia ]
    | |- context [?a =? ?b] =>
        first [ rewrite (proj2 (Z.eqb_eq a b)) by lia
              | rewrite (proj2 (Z.eqb_neq a b)) by lia ]
    end.

(** The ranges of byte values the source tells apart. *)
Lemma byte_classes (n : Z) :
  0 <= n < 256 ->
  n < 48 \/ 48 <= n <= 57 \/ 58 <= n <= 64 \/ 65 <= n <= 90
  \/ 91 <= n <= 94 \/ n = 95 \/ n = 96 \/ 97 <= n <= 122
  \/ 123 <= n <= 127 \/ 128 <= n.
Proof. lia. Qed.

Lemma name_valid_step_head (c : ascii) :
  name_valid_step 0 c = if name_head_char c then Some tt else None.
Proof.
  unfold name_valid_step, name_head_char, is_upper, is_lower, is_underscore,
    char_val.
  change (Z.of_N (N_of_ascii "0")) with 48.
  change (Z.of_N (N_of_ascii "9")) with 57.
  change (Z.of_N (N_of_ascii "A")) with 65.
  change (Z.of_N (N_of_ascii "Z")) with 90.
  change (Z.of_N (N_of_ascii "a")) with 97.
  change (Z.of_N (N_of_ascii "z")) with 122.
  change (Z.of_N (N_of_ascii "_")) with 95.
  cbn [Z.leb Z.compare Pos.compare Pos.compare_cont Nat.eqb].
  generalize (char_val_range c). generalize (Z.of_N (N_of_ascii c)).
  intros n Hn.
  destruct (byte_classes n Hn) as [H|[H|[H|[H|[H|[H|[H|[H|[H|H]]]]]]]]];
    decide_comparisons; reflexivity.
Qed.

Lemma name_valid_step_tail (i : nat) (c : ascii) :
  name_valid_step (S i) c = if name_tail_char c then Some tt else None.
Proof.
  unfold name_valid_step, name_tail_char, name_head_char, is_upper, is_lower,
    is_underscore, is_digit, char_val.
  change (Z.of_N (N_of_ascii "0")) with 48.
  change (Z.of_N (N_of_ascii "9")) with 57.
  change (Z.of_N (N_of_ascii "A")) with 65.
  change (Z.of_N (N_of_ascii "Z")) with 90.
  change (Z.of_N (N_of_ascii "a")) with 97.
  change (Z.of_N (N_of_ascii "z")) with 122.
  change (Z.of_N (N_of_ascii "_")) with 95.
  cbn [Z.leb Z.compare Pos.compare Pos.compare_cont Nat.eqb].
  generalize (char_val_range c). generalize (Z.of_N (N_of_ascii c)).
  intros n Hn.
  destruct (byte_classes n Hn) as [H|[H|[H|[H|[H|[H|[H|[H|[H|H]]]]]]]]];
    decide_comparisons; reflexivity.
Qed.

Lemma name_valid_loop_tail (i : nat) (s : string) :
  name_valid_loop (S i) s = if all_chars name_tail_char s then Some tt else None.
Proof.
  revert i. induction s as [|c s IH]; intros i; simpl; [reflexivity|].
  rewrite name_valid_step_tail.
  destruct (name_tail_char c); simpl; [apply IH | reflexivity].
Qed.

(** C6.  [property_name_valid] returns true for exactly the strings that
    match [[A-Za-z_][A-Za-z0-9_]*] and are 1 to 255 characters long, and
    false for every other string (so in particular for the empty string,
    for names over 255 characters, for a leading digit, and for any
    character outside letters, digits and underscore). *)
Theorem property_name_valid_spec (name : string) :
  property_name_valid name = member_name_spec name.
Proof.
  unfold property_name_valid, member_name_spec, strlen.
  destruct name as [|c s]; [reflexivity|].
  cbn [name_valid_loop matches_member_regex].
  rewrite name_valid_step_head.
  destruct (name_head_char c); cbn [andb]; [|reflexivity].
  rewrite name_valid_loop_tail.
  destruct (all_chars name_tail_char s); cbn [andb]; [|reflexivity].
  cbn [String.length].
  destruct (Nat.ltb_spec (S (String.length s)) 1);
    destruct (Nat.ltb_spec 255 (S (String.length s)));
    destruct (Nat.leb_spec 1 (S (String.length s)));
    destruct (Nat.leb_spec (S (String.length s)) 255);
    simpl; try reflexivity; lia.
Qed.

(** ** property_new *)

Example property_new_size :
  let '(r, w) := property_new None "Size" "i" NIH_DBUS_READ empty_world in
  match r with
  | Some p => load_property (heap w) p
  | None => None
  end
  = Some {| p_name := "Size"; p_symbol := None; p_type := "i";
            p_access := NIH_DBUS_READ; p_deprecated := false |}.
Proof. vm_compute. reflexivity. Qed.

Example property_new_fail_third :
  let '(r, w) := property_new None "Size" "i" NIH_DBUS_READ
                   {| heap := ∅; answers := [true; true; false] |} in
  (r, heap w) = (None, ∅).
Proof. vm_compute. reflexivity. Qed.

Lemma fresh_not_in (h : gmap ptr NihAllocCtx) : h !! fresh (dom h) = None.
Proof. apply not_elem_of_dom, is_fresh. Qed.

Lemma nih_alloc_refused parent d w :
  head (answers w) = Some false ->
  nih_alloc parent d w = (None, {| heap := heap w; answers := tail (answers w) |}).
Proof.
  unfold nih_alloc. destruct (answers w) as [|[] rest]; simpl; congruence.
Qed.

Lemma nih_alloc_granted parent d w :
  head (answers w) <> Some false ->
  nih_alloc parent d w =
    (Some (fresh (dom (heap w))),
     {| heap :=
          match parent with
          | Some q => alter (add_child (fresh (dom (heap w)))) q
          | None => fun h => h
          end (<[fresh (dom (heap w)) :=
                  {| ctx_parent := parent; ctx_children := [];
                     ctx_destructor := None; ctx_data := d |}]> (heap w));
        answers := tail (answers w) |}).
Proof.
  unfold nih_alloc. destruct (answers w) as [|[] rest]; simpl; try congruence;
    destruct parent; reflexivity.
Qed.

Lemma lookup_adopt (h : gmap ptr NihAllocCtx) parent c p :
  match parent with
  | Some q => alter (add_child c) q
  | None => fun h => h
  end h !! p
  = (if decide (parent = Some p) then add_child c else fun x => x) <$> h !! p.
Proof.
  destruct parent as [q|].
  - rewrite lookup_alter. destruct (decide (q = p)) as [->|Hne].
    + rewrite decide_True by reflexivity. reflexivity.
    + rewrite decide_False by congruence. destruct (h !! p); reflexivity.
  - rewrite decide_False by congruence. destruct (h !! p); reflexivity.
Qed.

Ltac heap_lookup :=
  repeat first
    [ rewrite lookup_alter | rewrite lookup_insert | rewrite lookup_adopt
    | case_decide; try congruence ].


(** ** property_start_tag *)

Lemma nih_alloc_answers parent d w :
  answers (snd (nih_alloc parent d w)) = tail (answers w).
Proof.
  unfold nih_alloc. destruct (answers w) as [|[] rest]; reflexivity.
Qed.

Lemma never_refused_tail w w' :
  answers w' = tail (answers w) -> never_refused w -> never_refused w'.
Proof.
  intros E H k. rewrite E. specialize (H (S k)).
  destruct (answers w); cbn in *; [discriminate | exact H].
Qed.

Lemma nih_alloc_never_refused parent d w :
  never_refused w ->
  exists p w', nih_alloc parent d w = (Some p, w') /\ never_refused w'.
Proof.
  intros H.
  assert (H0 : head (answers w) <> Some false).
  { specialize (H 0%nat). destruct (answers w); [discriminate | exact H]. }
  rewrite nih_alloc_granted by exact H0.
  eexists _, _. split; [reflexivity|].
  eapply never_refused_tail; [|exact H]. reflexivity.
Qed.

(** A property [property_new] returns reads as the property asked for. *)
Lemma property_new_loaded parent name type access w p0 w' :
  property_new parent name type access w = (Some p0, w') ->
  load_property (heap w') p0
  = Some {| p_name := name; p_symbol := None; p_type := type;
            p_access := access; p_deprecated := false |}.
Proof.
  clear dbus_signature_validate_single symbol_from_name marshal demarshal
    type_to_pointer type_to_const type_var_layout type_func_to_string.
  unfold property_new, nih_strdup.
  destruct (decide (head (answers w) = Some false)) as [H0|H0].
  { rewrite nih_alloc_refused by exact H0. discriminate. }
  rewrite nih_alloc_granted by exact H0.
  set (p := fresh (dom (heap w))).
  cbv zeta.
  match goal with
  | |- context [nih_alloc (Some p) (VString name) ?w1] => set (w1' := w1)
  end.
  assert (Ha1 : answers w1' = tail (answers w)) by reflexivity.
  assert (Hd1 : dom (heap w1') = {[p]} ∪ dom (heap w)).
  { unfold w1', nih_alloc_set_destructor, with_heap, nih_list_init, set_node.
    cbn [heap]. rewrite !dom_alter_L.
    destruct parent; rewrite ?dom_alter_L, dom_insert_L; reflexivity. }
  assert (H1p : exists ch, heap w1' !! p
      = Some {| ctx_parent := parent; ctx_children := ch;
                ctx_destructor := Some nih_list_destroy;
                ctx_data := VProperty {| entry := Unlinked;
                   m_name := None; m_symbol := None; m_type := None;
                   m_access := NIH_DBUS_READ; m_deprecated := false |} |}).
  { unfold w1', nih_alloc_set_destructor, with_heap, nih_list_init, set_node.
    cbn [heap]. heap_lookup; cbn; eauto. }
  destruct H1p as [ch1 H1p].
  clearbody w1'.
  destruct (decide (head (answers w1') = Some false)) as [H1|H1].
  { rewrite nih_alloc_refused by exact H1. discriminate. }
  rewrite nih_alloc_granted by exact H1.
  set (n := fresh (dom (heap w1'))).
  match goal with
  | |- context [nih_alloc (Some p) (VString type) ?w1] => set (w2' := w1)
  end.
  assert (Ha2 : answers w2' = tail (tail (answers w)))
    by (rewrite <- Ha1; reflexivity).
  assert (Hd2 : dom (heap w2') = {[n]} ∪ ({[p]} ∪ dom (heap w))).
  { unfold w2', set_property, with_heap. cbn [heap].
    rewrite !dom_alter_L, dom_insert_L, Hd1. reflexivity. }
  pose proof (is_fresh (dom (heap w))) as Hp. fold p in Hp.
  pose proof (is_fresh (dom (heap w1'))) as Hn. fold n in Hn.
  rewrite Hd1 in Hn.
  assert (Hnp : n <> p) by set_solver.
  assert (H2p : exists ch, heap w2' !! p
      = Some {| ctx_parent := parent; ctx_children := ch;
                ctx_destructor := Some nih_list_destroy;
                ctx_data := VProperty {| entry := Unlinked;
                   m_name := Some n; m_symbol := None; m_type := None;
                   m_access := NIH_DBUS_READ; m_deprecated := false |} |}).
  { unfold w2', set_property, with_heap. cbn [heap].
    heap_lookup; rewrite ?H1p; cbn; eauto. }
  destruct H2p as [ch2 H2p].
  assert (H2n : heap w2' !! n
      = Some {| ctx_parent := Some p; ctx_children := [];
                ctx_destructor := None; ctx_data := VString name |}).
  { unfold w2', set_property, with_heap. cbn [heap].
    heap_lookup; try reflexivity. }
  clearbody w2'.
  destruct (decide (head (answers w2') = Some false)) as [H2|H2].
  { rewrite nih_alloc_refused by exact H2. discriminate. }
  rewrite nih_alloc_granted by exact H2.
  set (t := fresh (dom (heap w2'))).
  pose proof (is_fresh (dom (heap w2'))) as Ht. fold t in Ht.
  rewrite Hd2 in Ht.
  assert (Htp : t <> p) by set_solver.
  assert (Htn : t <> n) by set_solver.
  assert (Hwn : heap w !! n = None) by (apply not_elem_of_dom; set_solver).
  assert (Hwt : heap w !! t = None) by (apply not_elem_of_dom; set_solver).
  assert (Hwp : heap w !! p = None) by (apply not_elem_of_dom; set_solver).
  match goal with
  | |- (_, ?w3) = _ -> _ => set (w3' := w3)
  end.
  assert (H3p : exists ch, heap w3' !! p
      = Some {| ctx_parent := parent; ctx_children := ch;
                ctx_destructor := Some nih_list_destroy;
                ctx_data := VProperty (new_property_mem n t access) |}).
  { unfold w3', set_property, with_heap. cbn [heap].
    heap_lookup; rewrite ?H2p; cbn; eauto. }
  destruct H3p as [ch3 H3p].
  assert (H3n : heap w3' !! n
      = Some {| ctx_parent := Some p; ctx_children := [];
                ctx_destructor := None; ctx_data := VString name |}).
  { unfold w3', set_property, with_heap. cbn [heap].
    heap_lookup; rewrite ?H2n; try reflexivity. }
  assert (H3t : heap w3' !! t
      = Some {| ctx_parent := Some p; ctx_children := [];
                ctx_destructor := None; ctx_data := VString type |}).
  { unfold w3', set_property, with_heap. cbn [heap].
    heap_lookup; try reflexivity. }
  clearbody w3'. intros [= <- <-].
  unfold load_property, load_string. rewrite H3p. cbn.
  rewrite H3n, H3t. reflexivity.
Qed.

Lemma property_new_never_refused parent name type access w :
  never_refused w ->
  exists p w',
    property_new parent name type access w = (Some p, w')
    /\ never_refused w'
    /\ load_property (heap w') p
       = Some {| p_name := name; p_symbol := None; p_type := type;
                 p_access := access; p_deprecated := false |}.
Proof.
  intros H.
  assert (A : exists p w',
             property_new parent name type access w = (Some p, w')
             /\ never_refused w').
  { unfold property_new, nih_strdup.
    destruct (nih_alloc_never_refused parent (VProperty unset_property) w H)
      as (p & w1 & E1 & H1).
    rewrite E1. cbv zeta.
    match goal with
    | |- context [nih_alloc (Some p) (VString name) ?w0] => set (wa := w0)
    end.
    assert (Ha : never_refused wa) by exact H1.
    destruct (nih_alloc_never_refused (Some p) (VString name) wa Ha)
      as (n & w2 & E2 & H2).
    rewrite E2.
    match goal with
    | |- context [nih_alloc (Some p) (VString type) ?w0] => set (wb := w0)
    end.
    assert (Hb : never_refused wb) by exact H2.
    destruct (nih_alloc_never_refused (Some p) (VString type) wb Hb)
      as (t & w3 & E3 & H3).
    rewrite E3. eexists _, _. split; [reflexivity|exact H3]. }
  destruct A as (p & w' & E & Hw'). exists p, w'.
  split; [exact E|]. split; [exact Hw'|].
  exact (property_new_loaded _ _ _ _ _ _ _ E).
Qed.

Lemma scan_attr_spec attr a st :
  scan_attr attr a st
  = ({| a_name := match attr_value "name" attr with
                  | Some v => Some v | None => a_name a end;
        a_type := match attr_value "type" attr with
                  | Some v => Some v | None => a_type a end;
        a_access_str := match attr_value "access" attr with
                        | Some v => Some v | None => a_access_str a end |},
     {| mem := mem st; stack := stack st; raised := raised st;
        warnings := warnings st ++ unknown_attr_warnings attr |}).
Proof.
  revert a st. induction attr as [|[key value] rest IH]; intros a st.
  - cbn. rewrite app_nil_r. destruct a, st; reflexivity.
  - cbn [scan_attr attr_value].
    unfold unknown_attr_warnings. cbn [List.filter map fst].
    unfold known_attr.
    destruct (String.eqb_spec key "name") as [->|Hn].
    { rewrite IH. cbn.
      destruct (attr_value "name" rest), (attr_value "type" rest),
        (attr_value "access" rest); reflexivity. }
    destruct (String.eqb_spec key "type") as [->|Ht].
    { rewrite IH. cbn.
      destruct (attr_value "name" rest), (attr_value "type" rest),
        (attr_value "access" rest); reflexivity. }
    destruct (String.eqb_spec key "access") as [->|Ha].
    { rewrite IH. cbn.
      destruct (attr_value "name" rest), (attr_value "type" rest),
        (attr_value "access" rest); reflexivity. }
    rewrite IH. cbn. rewrite <- app_assoc. cbn.
    destruct (attr_value "name" rest), (attr_value "type" rest),
      (attr_value "access" rest); reflexivity.
Qed.

Lemma load_string_extend (h h' : gmap ptr NihAllocCtx) p v :
  (forall q x, h !! q = Some x -> h' !! q = Some x) ->
  load_string h p = Some v -> load_string h' p = Some v.
Proof.
  intros Hext. unfold load_string.
  destruct (h !! p) as [x|] eqn:E; [|discriminate].
  rewrite (Hext _ _ E). trivial.
Qed.

Lemma load_property_extend (h h' : gmap ptr NihAllocCtx) p v :
  (forall q x, h !! q = Some x -> h' !! q = Some x) ->
  load_property h p = Some v -> load_property h' p = Some v.
Proof.
  intros Hext. unfold load_property.
  destruct (h !! p) as [x|] eqn:E; [|discriminate].
  rewrite (Hext _ _ E).
  destruct x as [? ? ? [| m |]]; try discriminate.
  destruct (m_name m) as [n|]; [|discriminate].
  destruct (m_type m) as [t|]; [|discriminate].
  destruct (load_string h n) as [name|] eqn:En; [|discriminate].
  destruct (load_string h t) as [type|] eqn:Et; [|discriminate].
  rewrite (load_string_extend h h' n name Hext En).
  rewrite (load_string_extend h h' t type Hext Et).
  destruct (m_symbol m) as [sy|]; [|trivial].
  destruct (load_string h sy) as [symbol|] eqn:Es; [|discriminate].
  rewrite (load_string_extend h h' sy symbol Hext Es). trivial.
Qed.

Lemma parse_stack_push_never_refused type data st :
  never_refused (mem st) ->
  exists w,
    parse_stack_push None type data st
    = (Some {| s_type := type; s_data := data |},
       {| mem := w; stack := {| s_type := type; s_data := data |} :: stack st;
          raised := raised st; warnings := warnings st |})
    /\ never_refused w
    /\ (forall q x, heap (mem st) !! q = Some x -> heap w !! q = Some x).
Proof.
  intros H. unfold parse_stack_push.
  assert (H0 : head (answers (mem st)) <> Some false).
  { specialize (H 0%nat). destruct (answers (mem st));
      [discriminate | exact H]. }
  rewrite nih_alloc_granted by exact H0.
  eexists. split; [reflexivity|]. split.
  - eapply never_refused_tail; [|exact H]. reflexivity.
  - cbn. intros q x Hq. rewrite lookup_insert_ne; [exact Hq|].
    intros <-. rewrite fresh_not_in in Hq. discriminate.
Qed.

Ltac start_tag_case :=
  repeat split; intros; try lia; try discriminate; try easy;
  try (match goal with H : _ /\ _ |- _ => destruct H; discriminate end);
  try (eexists; split; [reflexivity | discriminate]); eauto.

(** C9.  As long as no allocation is refused, [property_start_tag] fails
    (returns a negative value, with an error raised and the stack left as
    it was) exactly when the tag is inside an interface and its name, type
    or access attribute is missing or malformed.  Inside an interface every
    unknown attribute is warned about and otherwise ignored, and a tag with
    acceptable attributes pushes a new property carrying them.  Outside an
    interface the tag is warned about and an Ignored entry is pushed,
    whatever the attributes are. *)
Theorem property_start_tag_spec attr st :
  never_refused (mem st) ->
  let r := property_start_tag attr st in
  (fst r < 0 <-> inside_interface st = true /\ attrs_rejected attr = true)
  /\ (fst r < 0 ->
      stack (snd r) = stack st
      /\ exists e, raised (snd r) = Some e /\ number e <> ENOMEM)
  /\ (inside_interface st = true ->
      warnings (snd r) = warnings st ++ unknown_attr_warnings attr)
  /\ (inside_interface st = true -> attrs_rejected attr = false ->
      fst r = 0
      /\ exists property name type access_str access,
           attr_value "name" attr = Some name
           /\ attr_value "type" attr = Some type
           /\ attr_value "access" attr = Some access_str
           /\ access_of_string access_str = Some access
           /\ stack (snd r)
              = {| s_type := PARSE_PROPERTY;
                   s_data := DataProperty property |} :: stack st
           /\ load_property (heap (mem (snd r))) property
              = Some {| p_name := name; p_symbol := None; p_type := type;
                        p_access := access; p_deprecated := false |})
  /\ (inside_interface st = false ->
      fst r = 0
      /\ stack (snd r)
         = {| s_type := PARSE_IGNORED; s_data := DataNull |} :: stack st
      /\ warnings (snd r)
         = warnings st ++ ["Ignored unexpected <property> tag"]
      /\ raised (snd r) = raised st).
Proof.
  intros Hmem r. subst r. unfold property_start_tag.
  destruct (inside_interface st) eqn:Hin; cbn [negb].
  2:{ destruct (parse_stack_push_never_refused PARSE_IGNORED DataNull
                  (nih_warn "Ignored unexpected <property> tag" st) Hmem)
        as (w & E & _).
      rewrite E. cbn. start_tag_case. }
  rewrite scan_attr_spec. cbn [a_name a_type a_access_str].
  unfold attrs_rejected, nih_return_error.
  destruct (attr_value "name" attr) as [name|]; cbn; [|start_tag_case].
  destruct (property_name_valid name); cbn; [|start_tag_case].
  destruct (attr_value "type" attr) as [type|]; cbn; [|start_tag_case].
  destruct (dbus_signature_validate_single type); cbn; [|start_tag_case].
  destruct (attr_value "access" attr) as [access_str|]; cbn;
    [|start_tag_case].
  unfold access_of_string.
  destruct (String.eqb access_str "read") eqn:Er;
    [|destruct (String.eqb access_str "write") eqn:Ew;
      [|destruct (String.eqb access_str "readwrite") eqn:Erw]]; cbn.
  4: start_tag_case.
  all: match goal with
       | |- context [property_new None ?n ?t ?a ?w] =>
           destruct (property_new_never_refused None n t a w Hmem)
             as (p & w' & E & Hw' & L)
       end;
       rewrite E;
       match goal with
       | |- context [parse_stack_push None PARSE_PROPERTY ?d ?s] =>
           destruct (parse_stack_push_never_refused PARSE_PROPERTY d s
                       Hw') as (w'' & E' & _ & Hext)
       end;
       rewrite E'; cbn.
  all: start_tag_case.
  all: eexists _, _, _, _, _; repeat split; eauto.
  all: try (rewrite ?Er, ?Ew, ?Erw; reflexivity).
  all: exact (load_property_extend _ _ _ _ Hext L).
Qed.

(** ** property_end_tag *)

Lemma the_symbol_load h q v :
  load_property h q = Some v -> the_symbol h q = p_symbol v.
Proof.
  unfold load_property, the_symbol.
  destruct (h !! q) as [[? ? ? [| m |]]|]; try discriminate.
  destruct (m_name m); [|discriminate].
  destruct (m_type m); [|discriminate].
  destruct (load_string h p); [|discriminate].
  destruct (load_string h p0); [|discriminate].
  destruct (m_symbol m).
  - destruct (load_string h p1); [|discriminate].
    intros [= <-]. reflexivity.
  - intros [= <-]. reflexivity.
Qed.

Lemma the_name_load h q v :
  load_property h q = Some v -> the_name h q = Some (p_name v).
Proof.
  unfold load_property, the_name.
  destruct (h !! q) as [[? ? ? [| m |]]|]; try discriminate.
  destruct (m_name m); [|discriminate].
  destruct (m_type m); [|discriminate].
  destruct (load_string h p) eqn:E; [|discriminate].
  destruct (load_string h p0); [|discriminate].
  destruct (m_symbol m).
  - destruct (load_string h p1); [|discriminate].
    intros [= <-]. reflexivity.
  - intros [= <-]. reflexivity.
Qed.

Lemma load_string_frame (h h' : gmap ptr NihAllocCtx) property p v :
  (forall r x, r <> property -> h !! r = Some x -> h' !! r = Some x) ->
  load_string h property = None ->
  load_string h p = Some v -> load_string h' p = Some v.
Proof.
  intros Hfr Hp. unfold load_string.
  destruct (h !! p) as [x|] eqn:E; [|discriminate].
  destruct (decide (p = property)) as [->|Hne].
  - unfold load_string in Hp. rewrite E in Hp.
    destruct x as [? ? ? []]; discriminate.
  - rewrite (Hfr _ _ Hne E). trivial.
Qed.

Lemma load_property_frame (h h' : gmap ptr NihAllocCtx) property q v :
  (forall r x, r <> property -> h !! r = Some x -> h' !! r = Some x) ->
  load_string h property = None ->
  q <> property ->
  load_property h q = Some v -> load_property h' q = Some v.
Proof.
  intros Hfr Hp Hq. unfold load_property.
  destruct (h !! q) as [x|] eqn:E; [|discriminate].
  rewrite (Hfr _ _ Hq E).
  destruct x as [? ? ? [| m |]]; try discriminate.
  destruct (m_name m) as [n|]; [|discriminate].
  destruct (m_type m) as [t|]; [|discriminate].
  destruct (load_string h n) as [name|] eqn:En; [|discriminate].
  destruct (load_string h t) as [type|] eqn:Et; [|discriminate].
  rewrite (load_string_frame h h' property n name Hfr Hp En).
  rewrite (load_string_frame h h' property t type Hfr Hp Et).
  destruct (m_symbol m) as [sy|]; [|trivial].
  destruct (load_string h sy) as [symbol|] eqn:Es; [|discriminate].
  rewrite (load_string_frame h h' property sy symbol Hfr Hp Es). trivial.
Qed.

Lemma load_property_not_string h q v :
  load_property h q = Some v -> load_string h q = None.
Proof.
  unfold load_property, load_string.
  destruct (h !! q) as [[? ? ? [| m |]]|]; try discriminate; trivial.
Qed.

(** Changing only the list node of a property block changes nothing that
    [load_property] reads. *)
Lemma load_property_set_node h property e q :
  load_property (set_node property e h) q = load_property h q.
Proof.
  assert (S : forall p, load_string (set_node property e h) p = load_string h p).
  { intros p. unfold load_string, set_node. rewrite lookup_alter.
    case_decide; [subst|reflexivity].
    destruct (h !! p) as [[? ? ? []]|]; reflexivity. }
  unfold load_property.
  replace (set_node property e h !! q)
    with (if decide (property = q)
          then (fun x =>
                  match ctx_data x with
                  | VProperty m =>
                      set_data (VProperty {| entry := e;
                                             m_name := m_name m;
                                             m_symbol := m_symbol m;
                                             m_type := m_type m;
                                             m_access := m_access m;
                                             m_deprecated := m_deprecated m |})
                        x
                  | _ => x
                  end) <$> h !! q
          else h !! q)
    by (unfold set_node; rewrite lookup_alter; case_decide; subst; reflexivity).
  case_decide;
    destruct (h !! q) as [[? ? ? [| m |]]|]; cbn; try reflexivity;
    destruct (m_name m); try reflexivity;
    destruct (m_type m); try reflexivity;
    destruct (m_symbol m); rewrite !S; reflexivity.
Qed.

Lemma find_ext {A} (f g : A -> bool) (l : list A) :
  (forall x, In x l -> f x = g x) -> find f l = find g l.
Proof.
  induction l as [|a l IH]; intros H; cbn; [reflexivity|].
  rewrite (H a) by (left; reflexivity).
  destruct (g a); [reflexivity|]. apply IH. intros x Hx. apply H. right.
  exact Hx.
Qed.

Lemma generate_symbol_spec property x m v w :
  heap w !! property = Some x -> ctx_data x = VProperty m ->
  load_property (heap w) property = Some v ->
  never_refused w ->
  exists w',
    generate_symbol property m w = SymbolKept w'
    /\ load_property (heap w') property = Some (with_symbol v (symbol_of v))
    /\ (forall q u, q <> property ->
          load_property (heap w) q = Some u ->
          load_property (heap w') q = Some u).
Proof.
  intros Hx Hm Hv Hnr. unfold generate_symbol.
  pose proof (the_name_load _ _ _ Hv) as Hname.
  pose proof (load_property_not_string _ _ _ Hv) as Hns.
  unfold load_property in Hv. rewrite Hx in Hv.
  destruct x as [xp xc xd xdata]. cbn in Hm. subst xdata.
  destruct (m_name m) as [n|] eqn:En; [|discriminate].
  destruct (m_type m) as [t|] eqn:Et; [|discriminate].
  destruct (load_string (heap w) n) as [name|] eqn:Ln; [|discriminate].
  destruct (load_string (heap w) t) as [type|] eqn:Lt; [|discriminate].
  destruct (m_symbol m) as [sy|] eqn:Es.
  - destruct (load_string (heap w) sy) as [symbol|] eqn:Ls; [|discriminate].
    injection Hv as <-. exists w. split; [reflexivity|]. split.
    + unfold load_property. rewrite Hx, En, Et, Ln, Lt, Es, Ls. reflexivity.
    + intros q u _ Hq. exact Hq.
  - injection Hv as <-. cbn [p_name] in Hname. rewrite Hname.
    unfold nih_strdup.
    assert (H0 : head (answers w) <> Some false).
    { specialize (Hnr 0%nat). destruct (answers w); [discriminate|exact Hnr]. }
    rewrite nih_alloc_granted by exact H0.
    set (s := fresh (dom (heap w))).
    assert (Hs : heap w !! s = None) by apply fresh_not_in.
    assert (Hsp : s <> property) by (intros E; rewrite E in Hs; congruence).
    assert (Hsn : s <> n).
    { intros E. unfold load_string in Ln. rewrite <- E, Hs in Ln.
      discriminate. }
    assert (Hst : s <> t).
    { intros E. unfold load_string in Lt. rewrite <- E, Hs in Lt.
      discriminate. }
    assert (Hnp : n <> property).
    { intros E. rewrite E in Ln. congruence. }
    assert (Htp : t <> property).
    { intros E. rewrite E in Lt. congruence. }
    eexists. split; [reflexivity|].
    unfold set_property, with_heap. cbn [heap]. split.
    + unfold load_property, load_string.
      heap_lookup. rewrite Hx. cbn. rewrite En, Et. cbn.
      heap_lookup.
      unfold load_string in Ln, Lt. 
      destruct (heap w !! n) as [[? ? ? []]|]; try discriminate.
      destruct (heap w !! t) as [[? ? ? []]|]; try discriminate.
      injection Ln as ->. injection Lt as ->. reflexivity.
    + intros q u Hq Hu.
      eapply load_property_frame; [| exact Hns | exact Hq | exact Hu].
      intros r y Hr Hy. heap_lookup; exact Hy.
Qed.

(** C5.  [property_end_tag] on a property whose symbol (the annotated one,
    or else the one derived from its name) is already the symbol of a
    property of the parent interface raises [PROPERTY_DUPLICATE_SYMBOL]
    naming the symbol and the property in conflict, returns a negative
    value and leaves the interface as it was.  Otherwise the property is
    appended to the interface with exactly that symbol, the properties
    already there keep theirs, and if their symbols were pairwise distinct
    the symbols of the extended list are too. *)
Theorem property_end_tag_spec st property interface rest v :
  stack st
  = {| s_type := PARSE_PROPERTY; s_data := DataProperty property |}
    :: {| s_type := PARSE_INTERFACE; s_data := DataInterface interface |}
    :: rest ->
  load_property (heap (mem st)) property = Some v ->
  (forall q, In q (i_properties interface) ->
     q <> property /\ exists u, load_property (heap (mem st)) q = Some u) ->
  never_refused (mem st) ->
  match interface_lookup_property (heap (mem st)) interface (symbol_of v) with
  | Some conflict =>
      exists u st',
        In conflict (i_properties interface)
        /\ load_property (heap (mem st)) conflict = Some u
        /\ p_symbol u = Some (symbol_of v)
        /\ property_end_tag st = Some (-1, st')
        /\ raised st'
           = Some {| number := PROPERTY_DUPLICATE_SYMBOL;
                     message_args := [symbol_of v; p_name u] |}
        /\ stack st'
           = {| s_type := PARSE_INTERFACE;
                s_data := DataInterface interface |} :: rest
  | None =>
      let interface' :=
        {| i_name := i_name interface;
           i_properties := i_properties interface ++ [property] |} in
      exists st',
        property_end_tag st = Some (0, st')
        /\ stack st'
           = {| s_type := PARSE_INTERFACE;
                s_data := DataInterface interface' |} :: rest
        /\ load_property (heap (mem st')) property
           = Some (with_symbol v (symbol_of v))
        /\ (forall q u, In q (i_properties interface) ->
              load_property (heap (mem st)) q = Some u ->
              load_property (heap (mem st')) q = Some u)
        /\ (unique_symbols (heap (mem st)) interface ->
            unique_symbols (heap (mem st')) interface')
  end.
Proof.
  intros Hstack Hv Hlist Hnr.
  assert (Hx : exists x m, heap (mem st) !! property = Some x
                           /\ ctx_data x = VProperty m).
  { unfold load_property in Hv.
    destruct (heap (mem st) !! property) as [[? ? ? [| m |]]|];
      try discriminate.
    eexists _, m. split; reflexivity. }
  destruct Hx as (x & m & Hx & Hm).
  destruct (generate_symbol_spec property x m v (mem st) Hx Hm Hv Hnr)
    as (w' & Hgen & Hv' & Hframe).
  assert (Hsym : forall q, In q (i_properties interface) ->
            the_symbol (heap w') q = the_symbol (heap (mem st)) q).
  { intros q Hq. destruct (Hlist q Hq) as (Hne & u & Hu).
    rewrite (the_symbol_load _ _ _ Hu).
    rewrite (the_symbol_load _ _ _ (Hframe q u Hne Hu)). reflexivity. }
  assert (Hlook : interface_lookup_property (heap w') interface (symbol_of v)
                  = interface_lookup_property (heap (mem st)) interface
                      (symbol_of v)).
  { unfold interface_lookup_property. apply find_ext.
    intros q Hq. rewrite (Hsym q Hq). reflexivity. }
  unfold property_end_tag. rewrite Hstack.
  change (parse_stack_top (?a :: ?b)) with (Some a). cbv iota beta.
  rewrite Hx. destruct x as [xp xc xd xdata]. cbn in Hm. subst xdata.
  rewrite Hgen. cbn [with_mem with_stack mem stack].
  rewrite Hstack. cbn [tail].
  change (parse_stack_top (?a :: ?b)) with (Some a). cbv iota beta.
  rewrite (the_symbol_load _ _ _ Hv'). cbn [with_symbol p_symbol].
  rewrite Hlook.
  destruct (interface_lookup_property (heap (mem st)) interface (symbol_of v))
    as [conflict|] eqn:Hfind.
  - unfold interface_lookup_property in Hfind.
    apply find_some in Hfind. destruct Hfind as [Hin Hpred].
    destruct (Hlist conflict Hin) as (Hne & u & Hu).
    rewrite (the_symbol_load _ _ _ Hu) in Hpred.
    destruct (p_symbol u) as [su|] eqn:Esu; [|discriminate].
    apply String.eqb_eq in Hpred. subst su.
    rewrite (the_name_load _ _ _ (Hframe conflict u Hne Hu)).
    eexists u, _. repeat split; eauto.
  - cbv zeta. eexists. split; [reflexivity|]. cbn [stack mem with_heap heap].
    split; [reflexivity|]. split.
    { rewrite load_property_set_node. exact Hv'. }
    split.
    { intros q u Hq Hu. rewrite load_property_set_node.
      destruct (Hlist q Hq) as (Hne & _). exact (Hframe q u Hne Hu). }
    intros Huniq i j qi qj s Hi Hj Hsi Hsj. cbn [i_properties] in Hi, Hj.
    assert (Hold : forall q, In q (i_properties interface) ->
              the_symbol (set_node property Linked (heap w')) q
              = the_symbol (heap (mem st)) q).
    { intros q Hq. destruct (Hlist q Hq) as (Hne & u & Hu).
      rewrite (the_symbol_load _ _ _ Hu).
      apply the_symbol_load. rewrite load_property_set_node.
      exact (Hframe q u Hne Hu). }
    assert (Hnew : the_symbol (set_node property Linked (heap w')) property
                   = Some (symbol_of v)).
    { erewrite the_symbol_load;
        [|rewrite load_property_set_node; exact Hv']. reflexivity. }
    assert (Hnone : forall q, In q (i_properties interface) ->
              the_symbol (heap (mem st)) q <> Some (symbol_of v)).
    { intros q Hq E. unfold interface_lookup_property in Hfind.
      pose proof (find_none _ _ Hfind q Hq) as Hf. cbn in Hf.
      rewrite E, String.eqb_refl in Hf. discriminate. }
    apply lookup_app_Some in Hi. apply lookup_app_Some in Hj.
    destruct Hi as [Hi|[Hil Hi]], Hj as [Hj|[Hjl Hj]].
    + apply (Huniq i j qi qj s Hi Hj).
      * rewrite <- Hold; [exact Hsi|].
        apply list_elem_of_In. eapply list_elem_of_lookup_2. exact Hi.
      * rewrite <- Hold; [exact Hsj|].
        apply list_elem_of_In. eapply list_elem_of_lookup_2. exact Hj.
    + apply list_lookup_singleton_Some in Hj. destruct Hj as [_ <-].
      rewrite Hnew in Hsj. injection Hsj as <-.
      exfalso. apply (Hnone qi).
      * apply list_elem_of_In. eapply list_elem_of_lookup_2. exact Hi.
      * rewrite <- Hold; [exact Hsi|].
        apply list_elem_of_In. eapply list_elem_of_lookup_2. exact Hi.
    + apply list_lookup_singleton_Some in Hi. destruct Hi as [_ <-].
      rewrite Hnew in Hsi. injection Hsi as <-.
      exfalso. apply (Hnone qj).
      * apply list_elem_of_In. eapply list_elem_of_lookup_2. exact Hj.
      * rewrite <- Hold; [exact Hsj|].
        apply list_elem_of_In. eapply list_elem_of_lookup_2. exact Hj.
    + apply list_lookup_singleton_Some in Hi.
      apply list_lookup_singleton_Some in Hj. lia.
Qed.

(** ** Running the emitted code *)

Hypothesis marshal_ok : marshal_contract marshal.
Hypothesis demarshal_ok : demarshal_contract demarshal.

Lemma exec_block_app w fuel a b st :
  exec_block w fuel (a ++ b) st
  = match exec_block w fuel a st with
    | (Fall, st') => exec_block w fuel b st'
    | r => r
    end.
Proof.
  revert st. induction a as [|s a IH]; intros st; cbn [app exec_block].
  - reflexivity.
  - destruct (exec w fuel s st) as [[] st']; try reflexivity. apply IH.
Qed.

Lemma exec_if w fuel c braces th el st :
  exec w fuel (SIf c braces th el) st
  = let '(v, st1) := eval w c st in
    if v =? 0
    then match el with
         | Some el => exec_block w fuel el st1
         | None => (Fall, st1)
         end
    else exec_block w fuel th st1.
Proof. reflexivity. Qed.

Lemma exec_do_while w fuel l body c st :
  exec w fuel (SDoWhile l body c) st = do_while w fuel l body c fuel st.
Proof.
  cbn [exec].
  match goal with
  | |- ?loop fuel st = _ =>
      assert (H : forall n st0, loop n st0 = do_while w fuel l body c n st0)
  end.
  { induction n as [|n IH]; intros st0; [reflexivity|].
    cbn [do_while].
    change ((fix block (b : list stmt) (st1 : state) {struct b} :
               outcome * state :=
               match b with
               | [] => (Fall, st1)
               | s' :: b' =>
                   match exec w fuel s' st1 with
                   | (Fall, st') => block b' st'
                   | r => r
                   end
               end) body st0) with (exec_block w fuel body st0).
    destruct (exec_block w fuel body st0) as [[] st1]; try reflexivity.
    - destruct (eval w c st1) as [v st2]. destruct (v =? 0); [reflexivity|].
      apply IH.
    - destruct (String.eqb l0 l); [|reflexivity].
      destruct (eval w c st1) as [v st2]. destruct (v =? 0); [reflexivity|].
      apply IH. }
  apply H.
Qed.

Lemma track_app open a b :
  track open (a ++ b)
  = match track open a with
    | Some open' => track open' b
    | None => None
    end.
Proof.
  revert open. induction a as [|e a IH]; intros open; cbn [app track].
  - reflexivity.
  - destruct (opens e); [destruct (ev_result e =? 0); apply IH|].
    destruct (closes e); [|apply IH].
    destruct open as [|top rest]; [reflexivity|].
    destruct (same_container top p); [apply IH | reflexivity].
Qed.

(** ** Containers *)

Lemma same_container_eq a b : same_container a b = true <-> a = b.
Proof.
  unfold same_container. destruct a as [a1 a2], b as [b1 b2]. cbn.
  rewrite andb_true_iff, !String.eqb_eq. split.
  - intros [-> ->]. reflexivity.
  - intros [= -> ->]. split; reflexivity.
Qed.

Lemma opens_not_closes e c : opens e = Some c -> closes e = None.
Proof.
  unfold opens, closes. destruct (ev_kind e); [|discriminate].
  destruct (String.eqb_spec (ev_fn e) "dbus_message_iter_open_container")
    as [->|]; [|discriminate].
  intros _. reflexivity.
Qed.

(** Along a run that [track] accepts, every container is closed as often
    as it was opened, up to what was open before and is open after. *)
Lemma track_counts tr : forall open open',
  track open tr = Some open' ->
  forall c,
    (held c open + opened c tr = close_calls c tr + held c open')%nat.
Proof.
  induction tr as [|e tr IH]; intros open open' H c.
  - cbn in H. injection H as <-. cbn. lia.
  - cbn [track] in H. unfold opened, close_calls in *.
    cbn [List.filter]. unfold opens_container, closes_container in *.
    destruct (opens e) as [c'|] eqn:Eo.
    + rewrite (opens_not_closes _ _ Eo).
      destruct (ev_result e =? 0); cbn [negb andb].
      * rewrite andb_false_r. apply (IH _ _ H).
      * rewrite andb_true_r. specialize (IH _ _ H c).
        unfold held in *. cbn [List.filter] in IH.
        destruct (same_container c' c); cbn [List.length] in *; lia.
    + cbn [andb].
      destruct (closes e) as [c'|] eqn:Ec.
      * destruct open as [|top rest]; [discriminate|].
        destruct (same_container top c') eqn:Et; [|discriminate].
        apply same_container_eq in Et. subst c'.
        specialize (IH _ _ H c). unfold held in *. cbn [List.filter].
        destruct (same_container top c); cbn [List.length] in *; lia.
      * apply (IH _ _ H).
Qed.

Lemma track_closed tr :
  track [] tr = Some [] -> forall c, opened c tr = close_calls c tr.
Proof.
  intros H c. pose proof (track_counts tr [] [] H c) as E. cbn in E. lia.
Qed.

(** ** Every container that was opened is closed before the return *)

Lemma read_assigned p s l x v :
  read {| pos := p; store := <[x := v]> s; log := l |} x = v.
Proof. unfold read. cbn. rewrite lookup_insert_eq. reflexivity. Qed.

Ltac run1 :=
  cbn [exec_block exec eval ask truth api api_wrapped handler_call
       c_kind c_fn c_args fst snd pos log store default from_option
       id Z.eqb negb dbus_type_code].

Ltac run :=
  run1; unfold write, record, read; run1;
  rewrite ?lookup_insert_eq; run1.

(** A run that returned: name its calls and check the containers. *)
Ltac returned :=
  intros [= <- <-]; unfold write, record; cbn [log];
  repeat match goal with
         | H : log _ = _ |- _ => rewrite H
         end;
  rewrite <- ?app_assoc; eexists; split; [reflexivity|].

Ltac checked :=
  cbn;
  repeat match goal with
         | H : (_ =? 0) = _ |- _ => rewrite H
         end;
  rewrite ?track_app;
  repeat match goal with
         | H : balanced _ |- _ => rewrite H
         end;
  cbn;
  repeat match goal with
         | H : (_ =? 0) = _ |- _ => rewrite H
         end;
  try reflexivity.

(** The error codes of the generators return or jump away. *)
Ltac leaves_code :=
  unfold leaves; intros;
  unfold object_get_oom_error_code, object_set_oom_error_code,
    object_set_type_error_code, proxy_get_oom_error_code,
    proxy_set_oom_error_code, proxy_type_error_code;
  cbn; discriminate.

Ltac fragment_of contract tr st1 Hlog Hapi Hbal Hr :=
  match goal with
  | |- context [exec_block ?w ?fuel (ma_block (?m ?s ?i ?n ?o)) ?st0] =>
      destruct (contract s i n o w fuel st0)
        as (tr & st1 & Hlog & [Hapi Hbal] & Hr); [leaves_code|]
  | |- context [exec_block ?w ?fuel (de_block (?m ?s ?p ?i ?n ?o ?t)) ?st0] =>
      destruct (contract s p i n o t w fuel st0)
        as (tr & st1 & Hlog & [Hapi Hbal] & Hr); [leaves_code|leaves_code|]
  end;
  cbv zeta in Hr; unfold write, record in Hlog; cbn [log] in Hlog;
  rewrite <- ?app_assoc in Hlog.

Ltac out_of_fuel Hr :=
  match goal with
  | |- context [match ?r with _ => _ end] =>
      destruct r as [[] ?]; cbn in Hr; discriminate
  end.

Lemma object_get_balanced property handler_name w fuel st z st' :
  exec_block w fuel (object_get_body property handler_name) st = (Ret z, st') ->
  exists tr, log st' = log st ++ tr /\ track [] tr = Some [].
Proof using marshal_ok.
  unfold object_get_body, object_get_code_block, object_asserts.
  cbn [app]. rewrite <- ?app_assoc. cbn [app]. run.
  destruct (w (pos st) <? 0); run; [returned; checked|].
  destruct (w (S (pos st)) =? 0) eqn:Eopen; run; [returned; checked|].
  rewrite exec_block_app. unfold object_get_marshalled.
  fragment_of marshal_ok tr st1 Hlog Hapi Hbal Hr. destruct Hr as [Hr|[Hr|Hr]].
  - rewrite Hr. run.
    destruct (w (pos st1) =? 0); run; returned; checked.
  - rewrite Hr. unfold object_get_oom_error_code. run. returned; checked.
  - out_of_fuel Hr.
Qed.

Lemma exec_asserts {A} (f : A -> string) (l : list A) w fuel st :
  exec_block w fuel (map (fun x => SAssert (f x)) l) st = (Fall, st).
Proof. induction l as [|a l IH]; [reflexivity | exact IH]. Qed.

Lemma proxy_set_balanced interface_name property w fuel st z st' :
  exec_block w fuel (proxy_set_body interface_name property) st
  = (Ret z, st') ->
  exists tr, log st' = log st ++ tr /\ track [] tr = Some [].
Proof using marshal_ok.
  unfold proxy_set_body, proxy_set_assert_block.
  cbn [app exec_block exec]. rewrite exec_block_app, exec_asserts.
  unfold proxy_set_marshal_block, proxy_construct_block,
    proxy_set_call_block, proxy_send_block, proxy_reply_error_code,
    proxy_type_error_code.
  cbn [app]. rewrite <- ?app_assoc. cbn [app]. run.
  destruct (w (pos st) =? 0); run; [returned; checked|].
  destruct (w (S (S (pos st))) =? 0); run; [returned; checked|].
  destruct (w (S (S (S (pos st)))) =? 0); run; [returned; checked|].
  destruct (w (S (S (S (S (pos st))))) =? 0) eqn:Eopen; run;
    [returned; checked|].
  rewrite exec_block_app. unfold proxy_set_marshalled.
  fragment_of marshal_ok tr st1 Hlog Hapi Hbal Hr.
  destruct Hr as [Hr|[Hr|Hr]].
  - rewrite Hr. run.
    destruct (w (pos st1) =? 0); run; [returned; checked|].
    destruct (w (S (S (pos st1))) =? 0); run.
    { destruct (w (S (S (S (S (pos st1))))) =? 0); run; returned; checked. }
    destruct (w (S (S (S (S (S (pos st1)))))) =? 0); run;
      returned; checked.
  - rewrite Hr. unfold proxy_set_oom_error_code. run. returned; checked.
  - out_of_fuel Hr.
Qed.

Lemma balanced_app a b : balanced a -> balanced b -> balanced (a ++ b).
Proof. intros Ha Hb open. rewrite track_app, Ha. apply Hb. Qed.

Lemma object_set_balanced property handler_name w fuel st z st' :
  exec_block w fuel (object_set_body property handler_name) st
  = (Ret z, st') ->
  exists tr, log st' = log st ++ tr /\ track [] tr = Some [].
Proof using demarshal_ok.
  unfold object_set_body, object_set_demarshal_block, object_set_call_block,
    object_asserts, object_set_type_error_code.
  cbn [app]. rewrite <- ?app_assoc. cbn [app]. run.
  destruct (w (pos st) =? 118); run; [|returned; checked].
  rewrite exec_block_app. unfold object_set_demarshalled.
  fragment_of demarshal_ok tr st1 Hlog Hapi Hbal Hr.
  destruct Hr as [Hr|[Hr|[Hr|Hr]]].
  - rewrite Hr. run.
    destruct (w (S (pos st1)) =? 0); run; [|returned; checked].
    destruct (w (S (S (pos st1))) <? 0); run; returned; checked.
  - rewrite Hr. unfold object_set_oom_error_code. run. returned; checked.
  - rewrite Hr. unfold object_set_type_error_code. run. returned; checked.
  - out_of_fuel Hr.
Qed.

(** The copies from the local variables to the outputs make no call. *)
Lemma exec_copies (f g : TypeVar -> string) (l : list TypeVar) w fuel st :
  exists st1,
    exec_block w fuel (map (fun var => SAssign (f var) (EVar (g var))) l) st
    = (Fall, st1)
    /\ log st1 = log st /\ pos st1 = pos st.
Proof.
  revert st. induction l as [|a l IH]; intros st.
  - exists st. repeat split.
  - cbn [map exec_block exec eval].
    destruct (IH (write (f a) (read st (g a)) st)) as (st1 & E & Hl & Hp).
    exists st1. repeat split; assumption.
Qed.

Lemma proxy_get_loop_balanced property w fuel n : forall st o st',
  do_while w fuel "enomem" (proxy_get_block property)
    (ENot (EVar "*value")) n st = (o, st') ->
  o = OutOfFuel
  \/ (exists tr, log st' = log st ++ tr /\ balanced tr)
     /\ (o = Fall \/ exists z, o = Ret z).
Proof using demarshal_ok.
  induction n as [|n IH]; intros st o st' H.
  - cbn in H. injection H as <- <-. left. reflexivity.
  - cbn [do_while] in H. unfold proxy_get_block in H.
    rewrite exec_block_app in H. unfold proxy_get_demarshalled in H.
    match type of H with
    | context [exec_block ?w ?fuel (de_block (?m ?s ?p ?i ?nm ?oo ?t)) ?st0] =>
        destruct (demarshal_ok s p i nm oo t w fuel st0)
          as (tr & st1 & Hlog & [Hapi Hbal] & Hr);
          [leaves_code|leaves_code|]
    end.
    cbv zeta in Hr.
    assert (Hagain : forall st2, log st2 = log st1 ->
              (let '(v, st3) := eval w (ENot (EVar "*value")) st2 in
               if v =? 0 then (Fall, st3)
               else do_while w fuel "enomem"
                      (de_block (demarshal (p_type property) "parent"
                                   "variter" "local" proxy_get_oom_error_code
                                   proxy_type_error_code)
                       ++ [SBlank]
                       ++ map (fun var =>
                                 SAssign ("*" +:+ proxy_get_arg_name var)
                                   (EVar (tv_name var)))
                            (de_outputs
                               (demarshal (p_type property) "parent"
                                  "variter" "local" proxy_get_oom_error_code
                                  proxy_type_error_code)))
                      (ENot (EVar "*value")) n st3) = (o, st') ->
              o = OutOfFuel
              \/ (exists tr, log st' = log st ++ tr /\ balanced tr)
                 /\ (o = Fall \/ exists z, o = Ret z)).
    { intros st2 Hl2. cbn [eval].
      destruct (truth (read st2 "*value" =? 0) =? 0).
      - intros [= <- <-]. right. split; [|left; reflexivity].
        exists tr. split; [congruence | exact Hbal].
      - intros H2. destruct (IH _ _ _ H2) as [->|[(tr2 & Hl & Hb) Ho]];
          [left; reflexivity|].
        right. split; [|exact Ho].
        exists (tr ++ tr2). split.
        + rewrite Hl, Hl2, Hlog, app_assoc. reflexivity.
        + apply balanced_app; assumption. }
    destruct Hr as [Hr|[Hr|[Hr|Hr]]].
    + rewrite Hr in H. cbn [app exec_block exec] in H.
      match type of H with
      | context [exec_block ?w ?fuel (map ?c ?l) ?st0] =>
          destruct (exec_copies (fun var => "*" +:+ proxy_get_arg_name var)
                      tv_name l w fuel st0) as (st2 & E & Hl2 & _)
      end.
      rewrite E in H. exact (Hagain st2 Hl2 H).
    + change (exec_block w fuel proxy_get_oom_error_code st1)
        with (Jump "enomem", write "*value" 0 st1) in Hr.
      rewrite Hr in H.
      change (String.eqb "enomem" "enomem") with true in H.
      apply (Hagain (write "*value" 0 st1) eq_refl H).
    + change (exec_block w fuel proxy_type_error_code st1)
        with (Ret (-1),
              record {| ev_kind := Api; ev_fn := "nih_return_error";
                        ev_args := [Z_to_string (-1); "NIH_DBUS_INVALID_ARGS";
                                    "_(NIH_DBUS_INVALID_ARGS_STR)"];
                        ev_result := 0 |}
                (record {| ev_kind := Api; ev_fn := "dbus_message_unref";
                           ev_args := ["reply"];
                           ev_result := w (pos st1) |}
                   {| pos := S (pos st1); store := store st1;
                      log := log st1 |})) in Hr.
      rewrite Hr in H. injection H as <- <-. right. split; [|right; eexists; reflexivity].
      eexists. split.
      * unfold record. cbn [log]. rewrite Hlog, <- !app_assoc. reflexivity.
      * apply balanced_app; [exact Hbal|]. intros open. reflexivity.
    + left. destruct (exec_block w fuel _ st) as [[] ?]; cbn in Hr;
        try discriminate. injection H as <- _. reflexivity.
Qed.

Lemma proxy_get_balanced interface_name property w fuel st z st' :
  exec_block w fuel (proxy_get_body interface_name property) st
  = (Ret z, st') ->
  exists tr, log st' = log st ++ tr /\ track [] tr = Some [].
Proof using demarshal_ok.
  unfold proxy_get_body, proxy_get_assert_block.
  cbn [app exec_block exec]. rewrite exec_block_app, exec_asserts.
  unfold proxy_get_call_block, proxy_construct_block, proxy_send_block,
    proxy_reply_error_code, proxy_get_demarshal_block, proxy_type_error_code.
  cbn [app]. rewrite <- ?app_assoc. cbn [app]. run.
  destruct (w (pos st) =? 0); run; [returned; checked|].
  destruct (w (S (S (pos st))) =? 0); run; [returned; checked|].
  destruct (w (S (S (S (pos st)))) =? 0); run; [returned; checked|].
  destruct (w (S (S (S (S (S (pos st)))))) =? 0); run.
  { destruct (w (S (S (S (S (S (S (S (pos st)))))))) =? 0); run;
      returned; checked. }
  destruct (w (S (S (S (S (S (S (S (S (pos st))))))))) =? 118); run;
    [|returned; checked].
  destruct (w (S (S (S (S (S (S (S (S (S (S (S (pos st)))))))))))) =? 0);
    run; [|returned; checked].
  unfold proxy_get_loop. rewrite exec_do_while.
  match goal with
  | |- context [do_while ?w ?fuel ?l ?b ?c ?n ?st0] =>
      destruct (do_while w fuel l b c n st0) as [o st2] eqn:Hloop;
      destruct (proxy_get_loop_balanced property w fuel n st0 o st2 Hloop)
        as [->|[(tr & Hlog & Hbal) [->|[z0 ->]]]]
  end; run; try discriminate.
  - cbn [log] in Hlog. rewrite <- ?app_assoc in Hlog. returned. checked.
  - cbn [log] in Hlog. rewrite <- ?app_assoc in Hlog. returned. checked.
Qed.

(** C1, as amended.  Along every run of any of the four generated
    functions that returns, the calls that open and close containers are
    properly nested: a close call is always for the container that was
    opened last and is still open, and none is open at the return.  Hence
    every container is closed exactly as often as a call opened it.  (An
    open call that returns FALSE opens nothing and is not followed by a
    close call.) *)
Theorem stubs_balanced interface_name property handler_name body
    w fuel st z st' :
  In body [ object_get_body property handler_name;
            object_set_body property handler_name;
            proxy_get_body interface_name property;
            proxy_set_body interface_name property ] ->
  exec_block w fuel body st = (Ret z, st') ->
  exists tr,
    log st' = log st ++ tr
    /\ track [] tr = Some []
    /\ forall c, opened c tr = close_calls c tr.
Proof using marshal_ok demarshal_ok.
  intros Hin Hrun.
  assert (H : exists tr, log st' = log st ++ tr /\ track [] tr = Some []).
  { cbn [In] in Hin. destruct Hin as [<-|[<-|[<-|[<-|[]]]]].
    - exact (object_get_balanced _ _ _ _ _ _ _ Hrun).
    - exact (object_set_balanced _ _ _ _ _ _ _ Hrun).
    - exact (proxy_get_balanced _ _ _ _ _ _ _ Hrun).
    - exact (proxy_set_balanced _ _ _ _ _ _ _ Hrun). }
  destruct H as (tr & Hlog & Htrack). exists tr.
  split; [exact Hlog|]. split; [exact Htrack|]. exact (track_closed tr Htrack).
Qed.

(** A list of calls of library functions. *)
Ltac api_only :=
  unfold no_handler in *;
  repeat first
    [ assumption
    | apply Forall_app; split
    | constructor; [reflexivity|]
    | constructor ].

(** C3.  The setter of an object takes the type of its argument first: if
    that is not a variant, it raises the D-Bus invalid-arguments error with
    the text naming the property and returns -1.  Otherwise it recurses
    into the variant and runs the demarshalling code for the property's
    signature; if that code gives up through its type-error code, or if it
    runs to its end and an argument follows the variant, the same error is
    raised and -1 returned; in none of these runs is the handler called.
    If all the checks pass, the handler is called, once and as the last
    call, on the outputs of the demarshalling code.  Conversely a run that
    returns has either made no call of the handler, or all the checks have
    passed. *)
Theorem object_set_checks property handler_name w fuel st :
  let r := exec_block w fuel (object_set_body property handler_name) st in
  let st2 := object_set_recursed w st in
  let rd :=
    exec_block w fuel (de_block (object_set_demarshalled property)) st2 in
  (w (pos st) <> dbus_type_code DBUS_TYPE_VARIANT ->
   fails_with_invalid_args property st r)
  /\ (w (pos st) = dbus_type_code DBUS_TYPE_VARIANT ->
      forall tr st1,
        log st1 = log st2 ++ tr -> fragment_trace tr ->
        (rd = exec_block w fuel (object_set_type_error_code property) st1 ->
         fails_with_invalid_args property st r)
        /\ (rd = (Fall, st1) ->
            w (S (pos st1)) <> dbus_type_code DBUS_TYPE_INVALID ->
            fails_with_invalid_args property st r)
        /\ (rd = (Fall, st1) ->
            w (S (pos st1)) = dbus_type_code DBUS_TYPE_INVALID ->
            calls_handler property handler_name st r))
  /\ (forall z, fst r = Ret z ->
      (exists tr, log (snd r) = log st ++ tr /\ no_handler tr)
      \/ (w (pos st) = dbus_type_code DBUS_TYPE_VARIANT
          /\ exists st1,
               rd = (Fall, st1)
               /\ w (S (pos st1)) = dbus_type_code DBUS_TYPE_INVALID)).
Proof using demarshal_ok.
  intros r st2 rd.
  assert (Hst2 : {| pos := S (S (pos st)); store := store st;
                    log := (log st
                            ++ [called "dbus_message_iter_get_arg_type"
                                  ["iter"] (w (pos st))])
                           ++ [called "dbus_message_iter_recurse"
                                 ["iter"; "&variter"] (w (S (pos st)))] |}
                 = st2).
  { unfold st2, object_set_recursed, after. cbn [Nat.add].
    rewrite <- app_assoc. reflexivity. }
  assert (Hr : r = if w (pos st) =? 118
                   then match rd with
                        | (Fall, st1) =>
                            exec_block w fuel
                              (object_set_call_block property handler_name
                               ++ [SBlank; SReturn 0]) st1
                        | other => other
                        end
                   else exec_block w fuel
                          (object_set_type_error_code property)
                          (record (called "dbus_message_iter_get_arg_type"
                                     ["iter"] (w (pos st)))
                             (snd (ask w st)))).
  { unfold r, rd, object_set_body, object_set_demarshal_block, object_asserts.
    cbn [app]. rewrite <- ?app_assoc. cbn [app]. run.
    destruct (w (pos st) =? 118); run; [|reflexivity].
    fold (called "dbus_message_iter_get_arg_type" ["iter"] (w (pos st))).
    fold (called "dbus_message_iter_recurse" ["iter"; "&variter"]
            (w (S (pos st)))).
    rewrite Hst2, exec_block_app.
    destruct (exec_block w fuel (de_block (object_set_demarshalled property))
                st2) as [[] st1]; reflexivity. }
  assert (Hcall : forall tr st1,
             log st1 = log st2 ++ tr -> no_handler tr ->
             let rc := exec_block w fuel
                         (object_set_call_block property handler_name
                          ++ [SBlank; SReturn 0]) st1 in
             (w (S (pos st1)) <> 0 -> fails_with_invalid_args property st rc)
             /\ (w (S (pos st1)) = 0 ->
                 calls_handler property handler_name st rc)).
  { intros tr st1 Hlog Hapi rc. unfold rc, object_set_call_block,
      object_set_type_error_code. cbn [app]. run.
    split; intros Hz.
    - apply Z.eqb_neq in Hz. rewrite Hz. run. split; [reflexivity|].
      cbn [snd log]. rewrite Hlog. unfold st2, object_set_recursed, after.
      cbn [log]. rewrite <- ?app_assoc. cbn [app].
      eexists (_ :: _ :: tr ++ [_; _]), _. cbn [app]. rewrite <- ?app_assoc.
      cbn [app]. split; [reflexivity|]. api_only.
    - rewrite Hz. run. unfold calls_handler.
      destruct (w (S (S (pos st1))) <? 0) eqn:Eh; run;
        (eexists (_ :: _ :: tr ++ [_; _]), _; cbn [snd fst log];
         rewrite Hlog; unfold st2, object_set_recursed, after; cbn [log];
         cbn [app]; rewrite <- ?app_assoc; cbn [app];
         split; [reflexivity|]; split; [api_only|]; rewrite Eh; reflexivity). }
  assert (Htype : forall tr st1,
             log st1 = log st2 ++ tr -> no_handler tr ->
             fails_with_invalid_args property st
               (exec_block w fuel (object_set_type_error_code property) st1)).
  { intros tr st1 Hlog Hapi. unfold object_set_type_error_code. run.
    split; [reflexivity|]. cbn [snd log]. rewrite Hlog.
    unfold st2, object_set_recursed, after. cbn [log].
    rewrite <- ?app_assoc. cbn [app].
    eexists (_ :: _ :: tr), _. cbn [app]. split; [reflexivity|]. api_only. }
  cbn [dbus_type_code]. split; [|split].
  - intros Hv. apply Z.eqb_neq in Hv. rewrite Hr, Hv.
    unfold object_set_type_error_code. run. split; [reflexivity|].
    cbn [snd log]. rewrite <- ?app_assoc. cbn [app].
    eexists [_], _. cbn [app]. split; [reflexivity|]. api_only.
  - intros Hv tr st1 Hlog [Hapi _]. apply Z.eqb_eq in Hv. rewrite Hr, Hv.
    split; [|split].
    + intros E. rewrite E. generalize (Htype tr st1 Hlog Hapi).
      unfold object_set_type_error_code. run. exact (fun H => H).
    + intros E Hz. rewrite E. exact (proj1 (Hcall tr st1 Hlog Hapi) Hz).
    + intros E Hz. rewrite E. exact (proj2 (Hcall tr st1 Hlog Hapi) Hz).
  - intros z Hz. rewrite Hr in Hz |- *.
    destruct (w (pos st) =? 118) eqn:Hv.
    + unfold rd in *. unfold object_set_demarshalled in *.
      destruct (demarshal_ok (p_type property) "message" "variter" "value"
                  object_set_oom_error_code
                  (object_set_type_error_code property) w fuel st2)
        as (tr & st1 & Hlog & [Hapi Hbal] & Hd);
        [leaves_code|leaves_code|].
      cbv zeta in Hd. destruct Hd as [Hd|[Hd|[Hd|Hd]]].
      * rewrite Hd in Hz |- *.
        destruct (Z.eq_dec (w (S (pos st1))) 0) as [Ez|Ez].
        { right. split; [apply Z.eqb_eq; exact Hv|]. exists st1. split;
            [reflexivity | exact Ez]. }
        left. destruct (proj1 (Hcall tr st1 Hlog Hapi) Ez)
          as (_ & tr' & x & E & Hn).
        eexists. split; [exact E|]. api_only.
      * left. rewrite Hd. unfold object_set_oom_error_code. run.
        cbn [snd log]. rewrite Hlog. unfold st2, object_set_recursed, after.
        cbn [log]. rewrite <- ?app_assoc. cbn [app].
        eexists. split; [reflexivity|]. api_only.
      * left. rewrite Hd. generalize (Htype tr st1 Hlog Hapi).
        unfold object_set_type_error_code. run.
        intros (_ & tr' & x & E & Hn).
        eexists. split; [exact E|]. api_only.
      * exfalso. destruct (exec_block w fuel _ st2) as [[] ?];
          cbn in Hd, Hz; discriminate.
    + left. unfold object_set_type_error_code. run. cbn [snd log].
      rewrite <- ?app_assoc. cbn [app].
      eexists. split; [reflexivity|]. api_only.
Qed.

Lemma proxy_send_fails w fuel rest st1 :
  w (S (pos st1)) = 0 ->
  exec_block w fuel (proxy_send_block ++ rest) st1 = reply_error w st1.
Proof.
  intros Hnull. unfold proxy_send_block, proxy_reply_error_code, reply_error,
    reply_error_calls, after, called.
  cbn [app]. run. rewrite Hnull. run. cbn [Nat.add].
  destruct (w (S (S (S (pos st1)))) =? 0); run;
    rewrite <- ?app_assoc; cbn [app]; rewrite ?Hnull; reflexivity.
Qed.

(** C4.  Both client functions are the code run before the send, the send
    block, and the code run after it.  When the code before the send has
    run to its end and the blocking send returns no reply, either function
    releases the method call and asks whether the error has the name of
    the D-Bus no-memory error: if so it raises the local no-memory error,
    if not it raises the error made of the remote error's name and
    message; either way it frees the error and returns -1. *)
Theorem proxy_reply_error_translated interface_name property w fuel st st1 :
  w (S (pos st1)) = 0 ->
  (proxy_get_body interface_name property
   = proxy_get_before_send interface_name property
     ++ proxy_send_block ++ proxy_get_after_send property
   /\ (exec_block w fuel (proxy_get_before_send interface_name property) st
       = (Fall, st1) ->
       exec_block w fuel (proxy_get_body interface_name property) st
       = reply_error w st1))
  /\ (proxy_set_body interface_name property
      = proxy_set_before_send interface_name property
        ++ proxy_send_block ++ proxy_set_after_send
      /\ (exec_block w fuel (proxy_set_before_send interface_name property) st
          = (Fall, st1) ->
          exec_block w fuel (proxy_set_body interface_name property) st
          = reply_error w st1)).
Proof.
  intros Hnull.
  assert (Hget : proxy_get_body interface_name property
                 = proxy_get_before_send interface_name property
                   ++ proxy_send_block ++ proxy_get_after_send property).
  { unfold proxy_get_body, proxy_get_before_send, proxy_get_after_send,
      proxy_get_call_block. rewrite <- !app_assoc. reflexivity. }
  assert (Hset : proxy_set_body interface_name property
                 = proxy_set_before_send interface_name property
                   ++ proxy_send_block ++ proxy_set_after_send).
  { unfold proxy_set_body, proxy_set_before_send, proxy_set_after_send,
      proxy_set_call_block. rewrite <- !app_assoc. reflexivity. }
  split; (split; [assumption|]); intros Hbefore.
  - rewrite Hget, exec_block_app, Hbefore. exact (proxy_send_fails _ _ _ _ Hnull).
  - rewrite Hset, exec_block_app, Hbefore. exact (proxy_send_fails _ _ _ _ Hnull).
Qed.

(** C7.  The getter of a proxy runs the demarshalling code, followed by
    the copies to the outputs, as the body of a loop
    [do { ... enomem: ; } while (! *value)].  The out-of-memory code given
    to [demarshal] sets [*value] to null and jumps to the label at the end
    of that body, so that a turn in which the demarshalling code gives up
    for want of memory is followed by another turn.  After a turn that
    reached the end of the body, by falling through or by that jump, the
    loop is left if [*value] is not null and goes on if it is null.  (A
    turn that returns, as the type-error code does, leaves the function.) *)
Theorem proxy_get_loop_retries property w fuel :
  let d := proxy_get_demarshalled property in
  let body := proxy_get_block property in
  let loop := do_while w fuel "enomem" body (ENot (EVar "*value")) in
  In (proxy_get_loop property) (proxy_get_demarshal_block property)
  /\ body
     = de_block d ++ [SBlank]
       ++ map (fun var => SAssign ("*" +:+ proxy_get_arg_name var)
                            (EVar (tv_name var)))
            (de_outputs d)
  /\ d = demarshal (p_type property) "parent" "variter" "local"
           proxy_get_oom_error_code proxy_type_error_code
  /\ (forall st, exec w fuel (proxy_get_loop property) st = loop fuel st)
  /\ (forall st,
        exec_block w fuel proxy_get_oom_error_code st
        = (Jump "enomem", write "*value" 0 st))
  /\ (forall n st st1,
        exec_block w fuel (de_block d) st
        = exec_block w fuel proxy_get_oom_error_code st1 ->
        loop (S n) st = loop n (write "*value" 0 st1))
  /\ (forall n st st1,
        exec_block w fuel body st = (Fall, st1)
        \/ exec_block w fuel body st = (Jump "enomem", st1) ->
        loop (S n) st
        = if read st1 "*value" =? 0 then loop n st1 else (Fall, st1))
  /\ (forall n st z st1,
        exec_block w fuel body st = (Ret z, st1) ->
        loop (S n) st = (Ret z, st1)).
Proof.
  intros d body loop.
  assert (Hagain : forall n st1,
             (let '(v, st2) := eval w (ENot (EVar "*value")) st1 in
              if v =? 0 then (Fall, st2) else loop n st2)
             = if read st1 "*value" =? 0 then loop n st1 else (Fall, st1)).
  { intros n st1. cbn [eval]. destruct (read st1 "*value" =? 0); reflexivity. }
  split; [|split; [|split; [|split; [|split; [|split; [|split]]]]]].
  - unfold proxy_get_demarshal_block. cbn [In]. tauto.
  - reflexivity.
  - reflexivity.
  - intros st. apply exec_do_while.
  - intros st. reflexivity.
  - intros n st st1 Hoom. unfold loop at 1. cbn [do_while].
    fold loop. unfold body at 1, proxy_get_block.
    fold d. rewrite exec_block_app, Hoom.
    change (exec_block w fuel proxy_get_oom_error_code st1)
      with (Jump "enomem", write "*value" 0 st1).
    change (String.eqb "enomem" "enomem") with true. cbv iota beta.
    rewrite Hagain. unfold read, write. cbn [store].
    rewrite lookup_insert_eq. reflexivity.
  - intros n st st1 Hend. unfold loop at 1. cbn [do_while]. fold loop.
    destruct Hend as [-> | ->].
    + apply Hagain.
    + change (String.eqb "enomem" "enomem") with true. cbv iota beta.
      apply Hagain.
  - intros n st z st1 Hret. unfold loop. cbn [do_while]. rewrite Hret.
    reflexivity.
Qed.

Lemma fold_add_arg_attribs (g : TypeVar -> TypeVar) (l : list TypeVar) :
  forall func,
    tf_attribs (fold_left (fun f var => add_arg (g var) f) l func)
    = tf_attribs func.
Proof.
  induction l as [|a l IH]; intros func; [reflexivity|].
  cbn [fold_left]. rewrite IH. reflexivity.
Qed.

Lemma proxy_func_attribs property name :
  tf_attribs (proxy_func property name)
  = "warn_unused_result"
    :: (if p_deprecated property then ["deprecated"] else []).
Proof. unfold proxy_func. destruct (p_deprecated property); reflexivity. Qed.

Lemma proxy_attribs_spec property (func : TypeFunc) :
  tf_attribs func
  = "warn_unused_result"
    :: (if p_deprecated property then ["deprecated"] else []) ->
  carries "warn_unused_result" func
  /\ (carries "deprecated" func <-> p_deprecated property = true).
Proof.
  unfold carries. intros ->. split; [left; reflexivity|].
  destruct (p_deprecated property); cbn [In]; split;
    try reflexivity; try discriminate.
  - intros _. right. left. reflexivity.
  - intros [E|[]]. discriminate.
Qed.

(** C8.  Each of the four generators adds one prototype to the list it is
    given.  That of either client function carries the attribute
    [warn_unused_result] whatever the property, and the attribute
    [deprecated] if and only if the property is marked deprecated; that of
    either function of the object carries no attribute at all, whether the
    property is deprecated or not. *)
Theorem deprecated_attribute interface_name property name handler_name
    prototypes handlers :
  exists get set object_get object_set,
    g_prototypes (property_proxy_get_sync_function interface_name property
                    name prototypes)
    = prototypes ++ [get]
    /\ g_prototypes (property_proxy_set_sync_function interface_name property
                       name prototypes)
       = prototypes ++ [set]
    /\ g_prototypes (property_object_get_function property name handler_name
                       prototypes handlers)
       = prototypes ++ [object_get]
    /\ g_prototypes (property_object_set_function property name handler_name
                       prototypes handlers)
       = prototypes ++ [object_set]
    /\ carries "warn_unused_result" get
    /\ carries "warn_unused_result" set
    /\ (carries "deprecated" get <-> p_deprecated property = true)
    /\ (carries "deprecated" set <-> p_deprecated property = true)
    /\ tf_attribs object_get = []
    /\ tf_attribs object_set = []
    /\ ~ carries "deprecated" object_get
    /\ ~ carries "deprecated" object_set.
Proof.
  clear dbus_signature_validate_single symbol_from_name.
  do 4 eexists.
  split; [reflexivity|]. split; [reflexivity|].
  split; [reflexivity|]. split; [reflexivity|].
  assert (Hget : forall func : TypeFunc,
             tf_attribs func = tf_attribs (proxy_func property name) ->
             carries "warn_unused_result" func
             /\ (carries "deprecated" func <-> p_deprecated property = true)).
  { intros func E. apply proxy_attribs_spec. rewrite E.
    apply proxy_func_attribs. }
  match goal with
  | |- carries _ ?g /\ carries _ ?s /\ _ =>
      destruct (Hget g) as [Hg1 Hg2];
        [etransitivity;
         [apply (fold_add_arg_attribs
                   (fun var => type_var_new (type_to_pointer (tv_type var))
                                 (proxy_get_arg_name var)))
         |reflexivity]|];
      destruct (Hget s) as [Hs1 Hs2];
        [etransitivity;
         [apply (fold_add_arg_attribs (fun var => var))|reflexivity]|]
  end.
  repeat split; try assumption; try apply Hg2; try apply Hs2;
    unfold carries; cbn; tauto.
Qed.

Lemma exec_store_outputs (l : list TypeVar) w fuel : forall st,
  exec_block w fuel
    (map (fun var => SAssign ("*" +:+ proxy_get_arg_name var)
                       (EVar (tv_name var))) l) st
  = (Fall, store_outputs l st).
Proof.
  induction l as [|a l IH]; intros st; [reflexivity|].
  cbn [map exec_block exec eval]. rewrite IH. reflexivity.
Qed.

Lemma exec_type_error w fuel st :
  exec_block w fuel proxy_type_error_code st = reply_rejected w st.
Proof.
  unfold proxy_type_error_code, reply_rejected, after, returned_invalid_args,
    called. run. rewrite <- ?app_assoc. reflexivity.
Qed.

(** C2.  Once the reply has come back, the getter of a proxy releases the
    method call and takes the type of the first argument of the reply: if
    that is not a variant, it releases the reply, raises the error of the
    invalid-arguments domain and returns -1.  Otherwise it recurses into
    the variant and steps over it: if an argument follows, it fails in the
    same way.  Otherwise it runs the loop, whose body is the code
    [demarshal] gives for the signature of the property, with [parent] as
    the parent of what it allocates, reading from the iterator of the
    variant; when that code runs to its end, each of its outputs is stored
    through the matching argument of the function; when it gives up
    through its type-error code, the function fails as above.  Once the
    loop is left, the reply is released and 0 returned; in particular so
    when the first turn of the loop stores a non-null value. *)
Theorem proxy_get_reply_checked property w fuel st :
  let d := proxy_get_demarshalled property in
  let r := exec_block w fuel (proxy_get_after_send property) st in
  let variant := w (2 + pos st)%nat in
  let trailing := w (5 + pos st)%nat in
  let st3 := after st 6 (proxy_get_reply_calls w st) in
  let released st4 :=
    after st4 1 [called "dbus_message_unref" ["reply"] (w (pos st4))] in
  d = demarshal (p_type property) "parent" "variter" "local"
        proxy_get_oom_error_code proxy_type_error_code
  /\ (variant <> dbus_type_code DBUS_TYPE_VARIANT -> rejects_reply st r)
  /\ (variant = dbus_type_code DBUS_TYPE_VARIANT ->
      trailing <> dbus_type_code DBUS_TYPE_INVALID -> rejects_reply st r)
  /\ (variant = dbus_type_code DBUS_TYPE_VARIANT ->
      trailing = dbus_type_code DBUS_TYPE_INVALID ->
      r = match exec w fuel (proxy_get_loop property) st3 with
          | (Fall, st4) => (Ret 0, released st4)
          | other => other
          end)
  /\ (forall st0 st1,
        exec_block w fuel (de_block d) st0 = (Fall, st1) ->
        exec_block w fuel (proxy_get_block property) st0
        = (Fall, store_outputs (de_outputs d) st1))
  /\ (forall var st1,
        read (store_outputs [var] st1) ("*" +:+ proxy_get_arg_name var)
        = read st1 (tv_name var))
  /\ (forall st0 st1,
        exec_block w fuel (de_block d) st0
        = exec_block w fuel proxy_type_error_code st1 ->
        exec_block w fuel (proxy_get_block property) st0
        = reply_rejected w st1)
  /\ (variant = dbus_type_code DBUS_TYPE_VARIANT ->
      trailing = dbus_type_code DBUS_TYPE_INVALID ->
      forall n st1,
        fuel = S n ->
        exec_block w fuel (de_block d) st3 = (Fall, st1) ->
        read (store_outputs (de_outputs d) st1) "*value" <> 0 ->
        r = (Ret 0, released (store_outputs (de_outputs d) st1))).
Proof.
  intros d r variant trailing st3 released. cbn [dbus_type_code].
  assert (Hr : r = if variant =? 118
                   then if trailing =? 0
                        then match exec w fuel (proxy_get_loop property) st3
                             with
                             | (Fall, st4) => (Ret 0, released st4)
                             | other => other
                             end
                        else reply_rejected w st3
                   else reply_rejected w (after st 3
                          (firstn 3 (proxy_get_reply_calls w st)))).
  { unfold r, proxy_get_after_send, proxy_get_demarshal_block,
      proxy_type_error_code, reply_rejected, returned_invalid_args.
    cbn [app]. unfold variant, trailing. cbn [Nat.add].
    run. rewrite <- ?app_assoc. cbn [app].
    destruct (w (S (S (pos st))) =? 118).
    - run. rewrite <- ?app_assoc. cbn [app].
      destruct (w (S (S (S (S (S (pos st)))))) =? 0).
      + run. unfold st3, after, proxy_get_reply_calls, called. cbn [Nat.add pos].
        destruct (exec w fuel (proxy_get_loop property) _) as [[] st4];
          reflexivity.
      + run. unfold st3, after, proxy_get_reply_calls, called.
        cbn [Nat.add pos log store]. rewrite <- ?app_assoc. reflexivity.
    - run. unfold after, proxy_get_reply_calls, called.
      cbn [Nat.add pos log store firstn]. rewrite <- ?app_assoc.
      reflexivity. }
  assert (Hblock : forall st0 st1,
             exec_block w fuel (de_block d) st0 = (Fall, st1) ->
             exec_block w fuel (proxy_get_block property) st0
             = (Fall, store_outputs (de_outputs d) st1)).
  { intros st0 st1 Hd. unfold proxy_get_block. fold d.
    rewrite exec_block_app, Hd. cbn [app exec_block exec].
    apply exec_store_outputs. }
  split; [reflexivity|]. split; [|split; [|split; [|split; [|split; [|split]]]]].
  - intros Hv. apply Z.eqb_neq in Hv. rewrite Hr, Hv.
    unfold reply_rejected, rejects_reply, after. cbn [fst snd store log].
    split; [reflexivity|]. split; [reflexivity|].
    eexists _, _. rewrite <- app_assoc. reflexivity.
  - intros Hv Ht. apply Z.eqb_eq in Hv. apply Z.eqb_neq in Ht.
    rewrite Hr, Hv, Ht.
    unfold reply_rejected, rejects_reply, st3, after. cbn [fst snd store log].
    split; [reflexivity|]. split; [reflexivity|].
    eexists _, _. rewrite <- app_assoc. reflexivity.
  - intros Hv Ht. apply Z.eqb_eq in Hv. apply Z.eqb_eq in Ht.
    rewrite Hr, Hv, Ht. reflexivity.
  - exact Hblock.
  - intros var st1. unfold store_outputs, write, read. cbn [fold_left store].
    rewrite lookup_insert_eq. reflexivity.
  - intros st0 st1 Hd. unfold proxy_get_block. fold d.
    rewrite exec_block_app, Hd, exec_type_error. reflexivity.
  - intros Hv Ht n st1 Hfuel Hd Hvalue. apply Z.eqb_eq in Hv.
    apply Z.eqb_eq in Ht. rewrite Hr, Hv, Ht. unfold proxy_get_loop.
    rewrite exec_do_while. rewrite Hfuel at 2. cbn [do_while]. rewrite (Hblock _ _ Hd).
    cbn [eval]. apply Z.eqb_neq in Hvalue. rewrite Hvalue. reflexivity.
Qed.

(** ** property_annotation *)

Lemma load_property_of h p x m :
  h !! p = Some x -> ctx_data x = VProperty m ->
  load_property h p = property_of h m.
Proof.
  intros Hp Hd. unfold load_property, property_of. rewrite Hp.
  destruct x as [? ? ? d]. cbn in Hd. subst d. reflexivity.
Qed.

Lemma load_property_block h p v :
  load_property h p = Some v ->
  exists x m, h !! p = Some x /\ ctx_data x = VProperty m
              /\ property_of h m = Some v.
Proof.
  intros L. unfold load_property in L.
  destruct (h !! p) as [[? ? ? [| m |]]|] eqn:Hp; try discriminate.
  eexists _, m. split; [reflexivity|]. split; [reflexivity|]. exact L.
Qed.

Lemma load_string_set_property p f w q :
  load_string (heap (set_property p f w)) q = load_string (heap w) q.
Proof.
  unfold load_string, set_property, with_heap. cbn [heap].
  rewrite lookup_alter. case_decide; [subst q|reflexivity].
  destruct (heap w !! p) as [[? ? ? []]|]; reflexivity.
Qed.

Lemma property_of_ext (h h' : gmap ptr NihAllocCtx) m :
  (forall q, load_string h' q = load_string h q) ->
  property_of h' m = property_of h m.
Proof.
  intros E. unfold property_of.
  destruct (m_name m), (m_type m); try reflexivity.
  rewrite !E. destruct (m_symbol m); [rewrite E|]; reflexivity.
Qed.

Lemma load_set_property p f w x m :
  heap w !! p = Some x -> ctx_data x = VProperty m ->
  load_property (heap (set_property p f w)) p = property_of (heap w) (f m).
Proof.
  intros Hp Hd.
  rewrite (load_property_of _ p (set_data (VProperty (f m)) x) (f m)).
  - apply property_of_ext. intros q. apply load_string_set_property.
  - unfold set_property, with_heap. cbn [heap].
    rewrite lookup_alter_eq, Hp. cbn. rewrite Hd. reflexivity.
  - reflexivity.
Qed.

Lemma set_property_other p f w q :
  q <> p -> heap (set_property p f w) !! q = heap w !! q.
Proof.
  intros Hq. unfold set_property, with_heap. cbn [heap].
  apply lookup_alter_ne. congruence.
Qed.

Lemma property_of_deprecated h m v d :
  property_of h m = Some v ->
  property_of h (set_deprecated d m) = Some (with_deprecated v d).
Proof.
  unfold property_of, set_deprecated, with_deprecated. cbn.
  destruct (m_name m), (m_type m); try discriminate.
  destruct (load_string h p), (load_string h p0); try discriminate.
  destruct (m_symbol m); [destruct (load_string h p1); try discriminate|];
    intros [= <-]; reflexivity.
Qed.

(** X1.  The annotation [org.freedesktop.DBus.Deprecated] with the value
    [true] or [false] sets the deprecated flag of the property to that
    value and returns 0 without raising an error; the name, type, access
    and symbol of the property stay as they were, no other block changes
    and no allocation is asked for. *)
Theorem property_annotation_deprecated symbol_valid p value w v :
  load_property (heap w) p = Some v ->
  value = "true" \/ value = "false" ->
  exists r,
    property_annotation symbol_valid p "org.freedesktop.DBus.Deprecated"
      value w = Some r
    /\ ar_ret r = 0 /\ ar_raised r = None
    /\ load_property (heap (ar_mem r)) p
       = Some (with_deprecated v (String.eqb value "true"))
    /\ answers (ar_mem r) = answers w
    /\ forall q, q <> p -> heap (ar_mem r) !! q = heap w !! q.
Proof.
  intros L Hvalue. destruct (load_property_block _ _ _ L) as (x & m & Hp & Hd & Hm).
  unfold property_annotation. rewrite Hp.
  destruct x as [xp xc xd d]. cbn in Hd. subst d.
  change (String.eqb "org.freedesktop.DBus.Deprecated"
            "org.freedesktop.DBus.Deprecated") with true. cbv iota.
  destruct Hvalue as [-> | ->]; cbn [String.eqb Ascii.eqb Bool.eqb];
    cbv iota; eexists; (split; [reflexivity|]); cbn [ar_ret ar_raised ar_mem];
    (split; [reflexivity|]); (split; [reflexivity|]);
    (split; [rewrite (load_set_property _ _ _ _ m Hp eq_refl);
             apply property_of_deprecated; exact Hm|]);
    (split; [reflexivity|]); intros q Hq; apply set_property_other; exact Hq.
Qed.
(** X2.  An annotation that is not accepted (a value of the deprecated
    annotation other than [true] and [false], a symbol that is not valid,
    an annotation of another name) makes [property_annotation] return -1
    with the matching error raised, the unknown-annotation error naming
    the property and the annotation; the memory is left as it was. *)
Theorem property_annotation_rejected symbol_valid p name value w v e :
  load_property (heap w) p = Some v ->
  annotation_rejection symbol_valid v name value = Some e ->
  property_annotation symbol_valid p name value w
  = Some {| ar_ret := -1; ar_mem := w; ar_raised := Some e |}.
Proof.
  intros L. destruct (load_property_block _ _ _ L) as (x & m & Hp & Hd & Hm).
  unfold property_annotation, annotation_rejection. rewrite Hp.
  destruct x as [xp xc xd d]. cbn in Hd. subst d.
  rewrite (the_name_load _ _ _ L).
  destruct (String.eqb name "org.freedesktop.DBus.Deprecated").
  - destruct (String.eqb value "true"); [discriminate|].
    destruct (String.eqb value "false"); [discriminate|].
    intros [= <-]. reflexivity.
  - destruct (String.eqb name "com.netsplit.Nih.Symbol").
    + destruct (symbol_valid value); [discriminate|].
      intros [= <-]. reflexivity.
    + intros [= <-]. reflexivity.
Qed.

Lemma nih_free_leaf (h : gmap ptr NihAllocCtx) s y k q :
  h !! s = Some y -> ctx_children y = [] ->
  nih_free_depth (S k) s h !! q = if decide (q = s) then None else h !! q.
Proof.
  intros Hs Hc. cbn [nih_free_depth]. rewrite Hs, Hc. cbn [foldl].
  rewrite lookup_delete. case_decide; case_decide; try congruence.
  destruct (ctx_destructor y) as [[]|]; [|reflexivity].
  unfold nih_list_remove, nih_list_init, set_node.
  apply lookup_alter_ne. congruence.
Qed.

Lemma load_string_eq (h h' : gmap ptr NihAllocCtx) q :
  h' !! q = h !! q -> load_string h' q = load_string h q.
Proof. unfold load_string. intros ->. reflexivity. Qed.

Lemma load_string_block h q s : load_string h q = Some s ->
  exists x, h !! q = Some x /\ ctx_data x = VString s.
Proof.
  unfold load_string. destruct (h !! q) as [[? ? ? []]|]; try discriminate.
  intros [= <-]. eexists. split; reflexivity.
Qed.

(** One of the alternatives of a disjunction holds outright. *)
Ltac one_of := first [assumption | reflexivity | left; one_of | right; one_of].

Lemma property_of_set_symbol (h h' : gmap ptr NihAllocCtx) m v s sym :
  property_of h m = Some v ->
  (forall q, m_name m = Some q \/ m_type m = Some q ->
             load_string h' q = load_string h q) ->
  load_string h' s = Some sym ->
  property_of h' (set_symbol s m) = Some (with_symbol v sym).
Proof.
  unfold property_of, set_symbol, with_symbol. cbn. intros Hm Hq Hs.
  destruct (m_name m) as [n|], (m_type m) as [t|]; try discriminate.
  rewrite (Hq n), (Hq t), Hs by one_of.
  destruct (load_string h n) as [name|], (load_string h t) as [type|];
    try discriminate.
  destruct (m_symbol m) as [old|];
    [destruct (load_string h old) as [symbol|]; try discriminate|];
    injection Hm as <-; reflexivity.
Qed.

Lemma property_of_clear_symbol (h h' : gmap ptr NihAllocCtx) m v :
  property_of h m = Some v ->
  (forall q, m_name m = Some q \/ m_type m = Some q ->
             load_string h' q = load_string h q) ->
  property_of h' (clear_symbol m) = Some (without_symbol v).
Proof.
  unfold property_of, clear_symbol, without_symbol. cbn. intros Hm Hq.
  destruct (m_name m) as [n|], (m_type m) as [t|]; try discriminate.
  rewrite (Hq n), (Hq t) by one_of.
  destruct (load_string h n) as [name|], (load_string h t) as [type|];
    try discriminate.
  destruct (m_symbol m) as [old|];
    [destruct (load_string h old) as [symbol|]; try discriminate|];
    injection Hm as <-; reflexivity.
Qed.

(** The strings a property is read through are string blocks, so none of
    them is the block of the property. *)
Lemma property_of_strings h p x m v q :
  h !! p = Some x -> ctx_data x = VProperty m ->
  property_of h m = Some v ->
  m_name m = Some q \/ m_type m = Some q \/ m_symbol m = Some q ->
  q <> p /\ exists s, load_string h q = Some s.
Proof.
  intros Hp Hd Hm Hq.
  assert (Hs : exists s, load_string h q = Some s).
  { unfold property_of in Hm.
    destruct (m_name m) as [n|], (m_type m) as [t|]; try discriminate.
    destruct (load_string h n) eqn:Ln, (load_string h t) eqn:Lt;
      try discriminate.
    destruct Hq as [[= <-]|[[= <-]|Hq]]; eauto.
    rewrite Hq in Hm. destruct (load_string h q); [eauto|discriminate]. }
  split; [|exact Hs]. intros ->. destruct Hs as [s Hs].
  unfold load_string in Hs. rewrite Hp in Hs.
  destruct x as [? ? ? d]. cbn in Hd. subst d. discriminate.
Qed.

(** The first step of the symbol annotation: the symbol the property has,
    if any, is released. *)
Lemma unref_symbol_spec p w x m v :
  heap w !! p = Some x -> ctx_data x = VProperty m ->
  property_of (heap w) m = Some v ->
  symbol_apart (heap w) p ->
  let w1 := match m_symbol m with
            | Some s => nih_unref s p w
            | None => w
            end in
  answers w1 = answers w
  /\ (exists x1, heap w1 !! p = Some x1 /\ ctx_data x1 = VProperty m)
  /\ (forall q, m_name m = Some q \/ m_type m = Some q ->
                load_string (heap w1) q = load_string (heap w) q)
  /\ (forall s, m_symbol m = Some s -> heap w1 !! s = None)
  /\ (forall q, q <> p -> m_symbol m <> Some q ->
                heap w1 !! q = heap w !! q).
Proof.
  intros Hp Hd Hm Hapart. destruct (m_symbol m) as [s|] eqn:Hs; cbv zeta.
  2:{ split; [reflexivity|]. split; [eauto|]. split; [reflexivity|].
      split; [discriminate|]. reflexivity. }
  destruct (Hapart x m s Hp Hd Hs) as (Hn & Ht & y & Hy & Hc).
  destruct (property_of_strings _ _ _ _ _ s Hp Hd Hm) as [Hsp _]; [one_of|].
  assert (Hlook : forall q,
             heap (nih_unref s p w) !! q
             = if decide (q = s) then None
               else alter (remove_child s) p (heap w) !! q).
  { intros q. unfold nih_unref, nih_free, with_heap. cbn [heap].
    apply (nih_free_leaf _ s y); [|exact Hc].
    rewrite lookup_alter_ne by congruence. exact Hy. }
  split; [reflexivity|]. split; [|split; [|split]].
  - exists (remove_child s x). rewrite Hlook. case_decide; [congruence|].
    rewrite lookup_alter_eq, Hp. split; [reflexivity|exact Hd].
  - intros q Hq. apply load_string_eq. rewrite Hlook.
    case_decide; [destruct Hq; congruence|].
    apply lookup_alter_ne.
    destruct (property_of_strings _ _ _ _ _ q Hp Hd Hm) as [Hqp _];
      [destruct Hq; one_of|congruence].
  - intros s0 [= <-]. rewrite Hlook. case_decide; congruence.
  - intros q Hqp Hqs. rewrite Hlook. case_decide; [congruence|].
    apply lookup_alter_ne. congruence.
Qed.

(** X3.  The annotation [com.netsplit.Nih.Symbol] with a valid symbol,
    when the copy of the symbol can be allocated, returns 0 without an
    error; the property then has that symbol, held in a block [s] of its
    own whose parent is the property, and its other members are as before.
    The block of the symbol it had before, if any, is freed, and every
    other block is as it was.  The new symbol is again a block apart, so
    that the annotation can be given again. *)
Theorem property_annotation_symbol symbol_valid p value w v :
  load_property (heap w) p = Some v ->
  symbol_apart (heap w) p ->
  symbol_valid value = true ->
  head (answers w) <> Some false ->
  exists r s,
    property_annotation symbol_valid p "com.netsplit.Nih.Symbol" value w
    = Some r
    /\ ar_ret r = 0 /\ ar_raised r = None
    /\ load_property (heap (ar_mem r)) p = Some (with_symbol v value)
    /\ (exists x m,
          heap (ar_mem r) !! p = Some x /\ ctx_data x = VProperty m
          /\ m_symbol m = Some s)
    /\ heap (ar_mem r) !! s
       = Some {| ctx_parent := Some p; ctx_children := [];
                 ctx_destructor := None; ctx_data := VString value |}
    /\ (forall x m q,
          heap w !! p = Some x -> ctx_data x = VProperty m ->
          q <> p -> q <> s ->
          heap (ar_mem r) !! q
          = if decide (m_symbol m = Some q) then None else heap w !! q)
    /\ symbol_apart (heap (ar_mem r)) p.
Proof.
  intros L Hapart Hvalid Hgranted.
  destruct (load_property_block _ _ _ L) as (x & m & Hp & Hd & Hm).
  destruct (unref_symbol_spec p w x m v Hp Hd Hm Hapart)
    as (Hans & (x1 & Hp1 & Hd1) & Hstr & Hfreed & Hother).
  unfold property_annotation. rewrite Hp.
  destruct x as [xp xc xd d]. cbn in Hd. subst d.
  change (String.eqb "com.netsplit.Nih.Symbol"
            "org.freedesktop.DBus.Deprecated") with false.
  change (String.eqb "com.netsplit.Nih.Symbol" "com.netsplit.Nih.Symbol")
    with true. cbv iota. rewrite Hvalid.
  set (w1 := match m_symbol m with
             | Some s => nih_unref s p w
             | None => w
             end) in *.
  unfold nih_strdup.
  rewrite nih_alloc_granted by (rewrite Hans; exact Hgranted).
  set (s := fresh (dom (heap w1))).
  assert (Hs1 : heap w1 !! s = None) by apply fresh_not_in.
  assert (Hsp : s <> p) by congruence.
  set (h3 := alter (add_child s) p
               (<[s := {| ctx_parent := Some p; ctx_children := [];
                          ctx_destructor := None;
                          ctx_data := VString value |}]> (heap w1))).
  assert (H3s : h3 !! s
                = Some {| ctx_parent := Some p; ctx_children := [];
                          ctx_destructor := None;
                          ctx_data := VString value |}).
  { unfold h3. rewrite lookup_alter_ne by congruence.
    apply lookup_insert_eq. }
  assert (H3p : h3 !! p = Some (add_child s x1)).
  { unfold h3. rewrite lookup_alter_eq, lookup_insert_ne by congruence.
    rewrite Hp1. reflexivity. }
  assert (H3str : forall q, m_name m = Some q \/ m_type m = Some q ->
                            load_string h3 q = load_string (heap w) q).
  { intros q Hq. rewrite <- (Hstr q Hq). apply load_string_eq.
    destruct (property_of_strings _ _ _ _ _ q Hp eq_refl Hm) as [Hqp [u Hu]];
      [destruct Hq; one_of|].
    unfold h3. rewrite lookup_alter_ne by congruence.
    apply lookup_insert_ne. intros <-.
    rewrite <- (Hstr s Hq) in Hu. unfold load_string in Hu.
    rewrite Hs1 in Hu. discriminate. }
  set (w3 := {| heap := h3; answers := tail (answers w1) |}).
  assert (Hw3 : heap w3 !! p = Some (add_child s x1)) by exact H3p.
  eexists _, s. split; [reflexivity|]. cbn [ar_ret ar_raised ar_mem].
  split; [reflexivity|]. split; [reflexivity|].
  assert (Hafter : heap (set_property p (set_symbol s) w3) !! p
                   = Some (set_data (VProperty (set_symbol s m))
                             (add_child s x1))).
  { unfold set_property, with_heap. cbn [heap].
    rewrite lookup_alter_eq, Hw3. cbn. rewrite Hd1. reflexivity. }
  split; [|split; [|split; [|split]]].
  - rewrite (load_set_property p (set_symbol s) w3 _ m Hw3 Hd1).
    apply (property_of_set_symbol (heap w) h3 m v s value Hm H3str).
    unfold load_string. rewrite H3s. reflexivity.
  - exists (set_data (VProperty (set_symbol s m)) (add_child s x1)),
      (set_symbol s m).
    split; [|split; reflexivity].
    unfold set_property, with_heap. cbn [heap].
    rewrite lookup_alter_eq, Hw3. cbn. rewrite Hd1. reflexivity.
  - rewrite set_property_other by exact Hsp. exact H3s.
  - intros x0 m0 q Hp0 Hd0 Hqp Hqs. rewrite ?Hp in Hp0. injection Hp0 as <-.
    cbn in Hd0. injection Hd0 as <-.
    rewrite set_property_other by exact Hqp.
    unfold w3. cbn [heap]. unfold h3.
    rewrite lookup_alter_ne, lookup_insert_ne by congruence.
    case_decide as E; [exact (Hfreed q E) | exact (Hother q Hqp E)].
  - intros x0 m0 s0 Hp0 Hd0 Hs0. rewrite Hafter in Hp0.
    injection Hp0 as <-. cbn in Hd0. injection Hd0 as <-.
    cbn in Hs0. injection Hs0 as <-.
    assert (Hlive : forall q, m_name m = Some q \/ m_type m = Some q ->
                              q <> s).
    { intros q Hq ->.
      destruct (property_of_strings _ _ _ _ _ s Hp eq_refl Hm) as [_ [u Hu]];
        [destruct Hq; one_of|].
      rewrite <- (Hstr s Hq) in Hu. unfold load_string in Hu.
      rewrite Hs1 in Hu. discriminate. }
    cbn [set_symbol m_name m_type].
    split; [intros E; exact (Hlive s (or_introl E) eq_refl)|].
    split; [intros E; exact (Hlive s (or_intror E) eq_refl)|].
    eexists. rewrite set_property_other by exact Hsp.
    split; [exact H3s|reflexivity].
Qed.


(** X4.  The same annotation when the copy of the symbol cannot be
    allocated: -1 is returned with the no-memory error raised, and the
    property is left without a symbol, the one it had having been released
    before the copy was asked for; its other members are as before. *)
Theorem property_annotation_symbol_no_memory symbol_valid p value w v :
  load_property (heap w) p = Some v ->
  symbol_apart (heap w) p ->
  symbol_valid value = true ->
  head (answers w) = Some false ->
  exists r,
    property_annotation symbol_valid p "com.netsplit.Nih.Symbol" value w
    = Some r
    /\ ar_ret r = -1
    /\ ar_raised r = Some (AnnotationSystemError ENOMEM, [])
    /\ load_property (heap (ar_mem r)) p = Some (without_symbol v)
    /\ (forall x m q,
          heap w !! p = Some x -> ctx_data x = VProperty m ->
          q <> p ->
          heap (ar_mem r) !! q
          = if decide (m_symbol m = Some q) then None else heap w !! q).
Proof.
  intros L Hapart Hvalid Hrefused.
  destruct (load_property_block _ _ _ L) as (x & m & Hp & Hd & Hm).
  destruct (unref_symbol_spec p w x m v Hp Hd Hm Hapart)
    as (Hans & (x1 & Hp1 & Hd1) & Hstr & Hfreed & Hother).
  unfold property_annotation. rewrite Hp.
  destruct x as [xp xc xd d]. cbn in Hd. subst d.
  change (String.eqb "com.netsplit.Nih.Symbol"
            "org.freedesktop.DBus.Deprecated") with false.
  change (String.eqb "com.netsplit.Nih.Symbol" "com.netsplit.Nih.Symbol")
    with true. cbv iota. rewrite Hvalid.
  set (w1 := match m_symbol m with
             | Some s => nih_unref s p w
             | None => w
             end) in *.
  unfold nih_strdup.
  rewrite nih_alloc_refused by (rewrite Hans; exact Hrefused).
  set (w2 := {| heap := heap w1; answers := tail (answers w1) |}).
  eexists. split; [reflexivity|]. cbn [ar_ret ar_raised ar_mem].
  split; [reflexivity|]. split; [reflexivity|]. split.
  - rewrite (load_set_property p clear_symbol w2 _ m Hp1 Hd1).
    exact (property_of_clear_symbol (heap w) (heap w1) m v Hm Hstr).
  - intros x0 m0 q Hp0 Hd0 Hqp. rewrite ?Hp in Hp0. injection Hp0 as <-.
    cbn in Hd0. injection Hd0 as <-.
    rewrite set_property_other by exact Hqp. cbn [heap].
    case_decide as E; [exact (Hfreed q E) | exact (Hother q Hqp E)].
Qed.

(** ** Freeing what was allocated (nih/alloc.c) *)

Lemma nih_alloc_result parent d w p w1 :
  nih_alloc parent d w = (Some p, w1) ->
  p = fresh (dom (heap w))
  /\ w1 = {| heap :=
               match parent with
               | Some q => alter (add_child p) q
               | None => fun h => h
               end (<[p := {| ctx_parent := parent; ctx_children := [];
                              ctx_destructor := None; ctx_data := d |}]>
                      (heap w));
             answers := tail (answers w) |}.
Proof.
  unfold nih_alloc. destruct (answers w) as [|[] rest]; intros [= <- <-];
    (split; [reflexivity|]); destruct parent; reflexivity.
Qed.

(** X5.  A block just allocated and freed again is gone, and every block
    that was live before the allocation is as it was, except the parent
    the block was given: [nih_free] does not take the block out of the
    list of its parent's children, which goes on naming the freed
    block. *)
Theorem nih_free_after_alloc parent d w p w1 :
  (forall q, parent = Some q -> is_Some (heap w !! q)) ->
  nih_alloc parent d w = (Some p, w1) ->
  heap w !! p = None
  /\ heap (nih_free p w1)
     = match parent with
       | Some q => alter (add_child p) q (heap w)
       | None => heap w
       end.
Proof.
  intros Hparent Halloc.
  destruct (nih_alloc_result _ _ _ _ _ Halloc) as [Hp ->].
  assert (Hfresh : heap w !! p = None) by (rewrite Hp; apply fresh_not_in).
  split; [exact Hfresh|].
  assert (Hne : forall q, parent = Some q -> q <> p).
  { intros q Hq ->. destruct (Hparent p Hq) as [x Hx]. congruence. }
  apply map_eq. intros q. unfold nih_free, with_heap. cbn [heap].
  rewrite (nih_free_leaf _ p {| ctx_parent := parent; ctx_children := [];
                                ctx_destructor := None; ctx_data := d |});
    [| |reflexivity].
  - case_decide as Hq.
    + subst q. destruct parent as [q|]; [|congruence].
      rewrite lookup_alter_ne by (apply Hne; reflexivity). congruence.
    + destruct parent as [r|].
      * rewrite !lookup_alter. case_decide; rewrite lookup_insert_ne by congruence;
          reflexivity.
      * apply lookup_insert_ne. congruence.
  - destruct parent as [r|].
    + rewrite lookup_alter_ne by (apply Hne; reflexivity).
      apply lookup_insert_eq.
    + apply lookup_insert_eq.
Qed.
(** What follows is about the allocator alone. *)
Ltac allocator_only :=
  clear dbus_signature_validate_single symbol_from_name marshal demarshal
    type_to_pointer type_to_const type_var_layout type_func_to_string
    marshal_ok demarshal_ok.

Lemma nih_free_absent_or_leaf (h : gmap ptr NihAllocCtx) s k q :
  (h !! s = None \/ exists y, h !! s = Some y /\ ctx_children y = []) ->
  nih_free_depth (S k) s h !! q = if decide (q = s) then None else h !! q.
Proof.
  intros [Hs|(y & Hs & Hc)].
  - cbn [nih_free_depth]. rewrite Hs. case_decide; congruence.
  - exact (nih_free_leaf h s y k q Hs Hc).
Qed.

Lemma free_leaves k (l : list ptr) : forall (h : gmap ptr NihAllocCtx),
  (forall c, c ∈ l ->
     h !! c = None \/ exists y, h !! c = Some y /\ ctx_children y = []) ->
  forall q,
    foldl (fun h' c => nih_free_depth (S k) c h') h l !! q
    = if decide (q ∈ l) then None else h !! q.
Proof.
  allocator_only.
  induction l as [|c l IH]; intros h Hl q; cbn [foldl].
  - case_decide as E; [inversion E|reflexivity].
  - rewrite IH.
    + rewrite nih_free_absent_or_leaf by (apply Hl; left).
      repeat case_decide; try reflexivity; set_solver.
    + intros c' Hc'.
      rewrite nih_free_absent_or_leaf by (apply Hl; left).
      case_decide; [left; reflexivity|]. apply Hl. right. exact Hc'.
Qed.

Lemma size_live (h : gmap ptr NihAllocCtx) p x :
  h !! p = Some x -> exists k, size h = S k.
Proof.
  intros Hp. destruct (size h) as [|k] eqn:E; [|eauto].
  apply map_size_empty_inv in E. subst h. rewrite lookup_empty in Hp.
  discriminate.
Qed.

Lemma grown_by_new (h : gmap ptr NihAllocCtx) p d :
  h !! p = None ->
  grown_by h (<[p := {| ctx_parent := None; ctx_children := [];
                        ctx_destructor := None; ctx_data := d |}]> h) p.
Proof.
  intros Hp. split; [exact Hp|]. eexists. split; [apply lookup_insert_eq|].
  cbn [ctx_children]. split; [apply not_elem_of_nil|].
  split; [intros c Hc; inversion Hc|].
  intros q Hq _. apply lookup_insert_ne. congruence.
Qed.

Lemma grown_by_alter (h h' : gmap ptr NihAllocCtx) p F :
  (forall x, ctx_children (F x) = ctx_children x) ->
  grown_by h h' p -> grown_by h (alter F p h') p.
Proof.
  intros HF (Hp & x & Hx & Hpx & Hc & Hq). split; [exact Hp|].
  exists (F x). rewrite lookup_alter_eq, Hx, HF.
  split; [reflexivity|]. split; [exact Hpx|]. split.
  - intros c Hcx. destruct (Hc c Hcx) as (Hh & y & Hy & Hl).
    split; [exact Hh|]. exists y.
    rewrite lookup_alter_ne by (intros ->; contradiction). split; assumption.
  - intros q Hqp Hqx. rewrite lookup_alter_ne by congruence.
    apply Hq; assumption.
Qed.

Lemma grown_by_child (h h' : gmap ptr NihAllocCtx) p d :
  grown_by h h' p ->
  grown_by h
    (alter (add_child (fresh (dom h'))) p
       (<[fresh (dom h') := {| ctx_parent := Some p; ctx_children := [];
                               ctx_destructor := None; ctx_data := d |}]> h'))
    p.
Proof.
  allocator_only.
  intros (Hp & x & Hx & Hpx & Hc & Hq).
  set (c := fresh (dom h')).
  assert (Hc' : h' !! c = None) by apply fresh_not_in.
  assert (Hcp : c <> p) by congruence.
  assert (Hcx : c ∉ ctx_children x).
  { intros Hin. destruct (Hc c Hin) as (_ & y & Hy & _). congruence. }
  assert (Hhc : h !! c = None) by (rewrite <- (Hq c Hcp Hcx); exact Hc').
  split; [exact Hp|]. exists (add_child c x).
  rewrite lookup_alter_eq, lookup_insert_ne, Hx by congruence.
  split; [reflexivity|]. cbn [add_child ctx_children].
  split; [set_solver|]. split.
  - intros c0 Hc0. apply elem_of_app in Hc0 as [Hc0|Hc0].
    + destruct (Hc c0 Hc0) as (Hh & y & Hy & Hl). split; [exact Hh|].
      exists y. split; [|exact Hl].
      rewrite lookup_alter_ne, lookup_insert_ne by congruence. exact Hy.
    + apply list_elem_of_singleton in Hc0. subst c0. split; [exact Hhc|].
      eexists. rewrite lookup_alter_ne by congruence.
      split; [apply lookup_insert_eq|reflexivity].
  - intros q Hqp Hqx.
    rewrite lookup_alter_ne, lookup_insert_ne by set_solver.
    apply Hq; set_solver.
Qed.

Lemma nih_free_depth_S n p (h : gmap ptr NihAllocCtx) :
  nih_free_depth (S n) p h
  = match h !! p with
    | None => h
    | Some x =>
        let h1 := foldl (fun h' q => nih_free_depth n q h') h
                    (ctx_children x) in
        delete p (match ctx_destructor x with
                  | Some nih_list_destroy => nih_list_remove p h1
                  | None => h1
                  end)
    end.
Proof. reflexivity. Qed.

Lemma grown_by_free (h h' : gmap ptr NihAllocCtx) p :
  grown_by h h' p -> nih_free_depth (S (size h')) p h' = h.
Proof.
  intros (Hp & x & Hx & Hpx & Hc & Hq).
  destruct (size_live _ _ _ Hx) as [k ->].
  apply map_eq. intros q. rewrite nih_free_depth_S, Hx. cbv zeta.
  set (h1 := foldl (fun h0 c => nih_free_depth (S k) c h0) h' (ctx_children x)).
  assert (H1 : forall r, h1 !! r
                         = if decide (r ∈ ctx_children x) then None
                           else h' !! r).
  { apply free_leaves. intros c Hcx. right.
    destruct (Hc c Hcx) as (_ & y & Hy & Hl). eauto. }
  rewrite lookup_delete. case_decide as E; [congruence|].
  assert (H2 : (match ctx_destructor x with
                | Some nih_list_destroy => nih_list_remove p h1
                | None => h1
                end) !! q = h1 !! q).
  { destruct (ctx_destructor x) as [[]|]; [|reflexivity].
    unfold nih_list_remove, nih_list_init, set_node.
    apply lookup_alter_ne. congruence. }
  rewrite H2, H1. case_decide as Hin.
  - destruct (Hc q Hin) as [Hh _]. congruence.
  - apply Hq; [congruence|exact Hin].
Qed.
Lemma property_new_grows name type access w :
  match property_new None name type access w with
  | (Some p, w') => grown_by (heap w) (heap w') p
  | (None, w') => heap w' = heap w
  end.
Proof.
  unfold property_new, nih_strdup.
  destruct (decide (head (answers w) = Some false)) as [H0|H0].
  { rewrite nih_alloc_refused by exact H0. reflexivity. }
  rewrite nih_alloc_granted by exact H0.
  set (p := fresh (dom (heap w))). cbv zeta.
  match goal with
  | |- context [nih_alloc (Some p) (VString name) ?w0] => set (w1 := w0)
  end.
  assert (G1 : grown_by (heap w) (heap w1) p).
  { unfold w1, nih_alloc_set_destructor, with_heap, nih_list_init, set_node.
    cbn [heap].
    apply grown_by_alter; [reflexivity|].
    apply grown_by_alter; [intros [? ? ? []]; reflexivity|].
    apply grown_by_new, fresh_not_in. }
  clearbody w1.
  destruct (decide (head (answers w1) = Some false)) as [H1|H1].
  { rewrite nih_alloc_refused by exact H1.
    unfold nih_free, with_heap. cbn [heap]. apply grown_by_free, G1. }
  rewrite nih_alloc_granted by exact H1.
  match goal with
  | |- context [nih_alloc (Some p) (VString type) ?w0] => set (w2 := w0)
  end.
  assert (G2 : grown_by (heap w) (heap w2) p).
  { unfold w2, set_property, with_heap. cbn [heap].
    apply grown_by_alter; [intros [? ? ? []]; reflexivity|].
    apply grown_by_child, G1. }
  clearbody w2.
  destruct (decide (head (answers w2) = Some false)) as [H2|H2].
  { rewrite nih_alloc_refused by exact H2.
    unfold nih_free, with_heap. cbn [heap]. apply grown_by_free, G2. }
  rewrite nih_alloc_granted by exact H2.
  unfold set_property, with_heap. cbn [heap].
  apply grown_by_alter; [intros [? ? ? []]; reflexivity|].
  apply grown_by_child, G2.
Qed.

(** X6.  [property_new] without a parent does not leak: when it returns
    [NULL], whichever of its three allocations was refused, the live
    blocks are those there were before the call; and when it returns a
    property, freeing that property frees its name and type with it,
    which leaves the live blocks there were before the call. *)
Theorem property_new_no_leak name type access w :
  let '(r, w') := property_new None name type access w in
  match r with
  | Some p => heap (nih_free p w') = heap w
  | None => heap w' = heap w
  end.
Proof.
  pose proof (property_new_grows name type access w) as H.
  destruct (property_new None name type access w) as [[p|] w'].
  - apply grown_by_free, H.
  - exact H.
Qed.


Lemma property_of_no_symbol h m v :
  property_of h m = Some v -> p_symbol v = None -> m_symbol m = None.
Proof.
  unfold property_of.
  destruct (m_name m) as [n|], (m_type m) as [t|]; try discriminate.
  destruct (load_string h n) as [name|], (load_string h t) as [type|];
    try discriminate.
  destruct (m_symbol m) as [s|]; [|reflexivity].
  destruct (load_string h s); [|discriminate].
  intros [= <-]. discriminate.
Qed.

(** X8.  When the property on top of the stack has no symbol and the
    allocation of the one to be derived from its name is refused,
    [property_end_tag] returns -1 with the no-memory error raised; the
    property is still on top of the stack, it still has no symbol, and the
    live blocks are as they were. *)
Theorem property_end_tag_no_memory st property rest v :
  stack st
  = {| s_type := PARSE_PROPERTY; s_data := DataProperty property |} :: rest ->
  load_property (heap (mem st)) property = Some v ->
  p_symbol v = None ->
  head (answers (mem st)) = Some false ->
  exists st',
    property_end_tag st = Some (-1, st')
    /\ raised st' = Some {| number := ENOMEM; message_args := [] |}
    /\ stack st' = stack st
    /\ heap (mem st') = heap (mem st)
    /\ load_property (heap (mem st')) property = Some v.
Proof.
  intros Hstack L Hsym Hrefused.
  destruct (load_property_block _ _ _ L) as (x & m & Hp & Hd & Hm).
  unfold property_end_tag. rewrite Hstack.
  change (parse_stack_top (?a :: ?b)) with (Some a). cbv iota beta.
  rewrite Hp. destruct x as [xp xc xd d]. cbn in Hd. subst d.
  unfold generate_symbol.
  rewrite (property_of_no_symbol _ _ _ Hm Hsym), (the_name_load _ _ _ L).
  unfold nih_strdup. rewrite nih_alloc_refused by exact Hrefused.
  eexists. split; [reflexivity|]. cbn.
  split; [reflexivity|]. split; [exact Hstack|].
  split; [reflexivity|]. exact L.
Qed.

(** ** What the generated functions do besides *)

(** X9.  The getter of an object calls the handler before anything else.
    If the handler returns a negative value the getter returns -1 and has
    made no other call.  If the variant cannot be opened it returns -1
    after these two calls, without raising an error.  A run that returns
    has called the handler exactly once, returns 0 or -1, and returns 0
    only if the handler did not fail and the last call made is the one
    that closes the variant, with success. *)
Theorem object_get_run property handler_name w fuel st :
  let r := exec_block w fuel (object_get_body property handler_name) st in
  let handled := object_get_handled property handler_name (w (pos st)) in
  let opened := object_get_opened property (w (S (pos st))) in
  (w (pos st) < 0 -> r = (Ret (-1), after st 1 [handled]))
  /\ (0 <= w (pos st) -> w (S (pos st)) = 0 ->
      r = (Ret (-1), after st 2 [handled; opened]))
  /\ (forall z, fst r = Ret z ->
      exists tr,
        log (snd r) = log st ++ handled :: tr
        /\ no_handler tr
        /\ (z = 0 \/ z = -1)
        /\ (z = 0 ->
            0 <= w (pos st)
            /\ exists tr' x,
                 tr = tr'
                      ++ [called "dbus_message_iter_close_container"
                            ["iter"; "&variter"] x]
                 /\ x <> 0)).
Proof using marshal_ok.
  cbv zeta.
  unfold object_get_body, object_get_code_block, object_asserts,
    object_get_handled, object_get_opened, handler_called, called, after.
  cbn [app]. rewrite <- ?app_assoc. cbn [app]. run. cbn [Nat.add].
  destruct (Z.ltb_spec (w (pos st)) 0) as [Hneg|Hpos]; run.
  { split; [reflexivity|]. split; [lia|].
    intros z [= <-]. eexists []. split; [reflexivity|].
    split; [constructor|]. split; [right; reflexivity|]. discriminate. }
  split; [lia|].
  destruct (Z.eqb_spec (w (S (pos st))) 0) as [Hopen|Hopen]; run.
  { split; [intros _ _; rewrite <- ?app_assoc, ?Hopen; reflexivity|].
    intros z [= <-]. eexists [_]. rewrite <- ?app_assoc.
    split; [reflexivity|]. split; [api_only|].
    split; [right; reflexivity|]. discriminate. }
  split; [intros _ E; contradiction|].
  rewrite exec_block_app. unfold object_get_marshalled.
  fragment_of marshal_ok tr st1 Hlog Hapi Hbal Hr.
  destruct Hr as [Hr|[Hr|Hr]]; rewrite ?Hr.
  - run. destruct (Z.eqb_spec (w (pos st1)) 0) as [Hclose|Hclose]; run;
      intros z [= <-]; cbn [log]; rewrite Hlog, <- ?app_assoc; cbn [app].
    + eexists (_ :: tr ++ [_]). rewrite <- ?app_assoc. cbn [app].
      split; [reflexivity|]. split; [api_only|].
      split; [right; reflexivity|]. discriminate.
    + eexists (_ :: tr ++ [_]). rewrite <- ?app_assoc. cbn [app].
      split; [reflexivity|]. split; [api_only|].
      split; [left; reflexivity|]. intros _. split; [exact Hpos|].
      eexists (_ :: tr), _. split; [reflexivity|exact Hclose].
  - unfold object_get_oom_error_code. run.
    intros z [= <-]. cbn [log]. rewrite Hlog, <- ?app_assoc. cbn [app].
    eexists (_ :: tr ++ [_]). rewrite <- ?app_assoc. cbn [app].
    split; [reflexivity|]. split; [api_only|].
    split; [right; reflexivity|]. discriminate.
  - intros z Hz. exfalso.
    destruct (exec_block w fuel _ _) as [[] ?]; cbn in Hr, Hz; discriminate.
Qed.

(** X10.  Once a reply has come back, the setter of a proxy releases the
    method call and takes the type of the first argument of the reply.  If
    the reply has an argument, it releases the reply, raises the error of
    the invalid-arguments domain and returns -1; if the reply is empty, it
    releases the reply and returns 0.  Either way the reply is released
    exactly once. *)
Theorem proxy_set_reply_checked w fuel st :
  let r := exec_block w fuel proxy_set_after_send st in
  let first := w (2 + pos st)%nat in
  (first <> dbus_type_code DBUS_TYPE_INVALID ->
   r = (Ret (-1),
        after st 4 (proxy_set_reply_calls w st ++ [returned_invalid_args])))
  /\ (first = dbus_type_code DBUS_TYPE_INVALID ->
      r = (Ret 0, after st 4 (proxy_set_reply_calls w st))).
Proof.
  cbv zeta. unfold proxy_set_after_send, proxy_set_call_block,
    proxy_send_block, proxy_type_error_code, proxy_set_reply_calls,
    returned_invalid_args, called, after.
  cbn [List.length skipn app dbus_type_code Nat.add]. run.
  rewrite <- ?app_assoc. cbn [app].
  destruct (Z.eqb_spec (w (S (S (pos st)))) 0) as [E|E]; run;
    rewrite <- ?app_assoc; cbn [app];
    (split; [intros H|intros H]); try contradiction; reflexivity.
Qed.

(** X11.  Either client function builds its method call in four calls: it
    creates a call of the member [method] of the D-Bus properties
    interface on the name and path of the proxy, then appends the name of
    the interface and the name of the property, in that order, as strings.
    If the method call cannot be created, or either string cannot be
    appended, it raises the no-memory error and returns -1 at once; on
    the last two of these paths the method call created is not released. *)
Theorem proxy_construct_run method interface_name property w fuel st :
  let r :=
    exec_block w fuel (proxy_construct_block method interface_name property)
      st in
  let made := constructing method w st in
  let created := w (pos st) in
  let interface_appended := w (2 + pos st)%nat in
  let property_appended := w (3 + pos st)%nat in
  (created = 0 ->
   r = (Ret (-1), made 1%nat [("method_call", 0)] [returned_no_memory]))
  /\ (created <> 0 -> interface_appended = 0 ->
      r = (Ret (-1),
           made 3%nat [("method_call", created); ("interface", 1)]
             [returned_no_memory]))
  /\ (created <> 0 -> interface_appended <> 0 -> property_appended = 0 ->
      r = (Ret (-1),
           made 4%nat
             [("method_call", created); ("interface", 1); ("property", 1)]
             [returned_no_memory]))
  /\ (created <> 0 -> interface_appended <> 0 -> property_appended <> 0 ->
      r = (Fall,
           made 4%nat
             [("method_call", created); ("interface", 1); ("property", 1)]
             [])).
Proof.
  cbv zeta. unfold proxy_construct_block, constructing,
    proxy_construct_calls, returned_no_memory, called.
  cbn [firstn fold_left fst snd Nat.add app]. run.
  destruct (Z.eqb_spec (w (pos st)) 0) as [E0|E0]; run.
  { repeat split; intros; try contradiction.
    rewrite E0, <- ?app_assoc. reflexivity. }
  destruct (Z.eqb_spec (w (S (S (pos st)))) 0) as [E2|E2]; run.
  { repeat split; intros; try contradiction.
    rewrite <- ?app_assoc. reflexivity. }
  destruct (Z.eqb_spec (w (S (S (S (pos st))))) 0) as [E3|E3]; run;
    repeat split; intros; try contradiction;
    rewrite <- ?app_assoc, ?app_nil_r; reflexivity.
Qed.

Lemma proxy_get_loop_outcome property w fuel n : forall st o st',
  do_while w fuel "enomem" (proxy_get_block property)
    (ENot (EVar "*value")) n st = (o, st') ->
  o = OutOfFuel
  \/ (o = Fall /\ read st' "*value" <> 0)
  \/ o = Ret (-1).
Proof using demarshal_ok.
  induction n as [|n IH]; intros st o st' H.
  - cbn in H. injection H as <- <-. left. reflexivity.
  - cbn [do_while] in H. unfold proxy_get_block in H.
    rewrite exec_block_app in H. unfold proxy_get_demarshalled in H.
    match type of H with
    | context [exec_block ?w ?fuel (de_block (?m ?s ?p ?i ?nm ?oo ?t)) ?st0] =>
        destruct (demarshal_ok s p i nm oo t w fuel st0)
          as (tr & st1 & Hlog & [Hapi Hbal] & Hr);
          [leaves_code|leaves_code|]
    end.
    cbv zeta in Hr.
    assert (Hagain : forall st2,
              (let '(v, st3) := eval w (ENot (EVar "*value")) st2 in
               if v =? 0 then (Fall, st3)
               else do_while w fuel "enomem"
                      (de_block (demarshal (p_type property) "parent"
                                   "variter" "local" proxy_get_oom_error_code
                                   proxy_type_error_code)
                       ++ [SBlank]
                       ++ map (fun var =>
                                 SAssign ("*" +:+ proxy_get_arg_name var)
                                   (EVar (tv_name var)))
                            (de_outputs
                               (demarshal (p_type property) "parent"
                                  "variter" "local" proxy_get_oom_error_code
                                  proxy_type_error_code)))
                      (ENot (EVar "*value")) n st3) = (o, st') ->
              o = OutOfFuel
              \/ (o = Fall /\ read st' "*value" <> 0)
              \/ o = Ret (-1)).
    { intros st2. cbn [eval].
      destruct (Z.eqb_spec (read st2 "*value") 0) as [E|E]; cbn [truth Z.eqb].
      - intros H2. exact (IH _ _ _ H2).
      - intros [= <- <-]. right. left. split; [reflexivity|exact E]. }
    destruct Hr as [Hr|[Hr|[Hr|Hr]]].
    + rewrite Hr in H. cbn [app exec_block exec] in H.
      match type of H with
      | context [exec_block ?w ?fuel (map ?c ?l) ?st0] =>
          destruct (exec_copies (fun var => "*" +:+ proxy_get_arg_name var)
                      tv_name l w fuel st0) as (st2 & E & _ & _)
      end.
      rewrite E in H. exact (Hagain st2 H).
    + change (exec_block w fuel proxy_get_oom_error_code st1)
        with (Jump "enomem", write "*value" 0 st1) in Hr.
      rewrite Hr in H.
      change (String.eqb "enomem" "enomem") with true in H.
      exact (Hagain (write "*value" 0 st1) H).
    + rewrite Hr in H. unfold proxy_type_error_code in H. revert H. run.
      intros [= <- <-]. right. right. reflexivity.
    + left. destruct (exec_block w fuel _ st) as [[] ?]; cbn in Hr;
        try discriminate. injection H as <- _. reflexivity.
Qed.

(** X12.  A run of the getter of a proxy that returns, returns 0 or -1;
    and when it returns 0 the output slot [*value] is not null. *)
Theorem proxy_get_returns interface_name property w fuel st z st' :
  exec_block w fuel (proxy_get_body interface_name property) st
  = (Ret z, st') ->
  z = -1 \/ (z = 0 /\ read st' "*value" <> 0).
Proof using demarshal_ok.
  unfold proxy_get_body, proxy_get_assert_block.
  cbn [app exec_block exec]. rewrite exec_block_app, exec_asserts.
  unfold proxy_get_call_block, proxy_construct_block, proxy_send_block,
    proxy_reply_error_code, proxy_get_demarshal_block, proxy_type_error_code.
  cbn [app]. rewrite <- ?app_assoc. cbn [app]. run.
  destruct (w (pos st) =? 0); run; [intros [= <- <-]; left; reflexivity|].
  destruct (w (S (S (pos st))) =? 0); run;
    [intros [= <- <-]; left; reflexivity|].
  destruct (w (S (S (S (pos st)))) =? 0); run;
    [intros [= <- <-]; left; reflexivity|].
  destruct (w (S (S (S (S (S (pos st)))))) =? 0); run.
  { destruct (w (S (S (S (S (S (S (S (pos st)))))))) =? 0); run;
      intros [= <- <-]; left; reflexivity. }
  destruct (w (S (S (S (S (S (S (S (S (pos st))))))))) =? 118); run;
    [|intros [= <- <-]; left; reflexivity].
  destruct (w (S (S (S (S (S (S (S (S (S (S (S (pos st)))))))))))) =? 0);
    run; [|intros [= <- <-]; left; reflexivity].
  unfold proxy_get_loop. rewrite exec_do_while.
  match goal with
  | |- context [do_while ?w ?fuel ?l ?b ?c ?n ?st0] =>
      destruct (do_while w fuel l b c n st0) as [o st2] eqn:Hloop;
      destruct (proxy_get_loop_outcome property w fuel n st0 o st2 Hloop)
        as [->|[[-> Hvalue]| ->]]
  end; run; try discriminate.
  - intros [= <- <-]. right. split; [reflexivity|exact Hvalue].
  - intros [= <- <-]. left. reflexivity.
Qed.

(** ** The prototypes *)





(** X15.  A run of the setter of a proxy that returns, returns 0 or -1;
    and it returns 0 only at the end of a run whose last five calls are
    the send, answered by a reply, the release of the method call, the
    two calls that find the reply to be empty, and the release of the
    reply. *)
Theorem proxy_set_returns interface_name property w fuel st z st' :
  exec_block w fuel (proxy_set_body interface_name property) st
  = (Ret z, st') ->
  z = -1
  \/ (z = 0
      /\ exists tr reply a b c,
           log st'
           = log st ++ tr
             ++ [ called "dbus_connection_send_with_reply_and_block"
                    ["proxy->conn"; "method_call"; "-1"; "&error"] reply;
                  called "dbus_message_unref" ["method_call"] a;
                  called "dbus_message_iter_init" ["reply"; "&iter"] b;
                  called "dbus_message_iter_get_arg_type" ["&iter"]
                    (dbus_type_code DBUS_TYPE_INVALID);
                  called "dbus_message_unref" ["reply"] c ]
           /\ reply <> 0).
Proof using marshal_ok.
  unfold proxy_set_body, proxy_set_assert_block.
  cbn [app exec_block exec]. rewrite exec_block_app, exec_asserts.
  unfold proxy_set_marshal_block, proxy_construct_block,
    proxy_set_call_block, proxy_send_block, proxy_reply_error_code,
    proxy_type_error_code, called.
  cbn [app dbus_type_code]. rewrite <- ?app_assoc. cbn [app]. run.
  destruct (w (pos st) =? 0); run; [intros [= <- <-]; left; reflexivity|].
  destruct (w (S (S (pos st))) =? 0); run;
    [intros [= <- <-]; left; reflexivity|].
  destruct (w (S (S (S (pos st)))) =? 0); run;
    [intros [= <- <-]; left; reflexivity|].
  destruct (w (S (S (S (S (pos st))))) =? 0) eqn:Eopen; run;
    [intros [= <- <-]; left; reflexivity|].
  rewrite exec_block_app. unfold proxy_set_marshalled.
  fragment_of marshal_ok tr st1 Hlog Hapi Hbal Hr.
  destruct Hr as [Hr|[Hr|Hr]].
  - rewrite Hr. run.
    destruct (w (pos st1) =? 0); run; [intros [= <- <-]; left; reflexivity|].
    destruct (Z.eqb_spec (w (S (S (pos st1)))) 0) as [Hreply|Hreply]; run.
    { destruct (w (S (S (S (S (pos st1))))) =? 0); run;
        intros [= <- <-]; left; reflexivity. }
    destruct (Z.eqb_spec (w (S (S (S (S (S (pos st1))))))) 0) as [Hempty|Hempty];
      run; intros [= <- <-]; [|left; reflexivity].
    right. split; [reflexivity|]. cbn [log]. rewrite Hlog, <- ?app_assoc.
    cbn [app]. rewrite Hempty.
    eexists (_ :: _ :: _ :: _ :: _ :: tr ++ [_; _]), _, _, _, _.
    cbn [app]. rewrite <- ?app_assoc. cbn [app].
    split; [reflexivity|exact Hreply].
  - rewrite Hr. unfold proxy_set_oom_error_code. run.
    intros [= <- <-]. left. reflexivity.
  - out_of_fuel Hr.
Qed.

(** ** A whole element *)



(** X17.  When the argument of the setter of an object is a variant and
    the demarshalling code gives up for want of memory, the setter raises
    the no-memory error and returns -1; that error is its last call, and
    the handler is not called. *)
Theorem object_set_no_memory property handler_name w fuel st tr st1 :
  w (pos st) = dbus_type_code DBUS_TYPE_VARIANT ->
  log st1 = log (object_set_recursed w st) ++ tr ->
  no_handler tr ->
  exec_block w fuel (de_block (object_set_demarshalled property))
    (object_set_recursed w st)
  = exec_block w fuel object_set_oom_error_code st1 ->
  let r := exec_block w fuel (object_set_body property handler_name) st in
  r = (Ret (-1),
       after st1 1 [called "nih_error_raise_no_memory" [] (w (pos st1))])
  /\ exists tr',
       log (snd r)
       = log st ++ tr'
         ++ [called "nih_error_raise_no_memory" [] (w (pos st1))]
       /\ no_handler tr'.
Proof.
  intros Hv Hlog Hapi Hoom. cbv zeta.
  assert (Hr : exec_block w fuel (object_set_body property handler_name) st
               = (Ret (-1),
                  after st1 1
                    [called "nih_error_raise_no_memory" [] (w (pos st1))])).
  { unfold object_set_body, object_set_demarshal_block, object_asserts.
    cbn [app]. rewrite <- ?app_assoc. cbn [app]. run.
    apply Z.eqb_eq in Hv. cbn [dbus_type_code] in Hv. rewrite Hv. run.
    rewrite exec_block_app.
    match goal with
    | |- context [exec_block w fuel (de_block _) ?s0] =>
        replace s0 with (object_set_recursed w st)
          by (unfold object_set_recursed, after, called; cbn [Nat.add];
              rewrite <- app_assoc; reflexivity)
    end.
    rewrite Hoom. unfold object_set_oom_error_code, after, called. run.
    reflexivity. }
  rewrite Hr. split; [reflexivity|].
  unfold after. cbn [snd log]. rewrite Hlog.
  unfold object_set_recursed, after. cbn [log]. rewrite <- ?app_assoc.
  eexists (_ :: _ :: tr). split; [reflexivity|]. api_only.
Qed.

End Tool.

(** * The generators at the property of the tests *)

(** With the marshalling code of a string in place of [marshal] and
    [demarshal], the four bodies are, character for character, the ones
    test_property.c expects. *)
Example object_get_body_text :
  render (object_get_body marshal_string my_property "my_property_get")
  = expected_object_get_body.
Proof. vm_compute. reflexivity. Qed.

Example object_set_body_text :
  render (object_set_body demarshal_string my_property "my_property_set")
  = expected_object_set_body.
Proof. vm_compute. reflexivity. Qed.

Example proxy_get_body_text :
  render (proxy_get_body demarshal_string "com.netsplit.Nih.Test" my_property)
  = expected_proxy_get_body.
Proof. vm_compute. reflexivity. Qed.

Example proxy_set_body_text :
  render (proxy_set_body marshal_string const_of_pointer
            "com.netsplit.Nih.Test" my_property)
  = expected_proxy_set_body.
Proof. vm_compute. reflexivity. Qed.

(** * The statements at the code of the tests *)

(** ** The marshalling code of a string meets the contracts *)

Lemma exec_block_cons w fuel s b st :
  exec_block w fuel (s :: b) st
  = match exec w fuel s st with
    | (Fall, st') => exec_block w fuel b st'
    | r => r
    end.
Proof. reflexivity. Qed.

(** Calls of library functions that open and close no container. *)
Lemma quiet_fragment tr :
  Forall (fun e => ev_kind e = Api /\ opens e = None /\ closes e = None) tr ->
  fragment_trace tr.
Proof.
  induction 1 as [|e tr (Hk & Ho & Hc) _ [IHk IHb]].
  - split; [constructor|]. intros open. reflexivity.
  - split; [constructor; assumption|]. intros open. cbn [track].
    rewrite Ho, Hc. apply IHb.
Qed.

(** One statement of a block whose conditional branches are not known. *)
Ltac step :=
  rewrite exec_block_cons; first [rewrite exec_if | cbn [exec]];
  cbn [eval ask api c_kind c_fn c_args fst snd pos];
  unfold record, write, read; cbn [pos store log snd fst];
  rewrite ?lookup_insert_eq; cbn [default from_option id].

(** The code given for an error is run, and does not run to its end. *)
Ltac gives_up H :=
  match goal with
  | |- ?lhs = _ =>
      match lhs with
      | context [exec_block ?w ?fuel ?code ?st] =>
          let Hl := fresh in
          pose proof (H w fuel st) as Hl;
          transitivity (exec_block w fuel code st); [|reflexivity];
          destruct (exec_block w fuel code st) as [[] ?];
          [exfalso; apply Hl; reflexivity | reflexivity..]
      end
  end.

Ltac fragment_found :=
  [> cbn [log]; rewrite <- ?app_assoc; cbn [app]; reflexivity
   | apply quiet_fragment; repeat constructor ].

Lemma marshal_string_contract : marshal_contract marshal_string.
Proof.
  intros signature iter_name name oom_error_code w fuel st Hoom.
  cbv zeta. unfold marshal_string. cbn [ma_block]. do 2 step.
  destruct (w (pos st) =? 0); cbn [truth Z.eqb].
  - eexists _, _. split; [|split].
    3: { right. left. gives_up Hoom. }
    all: fragment_found.
  - eexists _, _. split; [|split].
    3: { left. reflexivity. }
    all: fragment_found.
Qed.

Lemma demarshal_string_contract : demarshal_contract demarshal_string.
Proof.
  intros signature parent_name iter_name name oom_error_code type_error_code
    w fuel st Hoom Htype.
  unfold demarshal_string. cbn [de_block]. cbv zeta. do 2 step.
  destruct (w (pos st) =? dbus_type_code DBUS_TYPE_STRING);
    cbn [truth negb Z.eqb].
  2:{ eexists _, _. split; [|split].
      3: { right. right. left. gives_up Htype. }
      all: fragment_found. }
  do 5 step.
  destruct (w (S (S (pos st))) =? 0); cbn [truth Z.eqb].
  - eexists _, _. split; [|split].
    3: { right. left. gives_up Hoom. }
    all: fragment_found.
  - eexists _, _. split; [|split].
    3: { left. do 2 step. reflexivity. }
    all: fragment_found.
Qed.

(** ** The annotations of the tests *)

Lemma test_world_apart : symbol_apart (heap test_world) test_property.
Proof.
  intros x m s Hp Hd Hs. vm_compute in Hp. injection Hp as <-.
  cbn in Hd. injection Hd as <-. discriminate Hs.
Qed.

Lemma test_world_with_symbol_apart :
  symbol_apart (heap test_world_with_symbol) test_property.
Proof.
  intros x m s Hp Hd Hs. vm_compute in Hp. injection Hp as <-.
  cbn in Hd. injection Hd as <-. cbn in Hs. injection Hs as <-.
  split; [discriminate|]. split; [discriminate|].
  eexists. split; [vm_compute; reflexivity|reflexivity].
Qed.

(** "with deprecated annotation": the property of the tests is marked
    deprecated. *)
Lemma property_annotation_deprecated_witness :
  exists r,
    property_annotation plain_symbol test_property
      "org.freedesktop.DBus.Deprecated" "true" test_world = Some r
    /\ ar_ret r = 0 /\ ar_raised r = None
    /\ load_property (heap (ar_mem r)) test_property
       = Some {| p_name := "TestProperty"; p_symbol := None; p_type := "s";
                 p_access := NIH_DBUS_READ; p_deprecated := true |}
    /\ answers (ar_mem r) = answers test_world
    /\ forall q, q <> test_property ->
         heap (ar_mem r) !! q = heap test_world !! q.
Proof.
  apply (property_annotation_deprecated plain_symbol test_property "true"
           test_world
           {| p_name := "TestProperty"; p_symbol := None; p_type := "s";
              p_access := NIH_DBUS_READ; p_deprecated := false |}).
  - vm_compute. reflexivity.
  - left. reflexivity.
Defined.

(** "with invalid symbol in annotation" and "with unknown annotation". *)
Lemma property_annotation_rejected_witness :
  property_annotation plain_symbol test_property "com.netsplit.Nih.Symbol"
    "foo bar" test_world
  = Some {| ar_ret := -1; ar_mem := test_world;
            ar_raised := Some (PROPERTY_INVALID_SYMBOL, []) |}
  /\ property_annotation plain_symbol test_property
       "com.netsplit.Nih.Unknown" "true" test_world
     = Some {| ar_ret := -1; ar_mem := test_world;
               ar_raised :=
                 Some (PROPERTY_UNKNOWN_ANNOTATION,
                       ["TestProperty"; "com.netsplit.Nih.Unknown"]) |}.
Proof.
  split.
  - apply (property_annotation_rejected plain_symbol test_property
             "com.netsplit.Nih.Symbol" "foo bar" test_world
             {| p_name := "TestProperty"; p_symbol := None; p_type := "s";
                p_access := NIH_DBUS_READ; p_deprecated := false |});
      vm_compute; reflexivity.
  - apply (property_annotation_rejected plain_symbol test_property
             "com.netsplit.Nih.Unknown" "true" test_world
             {| p_name := "TestProperty"; p_symbol := None; p_type := "s";
                p_access := NIH_DBUS_READ; p_deprecated := false |});
      vm_compute; reflexivity.
Defined.

(** "with symbol annotation and existing symbol": the symbol [test_arg] is
    replaced by [foo]. *)
Lemma property_annotation_symbol_witness :
  exists r s,
    property_annotation plain_symbol test_property "com.netsplit.Nih.Symbol"
      "foo" test_world_with_symbol = Some r
    /\ ar_ret r = 0 /\ ar_raised r = None
    /\ load_property (heap (ar_mem r)) test_property
       = Some {| p_name := "TestProperty"; p_symbol := Some "foo";
                 p_type := "s"; p_access := NIH_DBUS_READ;
                 p_deprecated := false |}
    /\ (exists x m,
          heap (ar_mem r) !! test_property = Some x
          /\ ctx_data x = VProperty m /\ m_symbol m = Some s)
    /\ heap (ar_mem r) !! s
       = Some {| ctx_parent := Some test_property; ctx_children := [];
                 ctx_destructor := None; ctx_data := VString "foo" |}
    /\ (forall x m q,
          heap test_world_with_symbol !! test_property = Some x ->
          ctx_data x = VProperty m ->
          q <> test_property -> q <> s ->
          heap (ar_mem r) !! q
          = if decide (m_symbol m = Some q) then None
            else heap test_world_with_symbol !! q)
    /\ symbol_apart (heap (ar_mem r)) test_property.
Proof.
  apply (property_annotation_symbol plain_symbol test_property "foo"
           test_world_with_symbol
           {| p_name := "TestProperty"; p_symbol := Some "test_arg";
              p_type := "s"; p_access := NIH_DBUS_READ;
              p_deprecated := false |}).
  - vm_compute. reflexivity.
  - exact test_world_with_symbol_apart.
  - vm_compute. reflexivity.
  - vm_compute. discriminate.
Defined.

(** The same when the allocator refuses: the property is left without a
    symbol. *)
Lemma property_annotation_symbol_no_memory_witness :
  let w := {| heap := heap test_world_with_symbol; answers := [false] |} in
  exists r,
    property_annotation plain_symbol test_property "com.netsplit.Nih.Symbol"
      "foo" w = Some r
    /\ ar_ret r = -1
    /\ ar_raised r = Some (AnnotationSystemError ENOMEM, [])
    /\ load_property (heap (ar_mem r)) test_property
       = Some {| p_name := "TestProperty"; p_symbol := None; p_type := "s";
                 p_access := NIH_DBUS_READ; p_deprecated := false |}
    /\ (forall x m q,
          heap w !! test_property = Some x -> ctx_data x = VProperty m ->
          q <> test_property ->
          heap (ar_mem r) !! q
          = if decide (m_symbol m = Some q) then None else heap w !! q).
Proof.
  cbv zeta.
  apply (property_annotation_symbol_no_memory plain_symbol test_property
           "foo" {| heap := heap test_world_with_symbol; answers := [false] |}
           {| p_name := "TestProperty"; p_symbol := Some "test_arg";
              p_type := "s"; p_access := NIH_DBUS_READ;
              p_deprecated := false |}).
  - vm_compute. reflexivity.
  - exact test_world_with_symbol_apart.
  - vm_compute. reflexivity.
  - reflexivity.
Defined.

(** ** The allocator and the parser at the property of the tests *)

(** A string allocated as a child of the property of the tests, and freed
    again: block 4 is gone, and the property still has it among its
    children. *)
Lemma nih_free_after_alloc_witness :
  let r := nih_alloc (Some test_property) (VString "x") test_world in
  heap test_world !! 4%positive = None
  /\ heap (nih_free 4%positive (snd r))
     = alter (add_child 4%positive) test_property (heap test_world).
Proof.
  cbv zeta.
  apply (nih_free_after_alloc (Some test_property) (VString "x") test_world
           4%positive
           (snd (nih_alloc (Some test_property) (VString "x") test_world))).
  - intros q [= <-]. vm_compute. eexists. reflexivity.
  - vm_compute. reflexivity.
Defined.

(** The end tag of the property of the tests when the allocator refuses. *)
Lemma property_end_tag_no_memory_witness :
  let st :=
    {| mem := {| heap := heap test_world; answers := [false] |};
       stack := [{| s_type := PARSE_PROPERTY;
                    s_data := DataProperty test_property |}];
       raised := None; warnings := [] |} in
  exists st',
    property_end_tag symbol_as_name st = Some (-1, st')
    /\ raised st' = Some {| number := ENOMEM; message_args := [] |}
    /\ stack st' = stack st
    /\ heap (mem st') = heap (mem st)
    /\ load_property (heap (mem st')) test_property
       = Some {| p_name := "TestProperty"; p_symbol := None; p_type := "s";
                 p_access := NIH_DBUS_READ; p_deprecated := false |}.
Proof.
  cbv zeta.
  apply (property_end_tag_no_memory symbol_as_name
           {| mem := {| heap := heap test_world; answers := [false] |};
              stack := [{| s_type := PARSE_PROPERTY;
                           s_data := DataProperty test_property |}];
              raised := None; warnings := [] |}
           test_property []).
  - reflexivity.
  - vm_compute. reflexivity.
  - reflexivity.
  - reflexivity.
Defined.


(** ** The generated functions at the property of the tests *)

(** The getter of the object when the string cannot be appended. *)
Lemma object_get_run_witness :
  let w := answering [1; 1; 0] in
  let r := exec_block w 1 (object_get_body marshal_string my_property
                             "my_property_get") initial in
  let handled :=
    object_get_handled marshal_string my_property "my_property_get"
      (w (pos initial)) in
  let opened := object_get_opened my_property (w (S (pos initial))) in
  (w (pos initial) < 0 -> r = (Ret (-1), after initial 1 [handled]))
  /\ (0 <= w (pos initial) -> w (S (pos initial)) = 0 ->
      r = (Ret (-1), after initial 2 [handled; opened]))
  /\ (forall z, fst r = Ret z ->
      exists tr,
        log (snd r) = log initial ++ handled :: tr
        /\ no_handler tr
        /\ (z = 0 \/ z = -1)
        /\ (z = 0 ->
            0 <= w (pos initial)
            /\ exists tr' x,
                 tr = tr'
                      ++ [called "dbus_message_iter_close_container"
                            ["iter"; "&variter"] x]
                 /\ x <> 0)).
Proof.
  exact (object_get_run marshal_string marshal_string_contract my_property
           "my_property_get" (answering [1; 1; 0]) 1%nat initial).
Defined.

(** The getter of the proxy when all goes well: the reply is a variant
    holding a string, which can be copied. *)
Lemma proxy_get_returns_witness :
  let w := answering [1; 1; 1; 1; 1; 1; 1; 1;
                      dbus_type_code DBUS_TYPE_VARIANT; 1; 1;
                      dbus_type_code DBUS_TYPE_INVALID;
                      dbus_type_code DBUS_TYPE_STRING] in
  let r := exec_block w 1 (proxy_get_body demarshal_string test_interface
                             my_property) initial in
  fst r = Ret 0
  /\ (0 = -1 \/ (0 = 0 /\ read (snd r) "*value" <> 0)).
Proof.
  cbv zeta. split; [vm_compute; reflexivity|].
  apply (proxy_get_returns demarshal_string demarshal_string_contract
           test_interface my_property
           (answering [1; 1; 1; 1; 1; 1; 1; 1;
                       dbus_type_code DBUS_TYPE_VARIANT; 1; 1;
                       dbus_type_code DBUS_TYPE_INVALID;
                       dbus_type_code DBUS_TYPE_STRING])
           1%nat initial 0).
  vm_compute. reflexivity.
Defined.

(** The setter of the proxy when all goes well: the reply is empty. *)
Lemma proxy_set_returns_witness :
  let w := answering [1; 1; 1; 1; 1; 1; 1; 1; 1; 1; 1;
                      dbus_type_code DBUS_TYPE_INVALID] in
  let r := exec_block w 1 (proxy_set_body marshal_string const_of_pointer
                             test_interface my_property) initial in
  fst r = Ret 0
  /\ (0 = -1
      \/ (0 = 0
          /\ exists tr reply a b c,
               log (snd r)
               = log initial ++ tr
                 ++ [ called "dbus_connection_send_with_reply_and_block"
                        ["proxy->conn"; "method_call"; "-1"; "&error"] reply;
                      called "dbus_message_unref" ["method_call"] a;
                      called "dbus_message_iter_init" ["reply"; "&iter"] b;
                      called "dbus_message_iter_get_arg_type" ["&iter"]
                        (dbus_type_code DBUS_TYPE_INVALID);
                      called "dbus_message_unref" ["reply"] c ]
               /\ reply <> 0)).
Proof.
  cbv zeta. split; [vm_compute; reflexivity|].
  apply (proxy_set_returns marshal_string const_of_pointer
           marshal_string_contract test_interface my_property
           (answering [1; 1; 1; 1; 1; 1; 1; 1; 1; 1; 1;
                       dbus_type_code DBUS_TYPE_INVALID])
           1%nat initial 0).
  vm_compute. reflexivity.
Defined.

(** The setter of the object when the copy of the string cannot be
    allocated. *)
Lemma object_set_no_memory_witness :
  let w := answering [dbus_type_code DBUS_TYPE_VARIANT; 1;
                      dbus_type_code DBUS_TYPE_STRING; 1; 0] in
  let tr :=
    [ called "dbus_message_iter_get_arg_type" ["&variter"]
        (dbus_type_code DBUS_TYPE_STRING);
      called "dbus_message_iter_get_basic" ["&variter"; "&value_dbus"] 1;
      called "nih_strdup" ["message"; "value_dbus"] 0 ] in
  let st1 := write "value" 0 (after (object_set_recursed w initial) 3 tr) in
  let r := exec_block w 1 (object_set_body demarshal_string my_property
                             "my_property_set") initial in
  r = (Ret (-1),
       after st1 1 [called "nih_error_raise_no_memory" [] (w (pos st1))])
  /\ exists tr',
       log (snd r)
       = log initial ++ tr'
         ++ [called "nih_error_raise_no_memory" [] (w (pos st1))]
       /\ no_handler tr'.
Proof.
  cbv zeta.
  apply (object_set_no_memory demarshal_string my_property "my_property_set"
           (answering [dbus_type_code DBUS_TYPE_VARIANT; 1;
                       dbus_type_code DBUS_TYPE_STRING; 1; 0])
           1%nat initial
           [ called "dbus_message_iter_get_arg_type" ["&variter"]
               (dbus_type_code DBUS_TYPE_STRING);
             called "dbus_message_iter_get_basic" ["&variter"; "&value_dbus"]
               1;
             called "nih_strdup" ["message"; "value_dbus"] 0 ]).
  - reflexivity.
  - reflexivity.
  - repeat constructor.
  - vm_compute. reflexivity.
Defined.
